(** * Voice calling app: signalling relay and mesh client

    A shallow embedding of the two programs of the repository:

    - [server/index.js], the Socket.IO relay that owns the room registry
      and forwards negotiation messages (module [Relay]);
    - [client/src/App.tsx], the React component that keeps one
      [RTCPeerConnection] per remote participant (module [Client]).

    The JavaScript [Map]s that are only read by key ([rooms], [users],
    [peerConnections]) are [gmap]s; [room.users], whose insertion order is
    sent to the clients, is an association list; mutable objects that are
    reachable from two places (the user records of the relay, the peer
    connections of the client) live in a heap and are named by their index. *)

From Stdlib Require Import String Ascii.
From stdpp Require Import gmap strings list fin_maps.

Open Scope string_scope.
Open Scope list_scope.

(** ** Values on the wire *)

Module User.
Record t := mk {
  id : string;
  username : string;
  roomCode : string;
  isAudioEnabled : bool
}.
End User.

Module Message.
Record t := mk {
  id : string;
  text : string;
  sender : string;
  senderId : string;
  timestamp : nat;
  type : string
}.
End Message.

(** [RTCSessionDescriptionInit]: the relay never looks inside. *)
Inductive SdpType := sdp_offer | sdp_answer | sdp_pranswer | sdp_rollback.

Record SessionDescription := mkSdp {
  sd_type : SdpType;
  sd_sdp : string
}.

(** [RTCIceCandidateInit], kept as its candidate line. *)
Definition IceCandidate := string.

#[global] Instance SdpType_eq_dec : EqDecision SdpType.
Proof. solve_decision. Defined.

(** Everything the relay emits to a client, one constructor per event name
    passed to [emit] in [server/index.js]. *)
Inductive ServerMsg :=
| room_created (roomCode : string) (users : list User.t)
| room_joined (roomCode : string) (users : list User.t) (messages : list Message.t)
| user_joined (user : User.t) (users : list User.t)
| user_left (userId : string) (users : list User.t)
| new_message (message : Message.t)
| error (message : string)
| offer (offer : SessionDescription) (sender : string)
| answer (answer : SessionDescription) (sender : string)
| ice_candidate (candidate : IceCandidate) (sender : string)
| user_media_changed (userId : string) (isAudioEnabled : bool).

(** ** JavaScript helpers *)

(** An insertion-ordered [Map<string, V>]: [set] on a present key replaces
    the value in place, on a new key appends. *)
Fixpoint map_set {V} (k : string) (v : V) (m : list (string * V)) : list (string * V) :=
  match m with
  | [] => [(k, v)]
  | (k', v') :: m' =>
      if decide (k' = k) then (k, v) :: m' else (k', v') :: map_set k v m'
  end.

Definition map_delete {V} (k : string) (m : list (string * V)) : list (string * V) :=
  filter (λ kv : string * V, kv.1 ≠ k) m.

(** Text is the sequence of its code units, one [ascii] each, and the
    model covers text whose code units are all below 128. On such text
    [toUpperCase] is [String.prototype.toUpperCase]: it raises the letters
    [a] to [z] and leaves the rest. JavaScript raises letters beyond 127
    too: a theorem about what a typed name or code becomes assumes that the
    text is ASCII. *)
Definition upper_ascii (c : ascii) : ascii :=
  let n := nat_of_ascii c in
  if (97 <=? n)%nat && (n <=? 122)%nat then ascii_of_nat (n - 32) else c.

Fixpoint toUpperCase (s : string) : string :=
  match s with
  | EmptyString => EmptyString
  | String c s' => String (upper_ascii c) (toUpperCase s')
  end.

(** ** The relay, [server/index.js] *)

Module Relay.

Module Room.
Record t := mk {
  code : string;
  created : nat;
  users : list (string * nat);   (* Map: socket id -> user object *)
  messages : list Message.t
}.
End Room.

(** The two global maps, the user objects they share, and Socket.IO's
    adapter: for each connected socket the rooms it has joined (a socket
    is always in the room named by its own id). *)
Record State := mkState {
  rooms : gmap string Room.t;
  users : gmap string nat;
  heap : list User.t;
  sockets : gmap string (gset string)
}.

Definition init : State :=
  {| rooms := ∅; users := ∅; heap := []; sockets := ∅ |}.

Record Delivery := mkDelivery {
  recipient : string;
  payload : ServerMsg
}.

(** [Math.random().toString(36).substring(2, 8).toUpperCase()], as a
    function of the string [Math.random().toString(36)] returned. *)
Definition generateRoomCode (random36 : string) : string :=
  toUpperCase (substring 2 6 random36).

(** *** Socket.IO primitives *)

(** [socket.join(room)] *)
Definition socket_join (sid room : string) (st : State) : State :=
  {| rooms := rooms st; users := users st; heap := heap st;
     sockets := alter (λ rs, rs ∪ {[room]}) sid (sockets st) |}.

(** [socket.emit(ev, data)]: to the socket itself. *)
Definition socket_emit (sid : string) (m : ServerMsg) : list Delivery :=
  [mkDelivery sid m].

Definition members (room : string) (st : State) : list string :=
  (filter (λ p : string * gset string, room ∈ p.2) (map_to_list (sockets st))).*1.

(** [socket.to(room).emit(ev, data)]: to every socket in [room] except the
    sender. *)
Definition socket_to (sid room : string) (st : State) (m : ServerMsg) : list Delivery :=
  (λ r, mkDelivery r m) <$> filter (λ r, r ≠ sid) (members room st).

(** [io.to(room).emit(ev, data)]: to every socket in [room]. *)
Definition io_to (room : string) (st : State) (m : ServerMsg) : list Delivery :=
  (λ r, mkDelivery r m) <$> members room st.

(** [Array.from(room.users.values())], as serialised when emitted. *)
Definition snapshot (h : list User.t) (room : Room.t) : list User.t :=
  omap (λ kv : string * nat, h !! kv.2) (Room.users room).

(** *** Handlers *)

(** [users.set(socket.id, {...}); room.users.set(socket.id, users.get(socket.id))]
    for the room stored under [roomCode]. *)
Definition enter (sid username roomCode : string) (room : Room.t) (st : State) : State * Room.t :=
  let u := User.mk sid username roomCode true in
  let r := length (heap st) in
  let room' := Room.mk (Room.code room) (Room.created room)
                 (map_set sid r (Room.users room)) (Room.messages room) in
  ({| rooms := <[roomCode := room']> (rooms st);
      users := <[sid := r]> (users st);
      heap := heap st ++ [u];
      sockets := sockets st |}, room').

Definition on_join_room (sid roomCode username : string) (st : State) : State * list Delivery :=
  match rooms st !! roomCode with
  | None => (st, socket_emit sid (error "Room not found"))
  | Some room =>
      let st1 := socket_join sid roomCode st in
      let '(st2, room') := enter sid username roomCode room st1 in
      let u := User.mk sid username roomCode true in
      (st2,
       socket_to sid roomCode st2 (user_joined u (snapshot (heap st2) room'))
       ++ socket_emit sid (room_joined roomCode (snapshot (heap st2) room') (Room.messages room')))
  end.

Definition on_create_room (sid username random36 : string) (now : nat) (st : State)
  : State * list Delivery :=
  let roomCode := generateRoomCode random36 in
  let room := Room.mk roomCode now [] [] in
  let st1 :=
    {| rooms := <[roomCode := room]> (rooms st); users := users st;
       heap := heap st; sockets := sockets st |} in
  let st2 := socket_join sid roomCode st1 in
  let '(st3, room') := enter sid username roomCode room st2 in
  (st3, socket_emit sid (room_created roomCode (snapshot (heap st3) room'))).

Definition on_offer (sid target : string) (o : SessionDescription) (st : State)
  : State * list Delivery :=
  (st, socket_to sid target st (offer o sid)).

Definition on_answer (sid target : string) (a : SessionDescription) (st : State)
  : State * list Delivery :=
  (st, socket_to sid target st (answer a sid)).

Definition on_ice_candidate (sid target : string) (c : IceCandidate) (st : State)
  : State * list Delivery :=
  (st, socket_to sid target st (ice_candidate c sid)).

Definition on_send_message (sid text uuid : string) (now : nat) (st : State)
  : State * list Delivery :=
  match users st !! sid ≫= (heap st !!.) with
  | None => (st, [])
  | Some user =>
      match rooms st !! User.roomCode user with
      | None => (st, [])
      | Some room =>
          let message := Message.mk uuid text (User.username user) sid now "text" in
          let room' := Room.mk (Room.code room) (Room.created room) (Room.users room)
                         (Room.messages room ++ [message]) in
          ({| rooms := <[User.roomCode user := room']> (rooms st); users := users st;
              heap := heap st; sockets := sockets st |},
           io_to (User.roomCode user) st (new_message message))
      end
  end.

Definition on_toggle_audio (sid : string) (st : State) : State * list Delivery :=
  match users st !! sid with
  | None => (st, [])
  | Some r =>
      match heap st !! r with
      | None => (st, [])
      | Some user =>
          let user' := User.mk (User.id user) (User.username user) (User.roomCode user)
                         (negb (User.isAudioEnabled user)) in
          ({| rooms := rooms st; users := users st;
              heap := <[r := user']> (heap st); sockets := sockets st |},
           socket_to sid (User.roomCode user) st
             (user_media_changed sid (User.isAudioEnabled user')))
      end
  end.

(** The ['disconnect'] listener; Socket.IO has already taken the socket
    out of every room when it runs (see [step]). *)
Definition on_disconnect (sid : string) (st : State) : State * list Delivery :=
  match users st !! sid ≫= (heap st !!.) with
  | None => (st, [])
  | Some user =>
      let rc := User.roomCode user in
      match rooms st !! rc with
      | Some room =>
          let room' := Room.mk (Room.code room) (Room.created room)
                         (map_delete sid (Room.users room)) (Room.messages room) in
          let out := socket_to sid rc st (user_left sid (snapshot (heap st) room')) in
          let rooms' :=
            if decide (length (Room.users room') = 0)
            then delete rc (rooms st)
            else <[rc := room']> (rooms st) in
          ({| rooms := rooms'; users := delete sid (users st);
              heap := heap st; sockets := sockets st |}, out)
      | None =>
          ({| rooms := rooms st; users := delete sid (users st);
              heap := heap st; sockets := sockets st |}, [])
      end
  end.

(** *** The event loop *)

Inductive Event :=
| Connection (sid : string)
| JoinRoom (sid roomCode username : string)
| CreateRoom (sid username random36 : string) (now : nat)
| Offer (sid target : string) (o : SessionDescription)
| Answer (sid target : string) (a : SessionDescription)
| IceCandidateEv (sid target : string) (c : IceCandidate)
| SendMessage (sid text uuid : string) (now : nat)
| ToggleAudio (sid : string)
| Disconnect (sid : string).

Definition origin (ev : Event) : string :=
  match ev with
  | Connection sid | JoinRoom sid _ _ | CreateRoom sid _ _ _ | Offer sid _ _
  | Answer sid _ _ | IceCandidateEv sid _ _ | SendMessage sid _ _ _
  | ToggleAudio sid | Disconnect sid => sid
  end.

(** [io.on('connection')]: the new socket sits in the room of its own id. *)
Definition connection (sid : string) (st : State) : State :=
  {| rooms := rooms st; users := users st; heap := heap st;
     sockets := <[sid := {[sid]}]> (sockets st) |}.

Definition leave_all (sid : string) (st : State) : State :=
  {| rooms := rooms st; users := users st; heap := heap st;
     sockets := delete sid (sockets st) |}.

(** One event, run to completion. The listeners of a socket exist from its
    connection to its disconnection; ids are never handed out twice while
    the socket lives. *)
Definition step (ev : Event) (st : State) : State * list Delivery :=
  match ev, sockets st !! origin ev with
  | Connection sid, None => (connection sid st, [])
  | Connection _, Some _ => (st, [])
  | _, None => (st, [])
  | JoinRoom sid rc name, Some _ => on_join_room sid rc name st
  | CreateRoom sid name rnd now, Some _ => on_create_room sid name rnd now st
  | Offer sid target o, Some _ => on_offer sid target o st
  | Answer sid target a, Some _ => on_answer sid target a st
  | IceCandidateEv sid target c, Some _ => on_ice_candidate sid target c st
  | SendMessage sid text uuid now, Some _ => on_send_message sid text uuid now st
  | ToggleAudio sid, Some _ => on_toggle_audio sid st
  | Disconnect sid, Some _ => on_disconnect sid (leave_all sid st)
  end.

Fixpoint run (evs : list Event) (st : State) : State * list Delivery :=
  match evs with
  | [] => (st, [])
  | ev :: evs' =>
      let '(st1, out1) := step ev st in
      let '(st2, out2) := run evs' st1 in
      (st2, out1 ++ out2)
  end.

Definition exec (evs : list Event) : State := (run evs init).1.

End Relay.


(** ** Vocabulary of the relay's properties *)

Module RelaySpec.
Import Relay.

(** No live room is left without a member. *)
Definition no_empty_room (st : State) : Prop :=
  ∀ rc room, rooms st !! rc = Some room → Room.users room ≠ [].



(** The three negotiation messages a client sends through the relay. *)
Inductive Signal :=
| SigOffer (o : SessionDescription)
| SigAnswer (a : SessionDescription)
| SigIce (c : IceCandidate).

Definition signal_event (sid target : string) (sig : Signal) : Event :=
  match sig with
  | SigOffer o => Offer sid target o
  | SigAnswer a => Answer sid target a
  | SigIce c => IceCandidateEv sid target c
  end.

(** The same payload under the same event name, tagged with its origin. *)
Definition forwarded (sig : Signal) (sender : string) : ServerMsg :=
  match sig with
  | SigOffer o => offer o sender
  | SigAnswer a => answer a sender
  | SigIce c => ice_candidate c sender
  end.

(** The message goes to the socket named by [target], once, and to no
    other; the relay keeps nothing of it. *)
Definition forwards_to_exactly_target (st : State) (sid target : string) (sig : Signal) : Prop :=
  step (signal_event sid target sig) st = (st, [mkDelivery target (forwarded sig sid)]).

(** Every connected socket sits in the Socket.IO room of its own id. *)
Definition own_room (st : State) : Prop :=
  ∀ s rs, sockets st !! s = Some rs → s ∈ rs.

End RelaySpec.

(** ** The browser's [RTCPeerConnection] *)

(** The part of the WebRTC API the client calls, with the signalling state
    machine of the W3C recommendation: a call made in a state that does not
    allow it rejects ([None]) and leaves the connection as it was. *)
Module Rtc.

Inductive SignalingState :=
| stable
| have_local_offer
| have_remote_offer
| have_local_pranswer
| have_remote_pranswer
| closed.

#[global] Instance SignalingState_eq_dec : EqDecision SignalingState.
Proof. solve_decision. Defined.

Record t := mk {
  signalingState : SignalingState;
  localDescription : option SessionDescription;
  remoteDescription : option SessionDescription;
  senders : list string;              (* tracks added with addTrack *)
  candidates : list IceCandidate      (* remote candidates added *)
}.

(** [new RTCPeerConnection(...)] *)
Definition new : t := mk stable None None [] [].

Definition close (pc : t) : t :=
  mk closed (localDescription pc) (remoteDescription pc) (senders pc) (candidates pc).

Definition addTrack (track : string) (pc : t) : option t :=
  if decide (signalingState pc = closed) then None
  else Some (mk (signalingState pc) (localDescription pc) (remoteDescription pc)
               (senders pc ++ [track]) (candidates pc)).

Definition createOffer (pc : t) : option SessionDescription :=
  if decide (signalingState pc = closed) then None else Some (mkSdp sdp_offer "v=0").

Definition createAnswer (pc : t) : option SessionDescription :=
  match signalingState pc with
  | have_remote_offer | have_local_pranswer => Some (mkSdp sdp_answer "v=0")
  | _ => None
  end.

Definition local_transition (ty : SdpType) (s : SignalingState) : option SignalingState :=
  match ty, s with
  | sdp_offer, (stable | have_local_offer) => Some have_local_offer
  | sdp_answer, (have_remote_offer | have_local_pranswer) => Some stable
  | sdp_pranswer, (have_remote_offer | have_local_pranswer) => Some have_local_pranswer
  | sdp_rollback, have_local_offer => Some stable
  | _, _ => None
  end.

Definition remote_transition (ty : SdpType) (s : SignalingState) : option SignalingState :=
  match ty, s with
  | sdp_offer, (stable | have_remote_offer | have_local_offer) => Some have_remote_offer
  | sdp_answer, (have_local_offer | have_remote_pranswer) => Some stable
  | sdp_pranswer, (have_local_offer | have_remote_pranswer) => Some have_remote_pranswer
  | sdp_rollback, have_remote_offer => Some stable
  | _, _ => None
  end.

(** The description a successful call leaves behind: the one given, or
    none after a rollback. *)
Definition installed (d : SessionDescription) : option SessionDescription :=
  if decide (sd_type d = sdp_rollback) then None else Some d.

Definition setLocalDescription (d : SessionDescription) (pc : t) : option t :=
  s ← local_transition (sd_type d) (signalingState pc);
  Some (mk s (installed d) (remoteDescription pc) (senders pc) (candidates pc)).

Definition setRemoteDescription (d : SessionDescription) (pc : t) : option t :=
  s ← remote_transition (sd_type d) (signalingState pc);
  Some (mk s (localDescription pc) (installed d) (senders pc) (candidates pc)).

(** Rejected with [InvalidStateError] on a closed connection and while
    there is no remote description. *)
Definition addIceCandidate (c : IceCandidate) (pc : t) : option t :=
  if decide (signalingState pc = closed) then None
  else match remoteDescription pc with
       | None => None
       | Some _ =>
           Some (mk (signalingState pc) (localDescription pc) (remoteDescription pc)
                   (senders pc) (candidates pc ++ [c]))
       end.

End Rtc.

(** ** The client, [client/src/App.tsx] *)

(** The component is a function of its state that React calls again after
    every change. The functions it defines close over the state of the
    render that defined them; a socket listener keeps the closure it was
    registered with. Here a handler runs to its end before the next one
    starts (the [await]s inside one handler are not interleaved with other
    events), and the render that follows an event is done before the next
    event arrives. Audio elements and timers are left out. *)
Module Client.

(** A [MediaStream], as the kinds of its tracks. *)
Definition MediaStream := list string.

(** An [RTCPeerConnection] made by [createPeerConnection(userId)]: the
    callbacks installed on it close over [userId]. *)
Record Conn := mkConn {
  userId : string;
  pc : Rtc.t
}.

(** A [Map<string, RTCPeerConnection>]. State updates never mutate a map,
    they build a new one: [map_id] tells the objects apart, as React's
    dependency comparison does. The values are indices in [conns]. *)
Record PcMap := mkMap {
  map_id : nat;
  entries : gmap string nat
}.

Record AppState := mkApp {
  socket : option string;             (* the Socket, by its id *)
  currentUser : option User.t;
  roomCode : string;
  users : list User.t;
  messages : list Message.t;
  isInCall : bool;
  isAudioEnabled : bool;
  localStream : option MediaStream;
  peerConnections : PcMap
}.

(** What the functions created during one render close over: that
    render's [state] and [connectionAttempts]. *)
Record Render := mkRender {
  state : AppState;
  connectionAttempts : gset string
}.

(** What the client sends to the relay. *)
Inductive ClientMsg :=
| emit_create_room (username : string)
| emit_join_room (roomCode username : string)
| emit_offer (target : string) (o : SessionDescription)
| emit_answer (target : string) (a : SessionDescription)
| emit_ice_candidate (target : string) (c : IceCandidate)
| emit_toggle_audio.

(** What the component has let out. *)
Record Output := mkOutput {
  emitted : list ClientMsg;
  console : list string;
  alerts : list string;
  uncaught : list string              (* exceptions and rejections nobody handled *)
}.

(** What React and the socket remember between two events. *)
Record Runtime := mkRuntime {
  listeners : list Render;            (* one entry per run of the listener effect *)
  listener_deps : option (option string * nat);
  startCall_memo : option ((bool * nat * option string * option string) * Render);
  call_deps :
    option (bool * nat * option MediaStream * (bool * nat * option string * option string));
  awaiting_media : list Render        (* startCall calls suspended in getUserMedia *)
}.

Record World := mkWorld {
  current : Render;                   (* the state React holds *)
  conns : list Conn;                  (* every connection constructed so far *)
  next_map : nat;                     (* identity of the next Map built *)
  users_sets : nat;                   (* how often [users] was given a new array *)
  output : Output;
  runtime : Runtime
}.

(** *** Computations that may throw *)

Inductive Result (A : Type) :=
| Ok (a : A)
| Thrown (e : string).
Arguments Ok {A} a.
Arguments Thrown {A} e.

Definition M (A : Type) : Type := World → Result A * World.

#[global] Instance M_ret : MRet M := λ A a w, (Ok a, w).

#[global] Instance M_bind : MBind M := λ A B f m w,
  match m w with
  | (Ok a, w') => f a w'
  | (Thrown e, w') => (Thrown e, w')
  end.

(** [try { m } catch (error) { h error }], also [await]ed promises inside. *)
Definition try_catch (m : M unit) (h : string → M unit) : M unit := λ w,
  match m w with
  | (Ok a, w') => (Ok a, w')
  | (Thrown e, w') => h e w'
  end.

Definition modify (f : World → World) : M unit := λ w, (Ok (), f w).

Definition get {A} (f : World → A) : M A := λ w, (Ok (f w), w).

Definition set_output (o : Output) (w : World) : World :=
  mkWorld (current w) (conns w) (next_map w) (users_sets w) o (runtime w).

Definition set_runtime (rt : Runtime) (w : World) : World :=
  mkWorld (current w) (conns w) (next_map w) (users_sets w) (output w) rt.

Definition set_current (r : Render) (w : World) : World :=
  mkWorld r (conns w) (next_map w) (users_sets w) (output w) (runtime w).

Definition set_conns (cs : list Conn) (w : World) : World :=
  mkWorld (current w) cs (next_map w) (users_sets w) (output w) (runtime w).

Definition report (e : string) (w : World) : World :=
  let o := output w in
  set_output (mkOutput (emitted o) (console o) (alerts o) (uncaught o ++ [e])) w.

(** A promise that is started and not awaited: its rejection is reported
    by the browser and does not reach the caller. *)
Definition detached (m : M unit) : M unit := λ w,
  match m w with
  | (Ok a, w') => (Ok a, w')
  | (Thrown e, w') => (Ok (), report e w')
  end.

Fixpoint forEach {A} (l : list A) (f : A → M unit) : M unit :=
  match l with
  | [] => mret ()
  | x :: l' => f x;; forEach l' f
  end.

(** *** Effects *)

Definition log (line : string) : M unit := modify (λ w,
  let o := output w in
  set_output (mkOutput (emitted o) (console o ++ [line]) (alerts o) (uncaught o)) w).

Definition alert (message : string) : M unit := modify (λ w,
  let o := output w in
  set_output (mkOutput (emitted o) (console o) (alerts o ++ [message]) (uncaught o)) w).

(** [setState(prev => f(prev))] *)
Definition setState (f : AppState → AppState) : M unit := modify (λ w,
  set_current (mkRender (f (state (current w))) (connectionAttempts (current w))) w).

(** [setConnectionAttempts(prev => f(new Set(prev)))] *)
Definition setConnectionAttempts (f : gset string → gset string) : M unit := modify (λ w,
  set_current (mkRender (state (current w)) (f (connectionAttempts (current w)))) w).

Definition with_peerConnections (m : PcMap) (s : AppState) : AppState :=
  mkApp (socket s) (currentUser s) (roomCode s) (users s) (messages s)
    (isInCall s) (isAudioEnabled s) (localStream s) m.

(** [setState(prev => { const m = new Map(prev.peerConnections); f(m);
    return {...prev, peerConnections: m} })] *)
Definition setPeerConnections (f : gmap string nat → gmap string nat) : M unit := modify (λ w,
  let s := state (current w) in
  let m := mkMap (next_map w) (f (entries (peerConnections s))) in
  mkWorld (mkRender (with_peerConnections m s) (connectionAttempts (current w)))
    (conns w) (S (next_map w)) (users_sets w) (output w) (runtime w)).

(** A state update that stores an array that came with a message. *)
Definition setState_users (f : AppState → AppState) : M unit := modify (λ w,
  mkWorld (mkRender (f (state (current w))) (connectionAttempts (current w)))
    (conns w) (next_map w) (S (users_sets w)) (output w) (runtime w)).

(** [if (state.socket) state.socket.emit(...)] *)
Definition emit (r : Render) (m : ClientMsg) : M unit :=
  match socket (state r) with
  | Some _ => modify (λ w,
      let o := output w in
      set_output (mkOutput (emitted o ++ [m]) (console o) (alerts o) (uncaught o)) w)
  | None => mret ()
  end.

(** [peerConnection.signalingState] *)
Definition signalingState (h : nat) : M Rtc.SignalingState := λ w,
  match conns w !! h with
  | Some c => (Ok (Rtc.signalingState (pc c)), w)
  | None => (Thrown "TypeError", w)
  end.

(** A call that changes the connection or rejects. *)
Definition rtc (h : nat) (op : Rtc.t → option Rtc.t) : M unit := λ w,
  match conns w !! h with
  | Some c =>
      match op (pc c) with
      | Some pc' => (Ok (), set_conns (<[h := mkConn (userId c) pc']> (conns w)) w)
      | None => (Thrown "InvalidStateError", w)
      end
  | None => (Thrown "TypeError", w)
  end.

(** A call that produces a description or rejects. *)
Definition rtc_create (h : nat) (op : Rtc.t → option SessionDescription)
  : M SessionDescription := λ w,
  match conns w !! h with
  | Some c =>
      match op (pc c) with
      | Some d => (Ok d, w)
      | None => (Thrown "InvalidStateError", w)
      end
  | None => (Thrown "TypeError", w)
  end.

(** *** WebRTC functions *)

(** [createPeerConnection(userId)]: the new connection is not yet in any
    map; the caller stores it. *)
Definition createPeerConnection (uid : string) : M nat :=
  log "Creating peer connection for user:";;
  h ← get (λ w, length (conns w));
  modify (λ w, set_conns (conns w ++ [mkConn uid Rtc.new]) w);;
  mret h.

(** [state.peerConnections.get(userId)] of the render the caller closes over. *)
Definition lookup_pc (r : Render) (uid : string) : option nat :=
  entries (peerConnections (state r)) !! uid.

Definition cleanupPeerConnection (r : Render) (uid : string) : M unit :=
  match lookup_pc r uid with
  | Some h =>
      rtc h (λ pc, Some (Rtc.close pc));;
      setPeerConnections (delete uid)
  | None => mret ()
  end.

Definition handleOffer (r : Render) (o : SessionDescription) (senderId : string) : M unit :=
  log "Handling offer from:";;
  found ←
    match lookup_pc r senderId with
    | Some h =>
        s ← signalingState h;
        if decide (s = Rtc.closed)
        then log "Removing closed connection for";;
             cleanupPeerConnection r senderId;;
             mret None
        else mret (Some h)
    | None => mret None
    end;
  h ←
    match found with
    | Some h => mret h
    | None =>
        h ← createPeerConnection senderId;
        setPeerConnections (<[senderId := h]>);;
        mret h
    end;
  try_catch
    (s ← signalingState h;
     if decide (s = Rtc.have_local_offer ∨ s = Rtc.have_remote_offer)
     then log "Already processing offer/answer for"
     else
       rtc h (Rtc.setRemoteDescription o);;
       a ← rtc_create h Rtc.createAnswer;
       rtc h (Rtc.setLocalDescription a);;
       emit r (emit_answer senderId a))
    (λ _, log "Error handling offer:").

Definition handleAnswer (r : Render) (a : SessionDescription) (senderId : string) : M unit :=
  log "Handling answer from:";;
  match lookup_pc r senderId with
  | Some h =>
      try_catch
        (s ← signalingState h;
         if decide (s ≠ Rtc.have_local_offer)
         then log "Not in correct state to handle answer for"
         else
           rtc h (Rtc.setRemoteDescription a);;
           log "Answer set successfully for:")
        (λ _, log "Error handling answer:")
  | None => log "No peer connection found for:"
  end.

Definition handleIceCandidate (r : Render) (c : IceCandidate) (senderId : string) : M unit :=
  match lookup_pc r senderId with
  | Some h =>
      s ← signalingState h;
      if decide (s ≠ Rtc.closed)
      then
        try_catch
          (rtc h (Rtc.addIceCandidate c);;
           log "ICE candidate added successfully for")
          (λ _, log "Error adding ICE candidate for")
      else log "Cannot add ICE candidate - connection closed or not found for"
  | None => log "Cannot add ICE candidate - connection closed or not found for"
  end.

(** [data.user.id !== state.currentUser?.id] *)
Definition is_other (r : Render) (uid : string) : bool :=
  match currentUser (state r) with
  | Some me => bool_decide (uid ≠ User.id me)
  | None => true
  end.

(** [peerConnection.createOffer().then(offer => { setLocalDescription(offer);
    emit('offer', ...) }).catch(on_error)]: the local description is set
    without being awaited. *)
Definition send_offer (r : Render) (h : nat) (target : string) (on_error : M unit) : M unit :=
  try_catch
    (o ← rtc_create h Rtc.createOffer;
     detached (rtc h (Rtc.setLocalDescription o));;
     emit r (emit_offer target o))
    (λ _, on_error).

(** The part of [startCall] after [await getUserMedia] has given [stream]. *)
Definition startCall_granted (r : Render) (stream : MediaStream) : M unit :=
  try_catch
    (log "Microphone access granted!";;
     setState (λ prev,
       mkApp (socket prev) (currentUser prev) (roomCode prev) (users prev) (messages prev)
         (isInCall prev) (isAudioEnabled prev) (Some stream) (peerConnections prev));;
     forEach (users (state r)) (λ user,
       if is_other r (User.id user) then
         match lookup_pc r (User.id user) with
         | None =>
             log "Creating peer connection for user:";;
             h ← createPeerConnection (User.id user);
             forEach stream (λ track, rtc h (Rtc.addTrack track));;
             setPeerConnections (<[User.id user := h]>);;
             send_offer r h (User.id user) (log "Error creating offer:")
         | Some _ => log "Peer connection already exists for user:"
         end
       else mret ()))
    (λ _, log "Error accessing media devices:";;
          alert "Microphone access denied. Please allow microphone access and refresh the page.").

(** [getUserMedia] rejected. *)
Definition startCall_denied : M unit :=
  log "Error accessing media devices:";;
  alert "Microphone access denied. Please allow microphone access and refresh the page.".

(** *** Socket listeners *)

Definition on_room_created (roomCode' : string) (users' : list User.t) : M unit :=
  log "Room created successfully:";;
  setState_users (λ prev,
    mkApp (socket prev) (currentUser prev) roomCode' users' (messages prev)
      true (isAudioEnabled prev) (localStream prev) (peerConnections prev)).

Definition on_room_joined (roomCode' : string) (users' : list User.t)
    (messages' : list Message.t) : M unit :=
  log "Successfully joined room:";;
  setState_users (λ prev,
    mkApp (socket prev) (currentUser prev) roomCode' users' messages'
      true (isAudioEnabled prev) (localStream prev) (peerConnections prev)).

Definition set_users (users' : list User.t) : M unit :=
  setState_users (λ prev,
    mkApp (socket prev) (currentUser prev) (roomCode prev) users' (messages prev)
      (isInCall prev) (isAudioEnabled prev) (localStream prev) (peerConnections prev)).

Definition on_user_joined (r : Render) (user : User.t) (users' : list User.t) : M unit :=
  log "User joined:";;
  set_users users';;
  let uid := User.id user in
  match localStream (state r) with
  | Some stream =>
      if is_other r uid
         && bool_decide (lookup_pc r uid = None)
         && bool_decide (uid ∉ connectionAttempts r)
      then
        log "Creating connection for new user:";;
        setConnectionAttempts (λ prev, prev ∪ {[uid]});;
        h ← createPeerConnection uid;
        forEach stream (λ track, rtc h (Rtc.addTrack track));;
        setPeerConnections (<[uid := h]>);;
        send_offer r h uid
          (log "Error creating offer for new user:";;
           setConnectionAttempts (λ prev, prev ∖ {[uid]}))
      else if bool_decide (is_Some (lookup_pc r uid))
      then log "Connection already exists for new user:"
      else if bool_decide (uid ∈ connectionAttempts r)
      then log "Connection attempt already in progress for:"
      else mret ()
  | None =>
      if bool_decide (is_Some (lookup_pc r uid))
      then log "Connection already exists for new user:"
      else if bool_decide (uid ∈ connectionAttempts r)
      then log "Connection attempt already in progress for:"
      else mret ()
  end.

Definition on_user_left (r : Render) (uid : string) (users' : list User.t) : M unit :=
  log "User left:";;
  cleanupPeerConnection r uid;;
  set_users users'.

Definition on_new_message (message : Message.t) : M unit :=
  setState (λ prev,
    mkApp (socket prev) (currentUser prev) (roomCode prev) (users prev)
      (messages prev ++ [message])
      (isInCall prev) (isAudioEnabled prev) (localStream prev) (peerConnections prev)).

Definition on_error (message : string) : M unit :=
  log "Socket error:";;
  alert message.

(** The listener that one run of the listener effect registered for the
    event of [m]; [None] when that effect registers none for it. The three
    negotiation listeners are [async]: what they throw rejects a promise
    that nobody handles. *)
Definition listener (r : Render) (m : ServerMsg) : option (M unit) :=
  match m with
  | room_created rc us => Some (on_room_created rc us)
  | room_joined rc us ms => Some (on_room_joined rc us ms)
  | user_joined u us => Some (on_user_joined r u us)
  | user_left uid us => Some (on_user_left r uid us)
  | new_message msg => Some (on_new_message msg)
  | error msg => Some (on_error msg)
  | offer o sender => Some (detached (handleOffer r o sender))
  | answer a sender => Some (detached (handleAnswer r a sender))
  | ice_candidate c sender => Some (detached (handleIceCandidate r c sender))
  | user_media_changed _ _ => None
  end.

(** [socket.onAny(...)], registered by every run of the effect as well. *)
Definition any_listener : M unit := log "Socket event received:".

(** *** What the user does *)

Definition is_space (c : ascii) : bool :=
  let n := nat_of_ascii c in
  (n =? 32)%nat || ((9 <=? n)%nat && (n <=? 13)%nat).

Fixpoint trim_start (s : string) : string :=
  match s with
  | EmptyString => EmptyString
  | String c s' => if is_space c then trim_start s' else s
  end.

Fixpoint trim_end (s : string) : string :=
  match s with
  | EmptyString => EmptyString
  | String c s' =>
      let t := trim_end s' in
      if is_space c && String.eqb t "" then "" else String c t
  end.

(** [s.trim()], for the white space of ASCII. JavaScript strips U+00A0,
    U+FEFF and the Unicode space separators as well; text below 128 holds
    none of them, and a theorem about what a typed name or code becomes
    assumes that the text is ASCII. *)
Definition trim (s : string) : string := trim_end (trim_start s).

Definition with_currentUser (u : User.t) (s : AppState) : AppState :=
  mkApp (socket s) (Some u) (roomCode s) (users s) (messages s)
    (isInCall s) (isAudioEnabled s) (localStream s) (peerConnections s).

(** The buttons call the functions of the latest render. The five-second
    timers that [createRoom] and [joinRoom] start are left out. *)
Definition createRoom (username : string) : M unit :=
  r ← get current;
  match socket (state r) with
  | Some sid =>
      if bool_decide (trim username ≠ "")
      then
        emit r (emit_create_room (trim username));;
        setState (with_currentUser (User.mk sid (trim username) "" true))
      else alert "Please enter a username."
  | None =>
      alert "Not connected to server. Please refresh the page and try again.";;
      if bool_decide (trim username ≠ "") then mret ()
      else alert "Please enter a username."
  end.

Definition joinRoom (username joinCode : string) : M unit :=
  r ← get current;
  match socket (state r) with
  | Some sid =>
      if bool_decide (trim username ≠ "") && bool_decide (trim joinCode ≠ "")
      then
        emit r (emit_join_room (toUpperCase (trim joinCode)) (trim username));;
        setState (with_currentUser
                    (User.mk sid (trim username) (toUpperCase (trim joinCode)) true))
      else log "Missing requirements"
  | None => log "Missing requirements"
  end.

(** The track's own [enabled] flag is not kept. *)
Definition toggleAudio : M unit :=
  r ← get current;
  match localStream (state r) with
  | Some stream =>
      if bool_decide ("audio" ∈ stream)
      then
        setState (λ prev,
          mkApp (socket prev) (currentUser prev) (roomCode prev) (users prev) (messages prev)
            (isInCall prev) (negb (isAudioEnabled prev)) (localStream prev)
            (peerConnections prev));;
        emit r emit_toggle_audio
      else log "No audio track found!"
  | None => log "No local stream found!"
  end.

Definition leaveCall : M unit :=
  r ← get current;
  forEach (map_to_list (entries (peerConnections (state r))))
    (λ p, rtc p.2 (λ pc, Some (Rtc.close pc)));;
  modify (λ w,
    let prev := state (current w) in
    mkWorld
      (mkRender
         (mkApp (socket prev) (currentUser prev) "" [] [] false (isAudioEnabled prev) None
            (mkMap (next_map w) ∅))
         (connectionAttempts (current w)))
      (conns w) (S (next_map w)) (S (users_sets w)) (output w) (runtime w)).

(** *** React and the socket *)

(** The dependencies of the effect that registers the socket listeners,
    [state.socket, handleOffer, handleAnswer, handleIceCandidate]: the
    three callbacks are rebuilt exactly when [state.socket] or
    [state.peerConnections] is another object. *)
Definition listener_effect_deps (r : Render) : option string * nat :=
  (socket (state r), map_id (peerConnections (state r))).

(** The effect returns no cleanup and never calls [socket.off]: what its
    earlier runs registered stays registered. *)
Definition listener_effect (w : World) : World :=
  let r := current w in
  let rt := runtime w in
  if decide (listener_deps rt = Some (listener_effect_deps r)) then w
  else
    let ls :=
      match socket (state r) with
      | Some _ => listeners rt ++ [r]
      | None => listeners rt
      end in
    set_runtime
      (mkRuntime ls (Some (listener_effect_deps r)) (startCall_memo rt) (call_deps rt)
         (awaiting_media rt)) w.

(** The dependencies of [startCall]: [state.isAudioEnabled, state.users,
    state.currentUser?.id, createPeerConnection, state.socket]. *)
Definition startCall_deps (w : World) : bool * nat * option string * option string :=
  let s := state (current w) in
  (isAudioEnabled s, users_sets w, User.id <$> currentUser s, socket s).

(** The effect that starts the call, with dependencies [state.isInCall,
    state.users.length, state.localStream, startCall]. [startCall] runs up
    to [await getUserMedia] and closes over the render it was built in. *)
Definition call_effect (w : World) : World :=
  let r := current w in
  let s := state r in
  let rt := runtime w in
  let d := startCall_deps w in
  let closure :=
    match startCall_memo rt with
    | Some (d', r') => if decide (d' = d) then r' else r
    | None => r
    end in
  let deps := (isInCall s, length (users s), localStream s, d) in
  let waiting :=
    if decide (call_deps rt = Some deps) then awaiting_media rt
    else if isInCall s && (1 <? length (users s))%nat && bool_decide (localStream s = None)
         then awaiting_media rt ++ [closure]
         else awaiting_media rt in
  set_runtime
    (mkRuntime (listeners rt) (listener_deps rt) (Some (d, closure)) (Some deps) waiting) w.

(** A render and its effects, in the order they are declared. *)
Definition commit (w : World) : World := call_effect (listener_effect w).

(** One event handled to its end, then the render. *)
Definition task (m : M unit) (w : World) : World :=
  commit (match m w with
          | (Ok _, w') => w'
          | (Thrown e, w') => report e w'
          end).

(** An event from the relay: the catch-all listeners first, then the
    listeners of the event, each in the order of registration. *)
Definition dispatch (m : ServerMsg) : M unit :=
  gens ← get (λ w, listeners (runtime w));
  forEach gens (λ _, any_listener);;
  forEach gens (λ r, default (mret ()) (listener r m)).

(** The component as first rendered, and once the first effect has made
    the socket [sid]. *)
Definition initial : World :=
  mkWorld (mkRender (mkApp None None "" [] [] false true None (mkMap 0 ∅)) ∅)
    [] 1 0 (mkOutput [] [] [] []) (mkRuntime [] None None None []).

Definition mount (sid : string) : World :=
  task (setState (λ prev,
          mkApp (Some sid) (currentUser prev) (roomCode prev) (users prev) (messages prev)
            (isInCall prev) (isAudioEnabled prev) (localStream prev) (peerConnections prev)))
    (commit initial).

(** What reaches the component. A click carries what the fields of the
    join form hold. The form is on the screen while [isInCall] is false and
    the call view while it is true; the form disables Create while the name
    is blank and Join while the name or the code is blank, and its code
    field keeps at most six characters, upper-cased as they are typed.
    [step] runs the handler of a button whatever the fields hold: the
    theorems about Create and Join assume what the form requires. *)
Inductive Input :=
| Receive (m : ServerMsg)
| MediaGranted (stream : MediaStream)
| MediaDenied
| ClickCreateRoom (username : string)
| ClickJoinRoom (username joinCode : string)
| ClickToggleAudio
| ClickLeaveCall.

Definition resume (k : Render → M unit) (w : World) : World :=
  let rt := runtime w in
  match awaiting_media rt with
  | [] => w
  | r :: rest =>
      task (k r)
        (set_runtime
           (mkRuntime (listeners rt) (listener_deps rt) (startCall_memo rt) (call_deps rt) rest)
           w)
  end.

Definition step (i : Input) (w : World) : World :=
  match i with
  | Receive m => task (dispatch m) w
  | MediaGranted stream => resume (λ r, startCall_granted r stream) w
  | MediaDenied => resume (λ _, startCall_denied) w
  | ClickCreateRoom username => task (createRoom username) w
  | ClickJoinRoom username joinCode => task (joinRoom username joinCode) w
  | ClickToggleAudio => task toggleAudio w
  | ClickLeaveCall => task leaveCall w
  end.

Definition run (inputs : list Input) (w : World) : World :=
  foldl (λ w i, step i w) w inputs.

End Client.

(** ** Vocabulary of the client's properties *)

Module ClientSpec.
Import Client.

(** The world after some lines were written to the console and nothing
    else happened. *)
Definition logged (lines : list string) (w : World) : World :=
  let o := output w in
  set_output (mkOutput (emitted o) (console o ++ lines) (alerts o) (uncaught o)) w.

(** The computation returns normally from every world that satisfies [I],
    in a world that satisfies [I]. *)
Definition keeps {A} (I : World → Prop) (m : M A) : Prop :=
  ∀ w, I w → ∃ a w', m w = (Ok a, w') ∧ I w'.

(** The computation leaves [I] standing, thrown or not. *)
Definition holds {A} (I : World → Prop) (m : M A) : Prop :=
  ∀ w, I w → I (m w).2.

(** Connection [h] is the object [c]. *)
Definition same_conn (h : nat) (c : Conn) (w : World) : Prop :=
  conns w !! h = Some c.

(** A negotiation is under way on the connection. *)
Definition negotiating (c : Conn) : Prop :=
  Rtc.signalingState (pc c) = Rtc.have_local_offer
  ∨ Rtc.signalingState (pc c) = Rtc.have_remote_offer.

(** Connection [h] is the object [c], and nothing went uncaught beyond [u]. *)
Definition untouched (h : nat) (c : Conn) (u : list string) (w : World) : Prop :=
  conns w !! h = Some c ∧ uncaught (output w) = u.

Definition is_live (uid : string) (c : Conn) : bool :=
  bool_decide (userId c = uid ∧ Rtc.signalingState (pc c) ≠ Rtc.closed).

(** The connections made for [uid] that are not closed, in the map or not. *)
Definition live (uid : string) (w : World) : list nat :=
  (filter (λ p : nat * Conn, is_live uid p.2) (imap pair (conns w))).*1.

Definition at_most_one_live (w : World) : Prop :=
  ∀ uid, (length (live uid w) ≤ 1)%nat.

(** The worlds the component can be in: mounted, then any inputs. *)
Definition reachable (w : World) : Prop :=
  ∃ sid inputs, w = run inputs (mount sid).

(** Every connection a render's map names has been constructed among the
    first [n]. *)
Definition valid (n : nat) (r : Render) : Prop :=
  ∀ uid h, lookup_pc r uid = Some h → (h < n)%nat.

(** All the renders the world still refers to are valid: the current one
    and those that listeners, suspended calls and the memoised [startCall]
    close over. *)
Definition wf (w : World) : Prop :=
  let n := length (conns w) in
  valid n (current w)
  ∧ Forall (valid n) (listeners (runtime w))
  ∧ Forall (valid n) (awaiting_media (runtime w))
  ∧ match startCall_memo (runtime w) with
    | Some (_, r) => valid n r
    | None => True
    end.

(** What a handler may do to the world as far as [wf] is concerned:
    construct connections, and keep the current map valid. *)
Definition ext (w w' : World) : Prop :=
  (length (conns w) ≤ length (conns w'))%nat
  ∧ runtime w' = runtime w
  ∧ (valid (length (conns w)) (current w) → valid (length (conns w')) (current w')).

(** The computation extends every world in which the handles [hs] are
    those of constructed connections. *)
Definition sound {A} (hs : list nat) (m : M A) : Prop :=
  ∀ w, Forall (λ h, h < length (conns w))%nat hs → ext w (m w).2.

(** The wording of the specification for a candidate that comes before the
    remote description: it is kept, and the connection has it once the
    description is set. [later] is what the client receives next. *)
Definition candidate_survives (c : IceCandidate) (senderId : string)
    (later : list Input) (w : World) : Prop :=
  ∃ h cn, conns (run (Receive (ice_candidate c senderId) :: later) w) !! h = Some cn
          ∧ userId cn = senderId ∧ c ∈ Rtc.candidates (pc cn).

(** The events of the relay for which the listener effect registers a
    listener. *)
Definition handled (m : ServerMsg) : Prop :=
  match m with
  | user_media_changed _ _ => False
  | _ => True
  end.

(** A room of two: Bob ("b") has joined Alice ("a"), the microphone was
    granted, and his offer to her is out. *)
Definition alice : User.t := User.mk "a" "Alice" "I" true.
Definition bob : User.t := User.mk "b" "Bob" "I" true.
Definition carol : User.t := User.mk "c" "Carol" "I" true.

Definition bob_calls_alice : World :=
  run [ClickJoinRoom "Bob" "i"; Receive (room_joined "I" [alice; bob] []);
       MediaGranted ["audio"]]
    (mount "b").

End ClientSpec.

(** ** More vocabulary for the relay *)

Module RelayMoreSpec.
Import Relay.

(** The ids a room lists, in the order of [room.users]. *)
Definition member_ids (room : Room.t) : list string := (Room.users room).*1.

(** Object [r] is a user record made for socket [sid]. *)
Definition record_of (st : State) (sid : string) (r : nat) : Prop :=
  ∃ u, heap st !! r = Some u ∧ User.id u = sid.

(** Every room lists a socket at most once, and what it holds for a socket
    is a record made for that socket. *)
Definition members_ok (st : State) : Prop :=
  ∀ rc room, rooms st !! rc = Some room →
    NoDup (member_ids room) ∧ ∀ k r, (k, r) ∈ Room.users room → record_of st k r.

(** Every entry of [users] belongs to a connected socket, holds a record
    made for it, and that socket is in the Socket.IO room the record names. *)
Definition users_ok (st : State) : Prop :=
  ∀ sid r, users st !! sid = Some r →
    ∃ u rs, heap st !! r = Some u ∧ User.id u = sid
            ∧ sockets st !! sid = Some rs ∧ User.roomCode u ∈ rs.

Definition coherent (st : State) : Prop := members_ok st ∧ users_ok st.

(** The member list a message of the relay carries. *)
Definition member_list (m : ServerMsg) : option (list User.t) :=
  match m with
  | room_created _ us | room_joined _ us _ | user_joined _ us | user_left _ us => Some us
  | _ => None
  end.

(** The record [users] holds for a socket. *)
Definition user_of (st : State) (sid : string) : option User.t :=
  users st !! sid ≫= (heap st !!.).

(** A digit or a lower-case letter, as [toString(36)] writes them. *)
Definition base36 (c : ascii) : bool :=
  let n := nat_of_ascii c in
  ((48 <=? n)%nat && (n <=? 57)%nat) || ((97 <=? n)%nat && (n <=? 122)%nat).

Fixpoint all_chars (p : ascii → bool) (s : string) : bool :=
  match s with
  | EmptyString => true
  | String c s' => p c && all_chars p s'
  end.

(** A digit or an upper-case letter. *)
Definition upper36 (c : ascii) : bool :=
  let n := nat_of_ascii c in
  ((48 <=? n)%nat && (n <=? 57)%nat) || ((65 <=? n)%nat && (n <=? 90)%nat).

End RelayMoreSpec.

(** ** More of the client *)

Module ClientMore.
Import Client.

(** [peerConnection.onicecandidate], installed by [createPeerConnection]:
    it uses [state.socket] and [userId] only, and [createPeerConnection] is
    rebuilt whenever [state.socket] is another object. *)
Definition onicecandidate (r : Render) (uid : string) (candidate : option IceCandidate)
  : M unit :=
  match candidate, socket (state r) with
  | Some c, Some _ =>
      log "Sending ICE candidate to:";;
      emit r (emit_ice_candidate uid c)
  | _, _ => mret ()
  end.

End ClientMore.

(** ** More vocabulary for the client *)

Module ClientMoreSpec.
Import Client ClientSpec.

(** The description [createOffer] and [createAnswer] give. *)
Definition the_offer : SessionDescription := mkSdp sdp_offer "v=0".
Definition the_answer : SessionDescription := mkSdp sdp_answer "v=0".

(** A connection made for [uid] with the tracks of [stream], its offer set
    as local description. *)
Definition offering (uid : string) (stream : MediaStream) : Conn :=
  mkConn uid (Rtc.mk Rtc.have_local_offer (Some the_offer) None stream []).

(** A connection made for [uid] that has answered the offer [o]: no track
    was added to it. *)
Definition answering (uid : string) (o : SessionDescription) : Conn :=
  mkConn uid (Rtc.mk Rtc.stable (Some the_answer) (Some o) [] []).

(** The members [startCall] makes a connection for, as the render it closes
    over sees them: everyone but the local user who has no entry in the map. *)
Definition call_targets (r : Render) : list string :=
  User.id <$>
    filter (λ u, is_other r (User.id u) && bool_decide (lookup_pc r (User.id u) = None))
      (users (state r)).

(** What is sent through the socket of render [r], if it has one. *)
Definition sent (r : Render) (ms : list ClientMsg) : list ClientMsg :=
  match socket (state r) with
  | Some _ => ms
  | None => []
  end.

Definition close_conn (c : Conn) : Conn := mkConn (userId c) (Rtc.close (pc c)).

Definition close_at (h : nat) (cs : list Conn) : list Conn :=
  match cs !! h with
  | Some c => <[h := close_conn c]> cs
  | None => cs
  end.

(** [close()] on each of the connections [hs]. *)
Definition close_all (hs : list nat) (cs : list Conn) : list Conn :=
  foldl (λ cs h, close_at h cs) cs hs.

(** Connection [h] was made for [uid] and is not closed. *)
Definition open_for (uid : string) (h : nat) (w : World) : Prop :=
  ∃ c, conns w !! h = Some c ∧ userId c = uid ∧ Rtc.signalingState (pc c) ≠ Rtc.closed.

(** The render the first run of the listener effect closes over: the
    socket is there, nothing else is. *)
Definition first_render (sid : string) : Render :=
  mkRender (mkApp (Some sid) None "" [] [] false true None (mkMap 0 ∅)) ∅.

Definition is_closed (w : World) (h : nat) : Prop :=
  ∃ c, conns w !! h = Some c ∧ Rtc.signalingState (pc c) = Rtc.closed.

(** The state [leaveCall] leaves behind: out of the room, with the socket,
    the user and the audio flag it had. *)
Definition left_call (before after : AppState) : Prop :=
  roomCode after = "" ∧ users after = [] ∧ messages after = [] ∧ isInCall after = false
  ∧ localStream after = None ∧ entries (peerConnections after) = ∅
  ∧ socket after = socket before ∧ currentUser after = currentUser before
  ∧ isAudioEnabled after = isAudioEnabled before.

(** The relay event that a message of the client becomes; [create-room]
    takes a draw of [Math.random()] and a date on the way. *)
Definition to_relay (sid : string) (random36 : string) (now : nat) (m : ClientMsg)
  : Relay.Event :=
  match m with
  | emit_create_room name => Relay.CreateRoom sid name random36 now
  | emit_join_room rc name => Relay.JoinRoom sid rc name
  | emit_offer target o => Relay.Offer sid target o
  | emit_answer target a => Relay.Answer sid target a
  | emit_ice_candidate target c => Relay.IceCandidateEv sid target c
  | emit_toggle_audio => Relay.ToggleAudio sid
  end.

(** Text whose code units are all below 128: on it [trim] and
    [toUpperCase] are those of JavaScript. *)
Definition ascii_text (s : string) : Prop :=
  RelayMoreSpec.all_chars (λ c, (nat_of_ascii c <? 128)%nat) s = true.

(** No white space at all. *)
Definition solid (s : string) : Prop :=
  RelayMoreSpec.all_chars (λ c, negb (is_space c)) s = true.

(** The suspended [startCall]s an input finds: media results take the
    oldest one off. *)
Definition pending_before (i : Input) (w : World) : list Render :=
  match i with
  | MediaGranted _ | MediaDenied => tail (awaiting_media (runtime w))
  | _ => awaiting_media (runtime w)
  end.

End ClientMoreSpec.
(** ** Properties of the relay *)

Module RelayFacts.
Import Relay RelaySpec.

(** *** Joining *)

Lemma join_missing_room (st : State) (sid roomCode username : string) :
  is_Some (sockets st !! sid) →
  rooms st !! roomCode = None →
  step (JoinRoom sid roomCode username) st
  = (st, [mkDelivery sid (error "Room not found")]).
Proof.
  intros [rs Hs] Hroom. cbn. rewrite Hs. unfold on_join_room. by rewrite Hroom.
Qed.

(** C4. A [join-room] whose code names no live room answers the sender
    with [error {message: "Room not found"}] and changes nothing: the two
    maps, the user objects and the Socket.IO rooms are as before. *)
Theorem join_unknown_room_is_error_only (st : State) (sid roomCode username : string) :
  is_Some (sockets st !! sid) →
  rooms st !! roomCode = None →
  step (JoinRoom sid roomCode username) st
  = (st, [mkDelivery sid (error "Room not found")]).
Proof. apply join_missing_room. Qed.

Lemma join_unknown_room_is_error_only_witness :
  let st := exec [Connection "carol"] in
  step (JoinRoom "carol" "ZZ99ZZ" "Carol") st
  = (st, [mkDelivery "carol" (error "Room not found")]).
Proof.
  apply (join_unknown_room_is_error_only (exec [Connection "carol"]) "carol" "ZZ99ZZ" "Carol").
  - vm_compute. eauto.
  - reflexivity.
Defined.


(** *** Leaving *)

Lemma map_set_nonempty {V} (k : string) (v : V) m : map_set k v m ≠ [].
Proof. destruct m as [|[k' v'] m]; cbn; [done|]. by case_decide. Qed.

Lemma step_no_empty_room ev st : no_empty_room st → no_empty_room (step ev st).1.
Proof.
  intros Hinv. unfold step.
  destruct ev, (sockets st !! _) eqn:Hs; cbn; try done.
  - unfold on_join_room. destruct (rooms st !! roomCode) as [room|] eqn:Hr; cbn; [|done].
    intros rc' room'. cbn. rewrite lookup_insert.
    case_decide; [intros [= <-]; apply map_set_nonempty|]. apply Hinv.
  - intros rc' room'. cbn. rewrite !lookup_insert.
    case_decide; [by intros [= <-]|]. apply Hinv.
  - unfold on_send_message.
    destruct (users st !! sid ≫= _) as [user|]; [|done].
    destruct (rooms st !! User.roomCode user) as [room|] eqn:Hr; [|done].
    intros rc' room'. cbn. rewrite lookup_insert.
    case_decide; [intros [= <-]; cbn; by eapply Hinv|]. apply Hinv.
  - unfold on_toggle_audio.
    destruct (users st !! sid) as [r|]; [|done]. by destruct (heap st !! r).
  - unfold on_disconnect. cbn.
    destruct (users st !! sid ≫= _) as [user|]; [|done].
    destruct (rooms st !! User.roomCode user) as [room|] eqn:Hr; [|done].
    intros rc' room'. cbn. case_decide as Hlen.
    + rewrite lookup_delete. case_decide; [done|]. apply Hinv.
    + rewrite lookup_insert. case_decide; [|apply Hinv].
      intros [= <-]. cbn. intros Hnil. by rewrite Hnil in Hlen.
Qed.

Lemma run_no_empty_room evs st : no_empty_room st → no_empty_room (run evs st).1.
Proof.
  revert st. induction evs as [|ev evs IH]; intros st Hinv; cbn; [done|].
  pose proof (step_no_empty_room ev st Hinv) as H1.
  destruct (step ev st) as [st1 out1]. specialize (IH st1 H1).
  by destruct (run evs st1).
Qed.









(** The last member leaves: the room goes with it and its code is unknown
    to the next join. *)
Example last_member_leaves :
  let st := exec [Connection "a"; CreateRoom "a" "Alice" "0.4fzyo8" 0; Connection "c"] in
  let st' := (step (Disconnect "a") st).1 in
  (Room.users <$> rooms st !! "4FZYO8") = Some [("a", 0)]
  ∧ rooms st' !! "4FZYO8" = None
  ∧ (step (JoinRoom "c" "4FZYO8" "Carol") st').2 = [mkDelivery "c" (error "Room not found")].
Proof. by vm_compute. Qed.

(** One of two members leaves: the room stays, the other member is told. *)
Example one_of_two_leaves :
  let st := exec [Connection "a"; CreateRoom "a" "Alice" "0.4fzyo8" 0;
                  Connection "b"; JoinRoom "b" "4FZYO8" "Bob"] in
  let alice := User.mk "a" "Alice" "4FZYO8" true in
  (Room.users <$> rooms (step (Disconnect "b") st).1 !! "4FZYO8") = Some [("a", 0)]
  ∧ (step (Disconnect "b") st).2 = [mkDelivery "a" (user_left "b" [alice])].
Proof. by vm_compute. Qed.

(** *** Creating *)

(** C2, as the code runs. [generateRoomCode] is a function of one
    [Math.random()] draw and [create-room] stores the new room under its
    result without looking at [rooms]: when the draw repeats a live code,
    the room that was there is replaced, and its member is left in [users]
    pointing at a room that no longer lists it. *)
Theorem create_room_overwrites_live_room :
  let before := exec [Connection "a"; CreateRoom "a" "Alice" "0.i" 0; Connection "b"] in
  let after := (step (CreateRoom "b" "Bob" "0.i" 1) before).1 in
  generateRoomCode "0.i" = "I"
  ∧ snapshot (heap before) <$> rooms before !! "I" = Some [User.mk "a" "Alice" "I" true]
  ∧ snapshot (heap after) <$> rooms after !! "I" = Some [User.mk "b" "Bob" "I" true]
  ∧ (users after !! "a" ≫= (heap after !!.)) = Some (User.mk "a" "Alice" "I" true).
Proof. by vm_compute. Qed.

(** *** Forwarding *)

Lemma members_spec room st r :
  r ∈ members room st ↔ ∃ rs, sockets st !! r = Some rs ∧ room ∈ rs.
Proof.
  unfold members. rewrite list_elem_of_fmap. split.
  - intros [[s rs] [-> [Hin Hs]%list_elem_of_filter]]. cbn in *.
    exists rs. by apply elem_of_map_to_list in Hs.
  - intros [rs [Hs Hin]]. exists (r, rs). split; [done|].
    apply list_elem_of_filter. split; [done|]. by apply elem_of_map_to_list.
Qed.

Lemma members_NoDup room st : NoDup (members room st).
Proof.
  unfold members. eapply sublist_NoDup; [apply (NoDup_fst_map_to_list (sockets st))|].
  apply fmap_sublist, sublist_filter.
Qed.

Lemma NoDup_only {A} (l : list A) (a : A) :
  NoDup l → (∀ x, x ∈ l ↔ x = a) → l = [a].
Proof.
  intros Hnd Hl. destruct l as [|x l].
  - assert (a ∈ @nil A) as Hin by by apply Hl. by apply elem_of_nil in Hin.
  - assert (x = a) as -> by (apply Hl; left).
    destruct l as [|y l]; [done|].
    assert (y = a) as -> by (apply Hl; right; left).
    apply NoDup_cons in Hnd as [Hnotin _]. exfalso. apply Hnotin. left.
Qed.

Lemma signal_step st sid target sig :
  is_Some (sockets st !! sid) →
  step (signal_event sid target sig) st
  = (st, (λ r, mkDelivery r (forwarded sig sid))
           <$> filter (λ r, r ≠ sid) (members target st)).
Proof. intros [rs Hs]. destruct sig; cbn; by rewrite Hs. Qed.

Lemma step_own_room ev st : own_room st → own_room (step ev st).1.
Proof.
  intros Hinv. unfold step.
  assert (∀ sid rc, own_room (socket_join sid rc st)) as Hjoin.
  { intros sid rc s rs. cbn. rewrite lookup_alter. case_decide as Heq.
    - subst s. destruct (sockets st !! sid) as [rs0|] eqn:Hs0; cbn; [|done].
      intros [= <-]. apply elem_of_union_l. by eapply Hinv.
    - apply Hinv. }
  destruct ev, (sockets st !! _) eqn:Hs; cbn; try done.
  - intros s rs. cbn. rewrite lookup_insert. case_decide; [|apply Hinv].
    intros [= <-]. subst. by apply elem_of_singleton.
  - unfold on_join_room. destruct (rooms st !! roomCode); cbn; [|done]. apply Hjoin.
  - apply (Hjoin sid (generateRoomCode random36)).
  - unfold on_send_message.
    destruct (users st !! sid ≫= _) as [user|]; [|done].
    by destruct (rooms st !! User.roomCode user).
  - unfold on_toggle_audio.
    destruct (users st !! sid) as [r|]; [|done]. by destruct (heap st !! r).
  - assert (own_room (leave_all sid st)) as Hleft.
    { intros s rs. cbn. rewrite lookup_delete. case_decide; [done|]. apply Hinv. }
    unfold on_disconnect.
    destruct (users (leave_all sid st) !! sid ≫= _) as [user|]; [|done].
    by destruct (rooms (leave_all sid st) !! User.roomCode user).
Qed.

Lemma run_own_room evs st : own_room st → own_room (run evs st).1.
Proof.
  revert st. induction evs as [|ev evs IH]; intros st Hinv; cbn; [done|].
  pose proof (step_own_room ev st Hinv) as H1.
  destruct (step ev st) as [st1 out1]. specialize (IH st1 H1).
  by destruct (run evs st1).
Qed.

(** C9, as the code runs. [socket.to(data.target)] addresses a Socket.IO
    room: the relay keeps its state and hands the unchanged payload, tagged
    with the sender's id, once to each connected socket other than the
    sender that is in the room named [target]. That is the target alone
    when [target] is another connected socket and nobody else has joined a
    room of that name. *)
Theorem negotiation_is_forwarded_to_target_room
    (evs : list Event) (sid target : string) (sig : Signal) :
  let st := exec evs in
  is_Some (sockets st !! sid) →
  ∃ rcpts : list string,
    step (signal_event sid target sig) st
    = (st, (λ r, mkDelivery r (forwarded sig sid)) <$> rcpts)
    ∧ NoDup rcpts
    ∧ (∀ r, r ∈ rcpts ↔ r ≠ sid ∧ ∃ rs, sockets st !! r = Some rs ∧ target ∈ rs)
    ∧ (target ≠ sid → is_Some (sockets st !! target) →
       (∀ s rs, sockets st !! s = Some rs → target ∈ rs → s = target) →
       forwards_to_exactly_target st sid target sig).
Proof.
  intros st Hsid.
  assert (own_room st) as Hown by (apply run_own_room; by intros ??).
  assert (∀ r, r ∈ filter (λ r, r ≠ sid) (members target st)
             ↔ r ≠ sid ∧ ∃ rs, sockets st !! r = Some rs ∧ target ∈ rs) as Hmem.
  { intros r. by rewrite list_elem_of_filter, members_spec. }
  assert (NoDup (filter (λ r, r ≠ sid) (members target st))) as Hnd.
  { apply NoDup_filter, members_NoDup. }
  exists (filter (λ r, r ≠ sid) (members target st)).
  split_and!; [by apply signal_step|done|done|].
  intros Hne [rs Ht] Halone. unfold forwards_to_exactly_target.
  rewrite signal_step by done. f_equal.
  rewrite (NoDup_only _ target Hnd); [done|].
  intros r. rewrite Hmem. split.
  - intros [_ (rs' & Hr & Hin)]. by eapply Halone.
  - intros ->. split; [done|]. exists rs. split; [done|]. by eapply Hown.
Qed.

Lemma negotiation_is_forwarded_to_target_room_witness :
  let st := exec [Connection "a"; CreateRoom "a" "Alice" "0.i" 0;
                  Connection "b"; JoinRoom "b" "I" "Bob"] in
  ∃ rcpts : list string,
    step (Offer "a" "b" (mkSdp sdp_offer "v=0")) st
    = (st, (λ r, mkDelivery r (offer (mkSdp sdp_offer "v=0") "a")) <$> rcpts)
    ∧ NoDup rcpts
    ∧ (∀ r, r ∈ rcpts ↔ r ≠ "a" ∧ ∃ rs, sockets st !! r = Some rs ∧ "b" ∈ rs)
    ∧ ("b" ≠ "a" → is_Some (sockets st !! "b") →
       (∀ s rs, sockets st !! s = Some rs → "b" ∈ rs → s = "b") →
       forwards_to_exactly_target st "a" "b" (SigOffer (mkSdp sdp_offer "v=0"))).
Proof.
  apply (negotiation_is_forwarded_to_target_room
           [Connection "a"; CreateRoom "a" "Alice" "0.i" 0;
            Connection "b"; JoinRoom "b" "I" "Bob"]
           "a" "b" (SigOffer (mkSdp sdp_offer "v=0"))).
  vm_compute. eauto.
Defined.

(** The one-recipient case does occur. *)
Example offer_to_peer_reaches_peer_only :
  let st := exec [Connection "a"; CreateRoom "a" "Alice" "0.i" 0;
                  Connection "b"; JoinRoom "b" "I" "Bob";
                  Connection "c"; JoinRoom "c" "I" "Carol"] in
  forwards_to_exactly_target st "a" "b" (SigOffer (mkSdp sdp_offer "v=0")).
Proof. by vm_compute. Qed.

(** C9, as stated, fails. Alice, Bob and Carol share room "I": an offer
    that Alice addresses to "I" is handed to Bob and to Carol, and one
    addressed to an id that is not connected is handed to nobody. *)
Lemma negotiation_not_always_one_recipient :
  let st := exec [Connection "a"; CreateRoom "a" "Alice" "0.i" 0;
                  Connection "b"; JoinRoom "b" "I" "Bob";
                  Connection "c"; JoinRoom "c" "I" "Carol"] in
  let o := mkSdp sdp_offer "v=0" in
  (step (Offer "a" "I" o) st).2 ≡ₚ [mkDelivery "b" (offer o "a"); mkDelivery "c" (offer o "a")]
  ∧ ¬ forwards_to_exactly_target st "a" "I" (SigOffer o)
  ∧ (step (Offer "a" "gone" o) st).2 = []
  ∧ ¬ forwards_to_exactly_target st "a" "gone" (SigOffer o).
Proof.
  split_and!.
  - vm_compute. apply Permutation_swap.
  - intros H. apply (f_equal snd) in H. vm_compute in H. discriminate H.
  - by vm_compute.
  - intros H. apply (f_equal snd) in H. vm_compute in H. discriminate H.
Qed.

End RelayFacts.

(** ** Properties of the client *)

Module ClientFacts.
Import Client ClientSpec.

(** *** Reasoning about computations *)

Lemma keeps_ret {A} (I : World → Prop) (a : A) : keeps I (mret a).
Proof. intros w HI. by exists a, w. Qed.

Lemma keeps_bind {A B} (I : World → Prop) (m : M A) (f : A → M B) :
  keeps I m → (∀ a, keeps I (f a)) → keeps I (m ≫= f).
Proof.
  intros Hm Hf w HI. destruct (Hm w HI) as (a & w1 & Hrun & HI1).
  unfold mbind, M_bind. rewrite Hrun. by apply Hf.
Qed.

Lemma keeps_modify (I : World → Prop) (f : World → World) :
  (∀ w, I w → I (f w)) → keeps I (modify f).
Proof. intros Hf w HI. exists (), (f w). split; [done|]. by apply Hf. Qed.

Lemma keeps_get {A} (I : World → Prop) (f : World → A) : keeps I (get f).
Proof. intros w HI. by exists (f w), w. Qed.

Lemma keeps_forEach {A} (I : World → Prop) (l : list A) (f : A → M unit) :
  (∀ x, x ∈ l → keeps I (f x)) → keeps I (forEach l f).
Proof.
  induction l as [|x l IH]; intros Hf; cbn.
  - apply keeps_ret.
  - apply keeps_bind; [apply Hf; left|]. intros _. apply IH.
    intros y Hy. apply Hf. by right.
Qed.

Lemma keeps_detached (I : World → Prop) (m : M unit) : keeps I m → keeps I (detached m).
Proof.
  intros Hm w HI. destruct (Hm w HI) as (a & w1 & Hrun & HI1).
  exists a, w1. unfold detached. by rewrite Hrun.
Qed.

Lemma keeps_log h c u line : keeps (untouched h c u) (log line).
Proof. apply keeps_modify. by intros w [??]. Qed.

Lemma logged_nil w : logged [] w = w.
Proof.
  unfold logged, set_output. destruct w as [? ? ? ? [] ?]; cbn. by rewrite app_nil_r.
Qed.

Lemma logged_app l1 l2 w : logged l2 (logged l1 w) = logged (l1 ++ l2) w.
Proof. unfold logged, set_output. cbn. by rewrite app_assoc. Qed.

Lemma log_logged line w : log line w = (Ok (), logged [line] w).
Proof. done. Qed.

Lemma forEach_log {A} (l : list A) line w :
  forEach l (λ _, log line) w = (Ok (), logged (replicate (length l) line) w).
Proof.
  revert w. induction l as [|x l IH]; intros w; cbn.
  - by rewrite logged_nil.
  - unfold mbind, M_bind. rewrite log_logged, IH. by rewrite logged_app.
Qed.

Lemma forEach_skip {A} (l : list A) w : forEach l (λ _, mret ()) w = (Ok (), w).
Proof. induction l as [|x l IH]; cbn; [done|]. unfold mbind, M_bind. cbn. apply IH. Qed.

(** *** Answers *)

Ltac run_M :=
  unfold mbind, mret, M_bind, M_ret, try_catch, detached, signalingState, rtc, rtc_create,
    get, modify in *.

Lemma handleAnswer_run (r : Render) (a : SessionDescription) (senderId : string) (w : World) :
  ∃ lines,
    handleAnswer r a senderId w
    = (Ok (),
       logged lines
         match lookup_pc r senderId with
         | Some h =>
             match conns w !! h with
             | Some c =>
                 if decide (Rtc.signalingState (pc c) = Rtc.have_local_offer)
                 then match Rtc.setRemoteDescription a (pc c) with
                      | Some pc' => set_conns (<[h := mkConn (userId c) pc']> (conns w)) w
                      | None => w
                      end
                 else w
             | None => w
             end
         | None => w
         end).
Proof.
  unfold handleAnswer. run_M. rewrite log_logged.
  destruct (lookup_pc r senderId) as [h|]; [|eexists; by rewrite log_logged, logged_app].
  cbn. destruct (conns w !! h) as [c|] eqn:Hc; cbn;
    [|eexists; by rewrite log_logged, logged_app].
  destruct (decide (Rtc.signalingState (pc c) = Rtc.have_local_offer)) as [Hs|Hs].
  - rewrite decide_False by (by intros ?). cbn. rewrite Hc.
    destruct (Rtc.setRemoteDescription a (pc c)) as [pc'|]; cbn.
    + exists ["Handling answer from:"; "Answer set successfully for:"].
      unfold logged, set_output, set_conns. cbn. by rewrite <- app_assoc.
    + eexists. by rewrite log_logged, logged_app.
  - rewrite decide_True by done. eexists. by rewrite log_logged, logged_app.
Qed.

Lemma untouched_logged h c u lines w : untouched h c u w → untouched h c u (logged lines w).
Proof. by intros [??]. Qed.

Lemma commit_frame w :
  current (commit w) = current w ∧ conns (commit w) = conns w
  ∧ output (commit w) = output w ∧ next_map (commit w) = next_map w
  ∧ users_sets (commit w) = users_sets w.
Proof.
  unfold commit, call_effect, listener_effect.
  by destruct (decide (listener_deps (runtime w) = _)).
Qed.

Lemma task_keeps (I : World → Prop) (m : M unit) w :
  (∀ w, I w → I (commit w)) → keeps I m → I w → I (task m w).
Proof.
  intros Hcommit Hm HI. destruct (Hm w HI) as (a & w1 & Hrun & HI1).
  unfold task. rewrite Hrun. by apply Hcommit.
Qed.

Lemma untouched_commit h c u w : untouched h c u w → untouched h c u (commit w).
Proof.
  unfold untouched. destruct (commit_frame w) as (_ & -> & -> & _). done.
Qed.

Lemma keeps_dispatch (I : World → Prop) (m : ServerMsg) :
  keeps I any_listener →
  (∀ r l, listener r m = Some l → keeps I l) →
  keeps I (dispatch m).
Proof.
  intros Hany Hl. unfold dispatch. apply keeps_bind; [apply keeps_get|].
  intros gens. apply keeps_bind; [by apply keeps_forEach|].
  intros _. apply keeps_forEach. intros r _.
  destruct (listener r m) as [l|] eqn:Hr; cbn; [by eapply Hl|apply keeps_ret].
Qed.

Lemma handleAnswer_keeps h c u r a senderId :
  Rtc.signalingState (pc c) ≠ Rtc.have_local_offer →
  keeps (untouched h c u) (handleAnswer r a senderId).
Proof.
  intros Hstate w [Hc Hu]. destruct (handleAnswer_run r a senderId w) as [lines Hrun].
  eexists _, _. split; [exact Hrun|]. apply untouched_logged.
  destruct (lookup_pc r senderId) as [h'|]; [|done].
  destruct (conns w !! h') as [c'|] eqn:Hc'; [|done].
  case_decide as Hs; [|done].
  destruct (Rtc.setRemoteDescription a (pc c')) as [pc'|]; [|done].
  split; [|done]. cbn. rewrite list_lookup_insert_ne; [done|].
  intros ->. rewrite Hc in Hc'. by injection Hc' as ->.
Qed.

(** C5. [handleAnswer] never throws. It hands the answer to
    [setRemoteDescription] when the connection it finds for the sender is in
    [have-local-offer], and in every other case, no connection found
    included, it only writes to the console. Whatever listeners are
    registered, a connection that is not in [have-local-offer] when an answer
    arrives is the same object afterwards, and nothing goes uncaught. *)
Theorem answer_applied_only_in_have_local_offer
    (r : Render) (a : SessionDescription) (senderId : string) (w : World) :
  (∃ w', handleAnswer r a senderId w = (Ok (), w')
     ∧ (∀ h c, lookup_pc r senderId = Some h → conns w !! h = Some c →
          Rtc.signalingState (pc c) = Rtc.have_local_offer →
          ∃ lines,
            w' = logged lines
                   match Rtc.setRemoteDescription a (pc c) with
                   | Some pc' => set_conns (<[h := mkConn (userId c) pc']> (conns w)) w
                   | None => w
                   end)
     ∧ ((∀ h c, lookup_pc r senderId = Some h → conns w !! h = Some c →
           Rtc.signalingState (pc c) ≠ Rtc.have_local_offer) →
        ∃ lines, w' = logged lines w))
  ∧ (∀ h c, conns w !! h = Some c →
       Rtc.signalingState (pc c) ≠ Rtc.have_local_offer →
       untouched h c (uncaught (output w)) (step (Receive (answer a senderId)) w)).
Proof.
  split.
  - destruct (handleAnswer_run r a senderId w) as [lines Hrun].
    eexists. split; [exact Hrun|]. split.
    + intros h c Hh Hc Hs. exists lines. rewrite Hh, Hc. by rewrite decide_True.
    + intros Hnot. exists lines.
      destruct (lookup_pc r senderId) as [h|]; [|done].
      destruct (conns w !! h) as [c|] eqn:Hc; [|done].
      rewrite decide_False; [done|]. by eapply Hnot.
  - intros h c Hc Hs. cbn.
    apply task_keeps; [apply untouched_commit| |done].
    apply keeps_dispatch; [apply keeps_log|].
    intros r' l [= <-]. by apply keeps_detached, handleAnswer_keeps.
Qed.

(** *** Offers *)

Lemma holds_ret {A} (I : World → Prop) (a : A) : holds I (mret a).
Proof. by intros w HI. Qed.

Lemma holds_bind {A B} (I : World → Prop) (m : M A) (f : A → M B) :
  holds I m → (∀ a, holds I (f a)) → holds I (m ≫= f).
Proof.
  intros Hm Hf w HI. specialize (Hm w HI). unfold mbind, M_bind.
  destruct (m w) as [[a|e] w1]; [by apply Hf|done].
Qed.

Lemma holds_modify (I : World → Prop) (f : World → World) :
  (∀ w, I w → I (f w)) → holds I (modify f).
Proof. intros Hf w HI. by apply Hf. Qed.

Lemma holds_try_catch (I : World → Prop) (m : M unit) (h : string → M unit) :
  holds I m → (∀ e, holds I (h e)) → holds I (try_catch m h).
Proof.
  intros Hm Hh w HI. specialize (Hm w HI). unfold try_catch.
  destruct (m w) as [[a|e] w1]; [done|by apply Hh].
Qed.

Lemma holds_detached (I : World → Prop) (m : M unit) :
  (∀ e w, I w → I (report e w)) → holds I m → holds I (detached m).
Proof.
  intros Hrep Hm w HI. specialize (Hm w HI). unfold detached.
  destruct (m w) as [[a|e] w1]; [done|by apply Hrep].
Qed.

Lemma holds_forEach {A} (I : World → Prop) (l : list A) (f : A → M unit) :
  (∀ x, holds I (f x)) → holds I (forEach l f).
Proof.
  intros Hf. induction l as [|x l IH]; cbn; [apply holds_ret|].
  apply holds_bind; [apply Hf|]. by intros _.
Qed.

Lemma holds_log h c line : holds (same_conn h c) (log line).
Proof. by apply holds_modify. Qed.

Lemma holds_emit h c r m : holds (same_conn h c) (emit r m).
Proof. unfold emit. destruct (socket (state r)); [by apply holds_modify|apply holds_ret]. Qed.

Lemma holds_setPeerConnections h c f : holds (same_conn h c) (setPeerConnections f).
Proof. by apply holds_modify. Qed.

Lemma holds_rtc_other h c h' op : h' ≠ h → holds (same_conn h c) (rtc h' op).
Proof.
  intros Hne w HI. unfold rtc. destruct (conns w !! h') as [c'|]; [|done].
  destruct (op (pc c')); [|done]. unfold same_conn. cbn.
  by rewrite list_lookup_insert_ne.
Qed.

Lemma holds_rtc_create h c h' op : holds (same_conn h c) (rtc_create h' op).
Proof.
  intros w HI. unfold rtc_create. destruct (conns w !! h') as [c'|]; [|done].
  by destruct (op (pc c')).
Qed.

Lemma holds_createPeerConnection h c uid : holds (same_conn h c) (createPeerConnection uid).
Proof.
  intros w HI. unfold same_conn in *. cbn. by apply lookup_app_l_Some.
Qed.

(** The guarded part of [handleOffer], on whatever connection it is given. *)
Lemma holds_answer_offer h c r o senderId h' :
  negotiating c →
  holds (same_conn h c)
    (try_catch
       (s ← signalingState h';
        if decide (s = Rtc.have_local_offer ∨ s = Rtc.have_remote_offer)
        then log "Already processing offer/answer for"
        else
          rtc h' (Rtc.setRemoteDescription o);;
          a ← rtc_create h' Rtc.createAnswer;
          rtc h' (Rtc.setLocalDescription a);;
          emit r (emit_answer senderId a))
       (λ _, log "Error handling offer:")).
Proof.
  intros Hneg. destruct (decide (h' = h)) as [->|Hne].
  - intros w HI. unfold try_catch, mbind, M_bind, signalingState.
    rewrite HI. by rewrite decide_True.
  - apply holds_try_catch; [|intros _; apply holds_log].
    apply holds_bind.
    { intros w HI. unfold signalingState. by destruct (conns w !! h'). }
    intros s. case_decide; [apply holds_log|].
    apply holds_bind; [by apply holds_rtc_other|]. intros _.
    apply holds_bind; [apply holds_rtc_create|]. intros a.
    apply holds_bind; [by apply holds_rtc_other|]. intros _. apply holds_emit.
Qed.

Lemma holds_cleanup h c r uid :
  (∀ h0, lookup_pc r uid = Some h0 → h0 ≠ h) →
  holds (same_conn h c) (cleanupPeerConnection r uid).
Proof.
  intros Hne. unfold cleanupPeerConnection.
  destruct (lookup_pc r uid) as [h0|]; [|apply holds_ret].
  apply holds_bind; [by apply holds_rtc_other, Hne|].
  intros _. apply holds_setPeerConnections.
Qed.

(** The first part of [handleOffer]: the connection found for the sender,
    unless it is closed. *)
Lemma holds_find_open h c r senderId :
  negotiating c →
  holds (same_conn h c)
    match lookup_pc r senderId with
    | Some h0 =>
        s ← signalingState h0;
        if decide (s = Rtc.closed)
        then log "Removing closed connection for";;
             cleanupPeerConnection r senderId;;
             mret None
        else mret (Some h0)
    | None => mret None
    end.
Proof.
  intros Hneg. destruct (lookup_pc r senderId) as [h0|] eqn:Hr; [|apply holds_ret].
  intros w HI. unfold mbind at 1, M_bind at 1, signalingState.
  destruct (conns w !! h0) as [c0|] eqn:Hc0; [|done].
  case_decide as Hs; [|done].
  assert (h0 ≠ h) as Hne.
  { intros ->. unfold same_conn in HI. rewrite HI in Hc0. injection Hc0 as ->.
    destruct Hneg as [Hn|Hn]; by rewrite Hn in Hs. }
  clear Hc0. revert w HI.
  change (holds (same_conn h c)
            (log "Removing closed connection for";;
             cleanupPeerConnection r senderId;; mret (@None nat))).
  apply holds_bind; [apply holds_log|]. intros _.
  apply holds_bind; [|intros _; apply holds_ret].
  apply holds_cleanup. intros h1. rewrite Hr. by intros [= <-].
Qed.

Lemma holds_handleOffer h c r o senderId :
  negotiating c → holds (same_conn h c) (handleOffer r o senderId).
Proof.
  intros Hneg. unfold handleOffer.
  apply holds_bind; [apply holds_log|]. intros _.
  apply holds_bind; [by apply holds_find_open|]. intros found.
  apply holds_bind; [|intros h'; by apply holds_answer_offer].
  destruct found as [h'|]; [apply holds_ret|].
  apply holds_bind; [apply holds_createPeerConnection|]. intros h'.
  apply holds_bind; [apply holds_setPeerConnections|]. intros _. apply holds_ret.
Qed.

Lemma holds_dispatch (I : World → Prop) (m : ServerMsg) :
  holds I any_listener →
  (∀ r l, listener r m = Some l → holds I l) →
  holds I (dispatch m).
Proof.
  intros Hany Hl. unfold dispatch. apply holds_bind; [by intros w HI|].
  intros gens. apply holds_bind; [by apply holds_forEach|].
  intros _. apply holds_forEach. intros r.
  destruct (listener r m) as [l|] eqn:Hr; cbn; [by eapply Hl|apply holds_ret].
Qed.

Lemma task_holds (I : World → Prop) (m : M unit) w :
  (∀ w, I w → I (commit w)) → (∀ e w, I w → I (report e w)) →
  holds I m → I w → I (task m w).
Proof.
  intros Hcommit Hrep Hm HI. specialize (Hm w HI). unfold task.
  destruct (m w) as [[a|e] w1]; apply Hcommit; [done|by apply Hrep].
Qed.

Lemma same_conn_commit h c w : same_conn h c w → same_conn h c (commit w).
Proof. unfold same_conn. by destruct (commit_frame w) as (_ & -> & _). Qed.

Lemma handleOffer_negotiating (r : Render) (o : SessionDescription) (senderId : string)
    (w : World) (h : nat) (c : Conn) :
  lookup_pc r senderId = Some h → conns w !! h = Some c → negotiating c →
  handleOffer r o senderId w
  = (Ok (), logged ["Handling offer from:"; "Already processing offer/answer for"] w).
Proof.
  intros Hr Hc Hneg. unfold handleOffer. rewrite Hr. run_M. cbn. rewrite Hc. cbn.
  assert (Rtc.signalingState (pc c) ≠ Rtc.closed) as Hopen.
  { destruct Hneg as [Hn|Hn]; by rewrite Hn. }
  rewrite decide_False by done. cbn. rewrite Hc. cbn.
  rewrite decide_True by done. cbn.
  unfold logged, set_output. cbn. by rewrite <- app_assoc.
Qed.

(** C6, as the code runs. Bob has sent his offer to Alice and his
    connection for her is in [have-local-offer] when her offer arrives. The
    guard of [handleOffer] holds where it runs with that connection: the
    listener of the latest render returns after two lines on the console
    and the connection is the same object afterwards. But the listener that
    the first run of the effect registered is still on the socket and sees
    an empty map: it makes a second connection for Alice, sets her offer on
    it, answers, and the answer is sent; the map entry for Alice moves to
    the new connection. The offer is not ignored. *)
Theorem colliding_offer_is_answered_on_a_new_connection :
  let o := mkSdp sdp_offer "v=0" in
  let a := mkSdp sdp_answer "v=0" in
  let offering := mkConn "a" (Rtc.mk Rtc.have_local_offer (Some o) None ["audio"] []) in
  let w := bob_calls_alice in
  let w' := step (Receive (offer o "a")) w in
  conns w = [offering]
  ∧ lookup_pc (current w) "a" = Some 0
  ∧ (λ r, lookup_pc r "a") <$> listeners (runtime w) = [None; Some 0]
  ∧ handleOffer (current w) o "a" w
    = (Ok (), logged ["Handling offer from:"; "Already processing offer/answer for"] w)
  ∧ conns w' = [offering; mkConn "a" (Rtc.mk Rtc.stable (Some a) (Some o) [] [])]
  ∧ emitted (output w') = emitted (output w) ++ [emit_answer "a" a]
  ∧ lookup_pc (current w') "a" = Some 1
  ∧ uncaught (output w') = [].
Proof.
  cbn zeta. split_and!; by vm_compute.
Qed.

(** Bob's offer is out; Alice's answer is applied once, and a second copy
    of it finds the connection [stable] and is passed over. *)
Example answer_then_stale_answer :
  let a := mkSdp sdp_answer "v=0" in
  let w1 := step (Receive (answer a "a")) bob_calls_alice in
  let w2 := step (Receive (answer a "a")) w1 in
  (Rtc.signalingState ∘ pc <$> conns bob_calls_alice) = [Rtc.have_local_offer]
  ∧ (Rtc.signalingState ∘ pc <$> conns w1) = [Rtc.stable]
  ∧ conns w2 = conns w1 ∧ uncaught (output w2) = [].
Proof. by vm_compute. Qed.

(** *** The maps name constructed connections *)

Lemma ext_refl w : ext w w.
Proof. done. Qed.

Lemma ext_trans w1 w2 w3 : ext w1 w2 → ext w2 w3 → ext w1 w3.
Proof.
  intros (Hl1 & Hr1 & Hv1) (Hl2 & Hr2 & Hv2). split_and!; [lia|congruence|auto].
Qed.

Lemma valid_mono n n' r : (n ≤ n')%nat → valid n r → valid n' r.
Proof. intros Hn Hr uid h Hh. specialize (Hr uid h Hh). lia. Qed.

Lemma ext_frame w w' :
  (length (conns w) ≤ length (conns w'))%nat →
  runtime w' = runtime w →
  peerConnections (state (current w')) = peerConnections (state (current w)) →
  ext w w'.
Proof.
  intros Hl Hr Hm. split_and!; [done..|].
  intros Hv uid h Hh. unfold lookup_pc in Hh. rewrite Hm in Hh.
  specialize (Hv uid h Hh). lia.
Qed.

Lemma sound_ret {A} hs (a : A) : sound hs (mret a).
Proof. by intros w _. Qed.

Lemma sound_bind {A B} hs (m : M A) (f : A → M B) :
  sound hs m → (∀ a, sound hs (f a)) → sound hs (m ≫= f).
Proof.
  intros Hm Hf w Hhs. specialize (Hm w Hhs). unfold mbind, M_bind.
  destruct (m w) as [[a|e] w1]; [|done]. cbn in Hm.
  eapply ext_trans; [done|]. apply Hf.
  eapply Forall_impl; [done|]. destruct Hm as [? _]. cbn. lia.
Qed.

Lemma sound_weaken {A} h hs (m : M A) : sound hs m → sound (h :: hs) m.
Proof. intros Hm w Hhs. apply Hm. by inversion Hhs. Qed.

Lemma sound_modify hs (f : World → World) : (∀ w, ext w (f w)) → sound hs (modify f).
Proof. intros Hf w _. apply Hf. Qed.

Lemma sound_try_catch hs (m : M unit) (h : string → M unit) :
  sound hs m → (∀ e, sound hs (h e)) → sound hs (try_catch m h).
Proof.
  intros Hm Hh w Hhs. specialize (Hm w Hhs). unfold try_catch.
  destruct (m w) as [[a|e] w1]; [done|]. cbn in Hm.
  eapply ext_trans; [done|]. apply Hh.
  eapply Forall_impl; [done|]. destruct Hm as [? _]. cbn. lia.
Qed.

Lemma ext_report e w : ext w (report e w).
Proof. by apply ext_frame. Qed.

Lemma sound_detached hs (m : M unit) : sound hs m → sound hs (detached m).
Proof.
  intros Hm w Hhs. specialize (Hm w Hhs). unfold detached.
  destruct (m w) as [[a|e] w1]; [done|]. cbn in *.
  eapply ext_trans; [done|apply ext_report].
Qed.

Lemma sound_forEach {A} hs (l : list A) (f : A → M unit) :
  (∀ x, sound hs (f x)) → sound hs (forEach l f).
Proof.
  intros Hf. induction l as [|x l IH]; cbn; [apply sound_ret|].
  apply sound_bind; [apply Hf|]. by intros _.
Qed.

Lemma sound_log hs line : sound hs (log line).
Proof. apply sound_modify. intros w. by apply ext_frame. Qed.

Lemma sound_alert hs message : sound hs (alert message).
Proof. apply sound_modify. intros w. by apply ext_frame. Qed.

Lemma sound_emit hs r m : sound hs (emit r m).
Proof.
  unfold emit. destruct (socket (state r)); [|apply sound_ret].
  apply sound_modify. intros w. by apply ext_frame.
Qed.

Lemma sound_get {A} hs (f : World → A) : sound hs (get f).
Proof. by intros w _. Qed.

Lemma sound_setState hs (f : AppState → AppState) :
  (∀ s, peerConnections (f s) = peerConnections s) → sound hs (setState f).
Proof. intros Hf. apply sound_modify. intros w. apply ext_frame; [done..|apply Hf]. Qed.

Lemma sound_setState_users hs (f : AppState → AppState) :
  (∀ s, peerConnections (f s) = peerConnections s) → sound hs (setState_users f).
Proof. intros Hf. apply sound_modify. intros w. apply ext_frame; [done..|apply Hf]. Qed.

Lemma sound_setConnectionAttempts hs f : sound hs (setConnectionAttempts f).
Proof. apply sound_modify. intros w. by apply ext_frame. Qed.

Lemma sound_signalingState hs h : sound hs (signalingState h).
Proof. intros w _. unfold signalingState. by destruct (conns w !! h). Qed.

Lemma sound_rtc hs h op : sound hs (rtc h op).
Proof.
  intros w _. unfold rtc. destruct (conns w !! h) as [c|]; [|done].
  destruct (op (pc c)); [|done]. apply ext_frame; [|done..].
  cbn. by rewrite length_insert.
Qed.

Lemma sound_rtc_create hs h op : sound hs (rtc_create h op).
Proof.
  intros w _. unfold rtc_create. destruct (conns w !! h) as [c|]; [|done].
  by destruct (op (pc c)).
Qed.

Lemma sound_delete hs uid : sound hs (setPeerConnections (delete uid)).
Proof.
  intros w _. split_and!; [done..|]. intros Hv uid' h. unfold lookup_pc. cbn.
  rewrite lookup_delete. case_decide; [done|]. apply Hv.
Qed.

Lemma sound_insert hs uid h : h ∈ hs → sound hs (setPeerConnections (<[uid := h]>)).
Proof.
  intros Hin w Hhs. split_and!; [done..|]. intros Hv uid' h'. unfold lookup_pc. cbn.
  rewrite lookup_insert. case_decide; [|apply Hv].
  intros [= <-]. rewrite Forall_forall in Hhs. by apply Hhs.
Qed.

(** The handle that [createPeerConnection] returns may be stored. *)
Lemma sound_create {B} hs uid (f : nat → M B) :
  (∀ h, sound (h :: hs) (f h)) → sound hs (createPeerConnection uid ≫= f).
Proof.
  intros Hf w Hhs. unfold createPeerConnection, mbind, M_bind, log, get, modify. cbn.
  eapply ext_trans; [|apply Hf].
  - apply ext_frame; [|done..]. cbn. rewrite length_app. lia.
  - cbn. rewrite length_app. cbn. constructor; [lia|].
    eapply Forall_impl; [done|]. cbn. lia.
Qed.

Lemma sound_cleanup hs r uid : sound hs (cleanupPeerConnection r uid).
Proof.
  unfold cleanupPeerConnection. destruct (lookup_pc r uid); [|apply sound_ret].
  apply sound_bind; [apply sound_rtc|]. intros _. apply sound_delete.
Qed.

Lemma sound_send_offer hs r h target on_error :
  sound hs on_error → sound hs (send_offer r h target on_error).
Proof.
  intros Herr. unfold send_offer. apply sound_try_catch; [|by intros _].
  apply sound_bind; [apply sound_rtc_create|]. intros o.
  apply sound_bind; [apply sound_detached, sound_rtc|]. intros _. apply sound_emit.
Qed.

Lemma sound_handleOffer r o senderId : sound [] (handleOffer r o senderId).
Proof.
  unfold handleOffer. apply sound_bind; [apply sound_log|]. intros _.
  apply sound_bind.
  { destruct (lookup_pc r senderId); [|apply sound_ret].
    apply sound_bind; [apply sound_signalingState|]. intros s.
    case_decide; [|apply sound_ret].
    apply sound_bind; [apply sound_log|]. intros _.
    apply sound_bind; [apply sound_cleanup|]. intros _. apply sound_ret. }
  intros found. apply sound_bind.
  { destruct found; [apply sound_ret|]. apply sound_create. intros h.
    apply sound_bind; [apply sound_insert; left|]. intros _. apply sound_ret. }
  intros h. apply sound_try_catch; [|intros _; apply sound_log].
  apply sound_bind; [apply sound_signalingState|]. intros s.
  case_decide; [apply sound_log|].
  apply sound_bind; [apply sound_rtc|]. intros _.
  apply sound_bind; [apply sound_rtc_create|]. intros a.
  apply sound_bind; [apply sound_rtc|]. intros _. apply sound_emit.
Qed.

Lemma sound_handleAnswer r a senderId : sound [] (handleAnswer r a senderId).
Proof.
  unfold handleAnswer. apply sound_bind; [apply sound_log|]. intros _.
  destruct (lookup_pc r senderId); [|apply sound_log].
  apply sound_try_catch; [|intros _; apply sound_log].
  apply sound_bind; [apply sound_signalingState|]. intros s.
  case_decide; [apply sound_log|].
  apply sound_bind; [apply sound_rtc|]. intros _. apply sound_log.
Qed.

Lemma sound_handleIceCandidate r c senderId : sound [] (handleIceCandidate r c senderId).
Proof.
  unfold handleIceCandidate. destruct (lookup_pc r senderId); [|apply sound_log].
  apply sound_bind; [apply sound_signalingState|]. intros s.
  case_decide; [|apply sound_log].
  apply sound_try_catch; [|intros _; apply sound_log].
  apply sound_bind; [apply sound_rtc|]. intros _. apply sound_log.
Qed.

Lemma sound_connect hs r uid (stream : MediaStream) on_error :
  sound hs on_error →
  sound hs
    (h ← createPeerConnection uid;
     forEach stream (λ track, rtc h (Rtc.addTrack track));;
     setPeerConnections (<[uid := h]>);;
     send_offer r h uid on_error).
Proof.
  intros Herr. apply sound_create. intros h.
  apply sound_bind; [apply sound_forEach; intros track; apply sound_rtc|]. intros _.
  apply sound_bind; [apply sound_insert; left|]. intros _.
  by apply sound_send_offer, sound_weaken.
Qed.

Lemma sound_on_user_joined r user users' : sound [] (on_user_joined r user users').
Proof.
  unfold on_user_joined. apply sound_bind; [apply sound_log|]. intros _.
  apply sound_bind; [by apply sound_setState_users|]. intros _.
  assert (sound []
            (if bool_decide (is_Some (lookup_pc r (User.id user)))
             then log "Connection already exists for new user:"
             else if bool_decide (User.id user ∈ connectionAttempts r)
                  then log "Connection attempt already in progress for:"
                  else mret ())) as Helse.
  { repeat case_bool_decide; apply sound_log || apply sound_ret. }
  destruct (localStream (state r)) as [stream|]; [|done].
  destruct (_ && _); [|done].
  apply sound_bind; [apply sound_log|]. intros _.
  apply sound_bind; [apply sound_setConnectionAttempts|]. intros _.
  apply sound_connect.
  apply sound_bind; [apply sound_log|]. intros _. apply sound_setConnectionAttempts.
Qed.

Lemma sound_startCall_granted r stream : sound [] (startCall_granted r stream).
Proof.
  unfold startCall_granted. apply sound_try_catch.
  - apply sound_bind; [apply sound_log|]. intros _.
    apply sound_bind; [by apply sound_setState|]. intros _.
    apply sound_forEach. intros user.
    destruct (is_other r (User.id user)); [|apply sound_ret].
    destruct (lookup_pc r (User.id user)); [apply sound_log|].
    apply sound_bind; [apply sound_log|]. intros _.
    apply sound_connect, sound_log.
  - intros _. apply sound_bind; [apply sound_log|]. intros _. apply sound_alert.
Qed.

Lemma sound_listener r m l : listener r m = Some l → sound [] l.
Proof.
  destruct m; cbn; intros [= <-].
  - apply sound_bind; [apply sound_log|]. intros _. by apply sound_setState_users.
  - apply sound_bind; [apply sound_log|]. intros _. by apply sound_setState_users.
  - apply sound_on_user_joined.
  - apply sound_bind; [apply sound_log|]. intros _.
    apply sound_bind; [apply sound_cleanup|]. intros _. by apply sound_setState_users.
  - by apply sound_setState.
  - apply sound_bind; [apply sound_log|]. intros _. apply sound_alert.
  - apply sound_detached, sound_handleOffer.
  - apply sound_detached, sound_handleAnswer.
  - apply sound_detached, sound_handleIceCandidate.
Qed.

Lemma sound_dispatch m : sound [] (dispatch m).
Proof.
  unfold dispatch. apply sound_bind; [apply sound_get|]. intros gens.
  apply sound_bind; [apply sound_forEach; intros _; apply sound_log|]. intros _.
  apply sound_forEach. intros r.
  destruct (listener r m) as [l|] eqn:Hl; cbn; [by eapply sound_listener|apply sound_ret].
Qed.

Lemma sound_createRoom username : sound [] (createRoom username).
Proof.
  unfold createRoom. apply sound_bind; [apply sound_get|]. intros r.
  destruct (socket (state r)).
  - case_bool_decide; [|apply sound_alert].
    apply sound_bind; [apply sound_emit|]. intros _. by apply sound_setState.
  - apply sound_bind; [apply sound_alert|]. intros _.
    case_bool_decide; [apply sound_ret|apply sound_alert].
Qed.

Lemma sound_joinRoom username joinCode : sound [] (joinRoom username joinCode).
Proof.
  unfold joinRoom. apply sound_bind; [apply sound_get|]. intros r.
  destruct (socket (state r)); [|apply sound_log].
  destruct (_ && _); [|apply sound_log].
  apply sound_bind; [apply sound_emit|]. intros _. by apply sound_setState.
Qed.

Lemma sound_toggleAudio : sound [] toggleAudio.
Proof.
  unfold toggleAudio. apply sound_bind; [apply sound_get|]. intros r.
  destruct (localStream (state r)); [|apply sound_log].
  case_bool_decide; [|apply sound_log].
  apply sound_bind; [by apply sound_setState|]. intros _. apply sound_emit.
Qed.

Lemma sound_leaveCall : sound [] leaveCall.
Proof.
  unfold leaveCall. apply sound_bind; [apply sound_get|]. intros r.
  apply sound_bind; [apply sound_forEach; intros p; apply sound_rtc|]. intros _.
  apply sound_modify. intros w. split_and!; [done..|].
  intros _ uid h. unfold lookup_pc. cbn. by rewrite lookup_empty.
Qed.

Lemma wf_ext w w' : wf w → ext w w' → wf w'.
Proof.
  intros (Hc & Hl & Ha & Hm) (Hlen & Hrt & Hv). unfold wf. rewrite Hrt.
  split_and!; [by apply Hv|..].
  - eapply Forall_impl; [done|]. intros r. by apply valid_mono.
  - eapply Forall_impl; [done|]. intros r. by apply valid_mono.
  - destruct (startCall_memo (runtime w)) as [[d r]|]; [|done]. by eapply valid_mono.
Qed.

Lemma wf_listener_effect w : wf w → wf (listener_effect w).
Proof.
  intros (Hc & Hl & Ha & Hm). unfold listener_effect. case_decide; [done|].
  split_and!; [done| |done..]. cbn.
  destruct (socket (state (current w))); [|done].
  apply Forall_app. split; [done|]. by constructor.
Qed.

Lemma wf_call_effect w : wf w → wf (call_effect w).
Proof.
  intros (Hc & Hl & Ha & Hm). unfold call_effect, wf. cbn.
  set (closure := match startCall_memo (runtime w) with
                  | Some (d', r') => if decide (d' = startCall_deps w) then r' else current w
                  | None => current w
                  end).
  assert (valid (length (conns w)) closure) as Hcl.
  { subst closure. destruct (startCall_memo (runtime w)) as [[d' r']|]; [|done].
    by case_decide. }
  split_and!; [done..| |done].
  case_decide; [done|]. destruct (_ && _); [|done].
  apply Forall_app. split; [done|]. by constructor.
Qed.

Lemma wf_commit w : wf w → wf (commit w).
Proof. intros Hw. by apply wf_call_effect, wf_listener_effect. Qed.

Lemma wf_task m w : sound [] m → wf w → wf (task m w).
Proof.
  intros Hm Hw. unfold task. apply wf_commit. specialize (Hm w (Forall_nil_2 _)).
  destruct (m w) as [[a|e] w1]; cbn in Hm.
  - by eapply wf_ext.
  - eapply wf_ext; [done|]. eapply ext_trans; [done|apply ext_report].
Qed.

Lemma wf_resume k w : (∀ r, sound [] (k r)) → wf w → wf (resume k w).
Proof.
  intros Hk Hw. unfold resume.
  destruct (awaiting_media (runtime w)) as [|r rest] eqn:Hwait; [done|].
  apply wf_task; [apply Hk|]. destruct Hw as (Hc & Hl & Ha & Hm).
  split_and!; [done..| |done]. cbn. rewrite Hwait in Ha. by inversion Ha.
Qed.

Lemma wf_step i w : wf w → wf (step i w).
Proof.
  intros Hw. destruct i; cbn.
  - apply wf_task; [apply sound_dispatch|done].
  - apply wf_resume; [|done]. intros r. apply sound_startCall_granted.
  - apply wf_resume; [|done]. intros _.
    apply sound_bind; [apply sound_log|]. intros _. apply sound_alert.
  - apply wf_task; [apply sound_createRoom|done].
  - apply wf_task; [apply sound_joinRoom|done].
  - apply wf_task; [apply sound_toggleAudio|done].
  - apply wf_task; [apply sound_leaveCall|done].
Qed.

Lemma wf_run inputs w : wf w → wf (run inputs w).
Proof.
  revert w. induction inputs as [|i inputs IH]; intros w Hw; cbn; [done|].
  by apply IH, wf_step.
Qed.

Lemma wf_mount sid : wf (mount sid).
Proof.
  unfold mount. apply wf_task; [by apply sound_setState|]. apply wf_commit.
  by split_and!.
Qed.

(** In every world the component reaches, what a registered listener finds
    in its map is a connection. *)
Lemma reachable_listener_finds_conn w r uid h :
  reachable w → r ∈ listeners (runtime w) → lookup_pc r uid = Some h →
  is_Some (conns w !! h).
Proof.
  intros (sid & inputs & ->) Hr Hh.
  destruct (wf_run inputs (mount sid) (wf_mount sid)) as (_ & Hl & _).
  rewrite Forall_forall in Hl. apply lookup_lt_is_Some_2. by eapply Hl.
Qed.

(** *** Candidates *)

Lemma handleIceCandidate_run (r : Render) (cand : IceCandidate) (senderId : string)
    (w : World) :
  (∀ h, lookup_pc r senderId = Some h → is_Some (conns w !! h)) →
  handleIceCandidate r cand senderId w
  = (Ok (),
     match lookup_pc r senderId with
     | Some h =>
         match conns w !! h with
         | Some c =>
             if decide (Rtc.signalingState (pc c) = Rtc.closed)
             then logged ["Cannot add ICE candidate - connection closed or not found for"] w
             else match Rtc.addIceCandidate cand (pc c) with
                  | Some pc' =>
                      logged ["ICE candidate added successfully for"]
                        (set_conns (<[h := mkConn (userId c) pc']> (conns w)) w)
                  | None => logged ["Error adding ICE candidate for"] w
                  end
         | None => w
         end
     | None => logged ["Cannot add ICE candidate - connection closed or not found for"] w
     end).
Proof.
  intros Hwf. unfold handleIceCandidate.
  destruct (lookup_pc r senderId) as [h|]; [|done].
  destruct (Hwf h eq_refl) as [c Hc]. run_M. rewrite Hc.
  destruct (decide (Rtc.signalingState (pc c) = Rtc.closed)) as [Hs|Hs].
  - by rewrite decide_False by (by intros ?).
  - rewrite decide_True by done. rewrite Hc.
    by destruct (Rtc.addIceCandidate cand (pc c)).
Qed.

Lemma handleIceCandidate_quiet r cand senderId w :
  valid (length (conns w)) r →
  ∃ w', handleIceCandidate r cand senderId w = (Ok (), w')
    ∧ length (conns w') = length (conns w)
    ∧ uncaught (output w') = uncaught (output w).
Proof.
  intros Hr. eexists. split.
  { apply handleIceCandidate_run. intros h Hh. apply lookup_lt_is_Some_2. by eapply Hr. }
  destruct (lookup_pc r senderId) as [h|]; [|done].
  destruct (conns w !! h) as [c|]; [|done]. case_decide; [done|].
  destruct (Rtc.addIceCandidate cand (pc c)); [|done]. cbn. by rewrite length_insert.
Qed.

Lemma candidate_listeners_run gens cand senderId w :
  Forall (valid (length (conns w))) gens →
  ∃ w', forEach gens (λ r, default (mret ()) (listener r (ice_candidate cand senderId))) w
        = (Ok (), w')
    ∧ length (conns w') = length (conns w)
    ∧ uncaught (output w') = uncaught (output w).
Proof.
  revert w. induction gens as [|r gens IH]; intros w Hgens; cbn; [by eexists|].
  apply Forall_cons in Hgens as [Hr Hgens].
  destruct (handleIceCandidate_quiet r cand senderId w Hr) as (w1 & Hrun1 & Hlen1 & Hu1).
  unfold mbind, M_bind, detached. rewrite Hrun1.
  destruct (IH w1) as (w' & Hrun & Hlen & Hu); [by rewrite Hlen1|].
  exists w'. split; [done|]. split; congruence.
Qed.

(** C7, as the code runs. In every world the component reaches and for
    every listener registered there, [handleIceCandidate] never throws. For
    a connection that is not closed it calls [addIceCandidate] at once,
    whether a remote description is set or not: the candidate is added when
    the browser takes it, and when it does not, as it does while there is no
    remote description, the rejection is caught and logged and the candidate
    is gone. For a closed or absent connection one line is logged. Nothing
    goes uncaught when the event has been handled by all listeners. *)
Theorem ice_candidate_is_added_at_once_or_dropped
    (w : World) (r : Render) (cand : IceCandidate) (senderId : string) :
  reachable w →
  r ∈ listeners (runtime w) →
  (∃ w', handleIceCandidate r cand senderId w = (Ok (), w')
     ∧ (∀ h c, lookup_pc r senderId = Some h → conns w !! h = Some c →
          Rtc.signalingState (pc c) ≠ Rtc.closed →
          match Rtc.addIceCandidate cand (pc c) with
          | Some pc' =>
              Rtc.candidates pc' = Rtc.candidates (pc c) ++ [cand]
              ∧ w' = logged ["ICE candidate added successfully for"]
                       (set_conns (<[h := mkConn (userId c) pc']> (conns w)) w)
          | None => w' = logged ["Error adding ICE candidate for"] w
          end)
     ∧ (∀ h c, lookup_pc r senderId = Some h → conns w !! h = Some c →
          Rtc.signalingState (pc c) ≠ Rtc.closed →
          Rtc.remoteDescription (pc c) = None →
          w' = logged ["Error adding ICE candidate for"] w)
     ∧ ((lookup_pc r senderId = None
         ∨ ∃ h c, lookup_pc r senderId = Some h ∧ conns w !! h = Some c
                  ∧ Rtc.signalingState (pc c) = Rtc.closed) →
        w' = logged ["Cannot add ICE candidate - connection closed or not found for"] w))
  ∧ uncaught (output (step (Receive (ice_candidate cand senderId)) w))
    = uncaught (output w).
Proof.
  intros Hw Hr. split.
  - eexists. split.
    { apply handleIceCandidate_run. intros h Hh.
      by eapply reachable_listener_finds_conn. }
    split_and!.
    + intros h c -> -> Hs. rewrite decide_False by done.
      destruct (Rtc.addIceCandidate cand (pc c)) as [pc'|] eqn:Hadd; [|done].
      split; [|done]. unfold Rtc.addIceCandidate in Hadd.
      case_decide; [done|]. destruct (Rtc.remoteDescription (pc c)); [|done].
      by injection Hadd as <-.
    + intros h c -> -> Hs Hnone. rewrite decide_False by done.
      unfold Rtc.addIceCandidate. rewrite decide_False by done. by rewrite Hnone.
    + intros [->|(h & c & -> & -> & Hs)]; [done|]. by rewrite decide_True.
  - destruct Hw as (sid & inputs & ->).
    destruct (wf_run inputs (mount sid) (wf_mount sid)) as (_ & Hl & _).
    set (w := run inputs (mount sid)) in *.
    destruct (candidate_listeners_run (listeners (runtime w)) cand senderId
                (logged (replicate (length (listeners (runtime w))) "Socket event received:") w))
      as (w' & Hrun & _ & Hu); [done|].
    assert (dispatch (ice_candidate cand senderId) w = (Ok (), w')) as Hd.
    { unfold dispatch, any_listener, mbind, M_bind, get. by rewrite forEach_log. }
    unfold step, task. rewrite Hd.
    destruct (commit_frame w') as (_ & _ & -> & _). by rewrite Hu.
Qed.

Lemma ice_candidate_is_added_at_once_or_dropped_witness :
  (∃ w', handleIceCandidate (current bob_calls_alice) "candidate:1" "a" bob_calls_alice
         = (Ok (), w')
     ∧ w' = logged ["Error adding ICE candidate for"] bob_calls_alice)
  ∧ uncaught (output (step (Receive (ice_candidate "candidate:1" "a")) bob_calls_alice))
    = uncaught (output bob_calls_alice).
Proof.
  destruct (ice_candidate_is_added_at_once_or_dropped
              bob_calls_alice (current bob_calls_alice) "candidate:1" "a")
    as [(w' & Hrun & _ & Hdrop & _) Hquiet].
  - by eexists "b", _.
  - apply list_elem_of_In. vm_compute. tauto.
  - split; [|exact Hquiet]. exists w'. split; [exact Hrun|].
    apply (Hdrop 0 (mkConn "a" (Rtc.mk Rtc.have_local_offer
                                  (Some (mkSdp sdp_offer "v=0")) None ["audio"] [])));
      by vm_compute.
Defined.

(** C7, as stated, fails. Bob's connection to Alice has no remote
    description while her answer is awaited. A candidate of hers that comes
    first is passed to [addIceCandidate], rejected and logged; no part of
    the state keeps it, and the connection does not have it after the
    answer has been applied. *)
Lemma candidate_before_remote_description_is_lost :
  let a := mkSdp sdp_answer "v=0" in
  let w1 := step (Receive (ice_candidate "candidate:1" "a")) bob_calls_alice in
  let w2 := step (Receive (answer a "a")) w1 in
  (Rtc.remoteDescription ∘ pc <$> conns bob_calls_alice) = [None]
  ∧ conns w1 = conns bob_calls_alice
  ∧ current w1 = current bob_calls_alice
  ∧ (Rtc.remoteDescription ∘ pc <$> conns w2) = [Some a]
  ∧ (Rtc.candidates ∘ pc <$> conns w2) = [[]]
  ∧ ¬ candidate_survives "candidate:1" "a" [Receive (answer a "a")] bob_calls_alice.
Proof.
  split_and!; try by vm_compute.
  intros (h & cn & Hc & _ & Hin).
  destruct h as [|h]; vm_compute in Hc; [|by destruct h].
  injection Hc as <-. by apply elem_of_nil in Hin.
Qed.

(** A candidate that comes after the remote description is added. *)
Example candidate_after_answer_is_added :
  let a := mkSdp sdp_answer "v=0" in
  candidate_survives "candidate:1" "a" []
    (step (Receive (answer a "a")) bob_calls_alice).
Proof.
  eexists 0, _. split_and!; [by vm_compute|done|]. cbn. by left.
Qed.

(** *** One connection for each peer *)

(** How the second connection comes about: a [handleOffer] whose render has
    no connection for the sender constructs one and stores it under the
    sender's id, whatever the map holds by then, and closes nothing. *)
Lemma handleOffer_without_entry (r : Render) (o : SessionDescription) (senderId : string)
    (w : World) :
  lookup_pc r senderId = None →
  ∃ w' c, handleOffer r o senderId w = (Ok (), w')
    ∧ conns w' = conns w ++ [c]
    ∧ userId c = senderId
    ∧ Rtc.signalingState (pc c) ≠ Rtc.closed
    ∧ lookup_pc (current w') senderId = Some (length (conns w)).
Proof.
  intros Hnone. unfold handleOffer. rewrite Hnone.
  unfold createPeerConnection, try_catch, signalingState, rtc, rtc_create, log, get, modify,
    setPeerConnections, mbind, M_bind, mret, M_ret, lookup_pc.
  cbn. rewrite list_lookup_middle by done. cbn.
  rewrite decide_False by (by intros [|]). cbn.
  rewrite list_lookup_middle by done. cbn.
  unfold Rtc.setRemoteDescription, Rtc.createAnswer, Rtc.setLocalDescription, emit.
  destruct o as [[] text]; cbn;
    repeat (first [ rewrite list_lookup_middle by done
                  | rewrite insert_app_r_alt by done
                  | rewrite Nat.sub_diag ]; cbn);
    try destruct (socket (state r)); cbn;
    eexists _, _; (split_and!; [reflexivity|reflexivity|done|done|by apply lookup_insert_eq]).
Qed.

(** C1, as the code runs. The listener that the first run of the effect
    registered closes over the empty map of that render and is never taken
    off the socket. When the same offer is delivered twice it finds no
    connection both times: it builds a second [RTCPeerConnection] for the
    sender and stores it over the first, which is not closed. Two
    connections for one remote id are live, one of them in no map. *)
Theorem duplicate_offer_makes_two_live_connections :
  let o := mkSdp sdp_offer "v=0" in
  let w1 := run [Receive (offer o "a")] (mount "b") in
  let w2 := run [Receive (offer o "a"); Receive (offer o "a")] (mount "b") in
  live "a" w1 = [0]
  ∧ live "a" w2 = [0; 1]
  ∧ lookup_pc (current w2) "a" = Some 1
  ∧ (λ r, lookup_pc r "a") <$> listeners (runtime w2) = [None; Some 0; Some 1]
  ∧ ¬ at_most_one_live w2.
Proof.
  split_and!; try by vm_compute.
  intros Hone. specialize (Hone "a"). vm_compute in Hone. lia.
Qed.

(** The same happens to a join notification that is delivered twice. *)
Example duplicate_join_makes_two_live_connections :
  let w := run [Receive (user_joined carol [alice; bob; carol]);
                Receive (user_joined carol [alice; bob; carol])] bob_calls_alice in
  live "c" w = [1; 2] ∧ lookup_pc (current w) "c" = Some 2.
Proof. by vm_compute. Qed.

(** *** Pending attempts *)

(** The guard of the join listener, read against the render it closes
    over: with a connection or a pending attempt for the new member there,
    or without a local stream, no connection is constructed. *)
Lemma user_joined_guard (r : Render) (user : User.t) (users' : list User.t) (w : World) :
  localStream (state r) = None ∨ is_Some (lookup_pc r (User.id user))
  ∨ User.id user ∈ connectionAttempts r →
  ∃ w', on_user_joined r user users' w = (Ok (), w') ∧ conns w' = conns w
        ∧ connectionAttempts (current w') = connectionAttempts (current w).
Proof.
  intros Hguard. unfold on_user_joined. run_M. cbn.
  assert (bool_decide (lookup_pc r (User.id user) = None)
          && bool_decide (User.id user ∉ connectionAttempts r) = false
          ∨ localStream (state r) = None) as [Hoff|Hnone].
  { destruct Hguard as [?|[[h Hh]|Hin]]; [by right|left..].
    - rewrite Hh. by rewrite bool_decide_eq_false_2.
    - rewrite andb_false_iff. right. apply bool_decide_eq_false_2. by intros ?. }
  - destruct (localStream (state r)) as [stream|].
    + rewrite <- andb_assoc, Hoff, andb_false_r.
      repeat case_bool_decide; first [done | by eexists].
    + repeat case_bool_decide; first [done | by eexists].
  - rewrite Hnone. repeat case_bool_decide; first [done | by eexists].
Qed.

Lemma addTracks_run (stream : MediaStream) (h : nat) (c : Conn) (w : World) :
  conns w !! h = Some c → Rtc.signalingState (pc c) ≠ Rtc.closed →
  forEach stream (λ track, rtc h (Rtc.addTrack track)) w
  = (Ok (),
     set_conns
       (<[h := mkConn (userId c)
                 (Rtc.mk (Rtc.signalingState (pc c)) (Rtc.localDescription (pc c))
                    (Rtc.remoteDescription (pc c)) (Rtc.senders (pc c) ++ stream)
                    (Rtc.candidates (pc c)))]> (conns w)) w).
Proof.
  revert c w. induction stream as [|track stream IH]; intros c w Hc Hopen; cbn.
  - rewrite app_nil_r. destruct c as [uid []]. cbn. rewrite list_insert_id by done.
    by destruct w.
  - unfold mbind, M_bind, rtc at 1. rewrite Hc. unfold Rtc.addTrack.
    rewrite decide_False by done. cbn.
    erewrite IH; cbn; [|by eapply list_lookup_insert_eq, lookup_lt_Some|done].
    unfold set_conns. cbn. by rewrite list_insert_insert_eq, <- app_assoc.
Qed.

(** The other branch of the join listener: with a stream and neither
    connection nor attempt in its closure, it builds a connection, sends
    the offer, and returns with the member's id in [connectionAttempts]. *)
Lemma user_joined_marks_attempt (r : Render) (user : User.t) (users' : list User.t)
    (w : World) (stream : MediaStream) :
  localStream (state r) = Some stream →
  is_other r (User.id user) = true →
  lookup_pc r (User.id user) = None →
  User.id user ∉ connectionAttempts r →
  ∃ w', on_user_joined r user users' w = (Ok (), w')
    ∧ connectionAttempts (current w') = connectionAttempts (current w) ∪ {[User.id user]}
    ∧ conns w'
      = conns w ++ [mkConn (User.id user)
                      (Rtc.mk Rtc.have_local_offer (Some (mkSdp sdp_offer "v=0")) None
                         stream [])].
Proof.
  intros Hstream Hother Hnone Hfree. unfold on_user_joined.
  rewrite Hstream, Hother, Hnone. rewrite !bool_decide_eq_true_2 by done. cbn.
  unfold mbind, M_bind. cbn.
  unfold createPeerConnection, log, get, modify, mbind, M_bind, mret, M_ret. cbn.
  erewrite addTracks_run; cbn; [|by apply list_lookup_middle|done].
  unfold send_offer, try_catch, mbind, M_bind, rtc_create, detached, rtc, Rtc.createOffer.
  cbn.
  repeat (first [ rewrite list_lookup_middle by done
                | rewrite insert_app_r_alt by done
                | rewrite Nat.sub_diag
                | rewrite decide_False by done ]; cbn).
  unfold emit. destruct (socket (state r)); by eexists.
Qed.

(** C8, as the code runs. Carol joins while Bob is in the call: Bob's
    client notes her id in [connectionAttempts], makes the connection and
    sends the offer. Her answer completes the negotiation, and her id is
    still in the set; it is there after she has left and after Bob has left
    the call. Only the [catch] of a failed [createOffer] takes an id out. *)
Theorem successful_attempt_stays_pending :
  let a := mkSdp sdp_answer "v=0" in
  let joined := step (Receive (user_joined carol [alice; bob; carol])) bob_calls_alice in
  let answered := step (Receive (answer a "c")) joined in
  let gone := step (Receive (user_left "c" [alice; bob])) answered in
  let left := step ClickLeaveCall gone in
  connectionAttempts (current bob_calls_alice) = ∅
  ∧ connectionAttempts (current joined) = {["c"]}
  ∧ emit_offer "c" (mkSdp sdp_offer "v=0") ∈ emitted (output joined)
  ∧ (Rtc.signalingState ∘ pc <$> conns answered !! 1) = Some Rtc.stable
  ∧ connectionAttempts (current answered) = {["c"]}
  ∧ connectionAttempts (current gone) = {["c"]}
  ∧ connectionAttempts (current left) = {["c"]}.
Proof.
  split_and!; try by vm_compute.
  apply list_elem_of_In. vm_compute. tauto.
Qed.

(** *** Events without a listener *)

Lemma commit_logged lines w : commit (logged lines w) = logged lines (commit w).
Proof.
  unfold commit, call_effect, listener_effect, logged, set_output, set_runtime. cbn.
  by destruct (decide (listener_deps (runtime w) = _)).
Qed.

Lemma listener_effect_idem w : listener_effect (listener_effect w) = listener_effect w.
Proof.
  unfold listener_effect.
  destruct (decide (listener_deps (runtime w) = Some (listener_effect_deps (current w))))
    as [Heq|Hne]; cbn; by rewrite decide_True.
Qed.

Lemma call_effect_idem w : call_effect (call_effect w) = call_effect w.
Proof.
  destruct w as [cur cs nm us out [ls ld memo cd aw]].
  unfold call_effect, set_runtime, startCall_deps. cbn.
  destruct memo as [[d' r']|]; [destruct (decide (d' = _))|];
    destruct (decide (cd = _)); by rewrite !decide_True.
Qed.

Lemma commit_idem w : commit (commit w) = commit w.
Proof.
  unfold commit.
  assert (∀ v, listener_effect v = v → listener_effect (call_effect v) = call_effect v)
    as Hswap.
  { intros v Hv. unfold listener_effect in *. cbn.
    destruct (decide (listener_deps (runtime v) = _)) as [Heq|Hne].
    - done.
    - exfalso. apply (f_equal (λ x, listener_deps (runtime x))) in Hv. cbn in Hv.
      by rewrite <- Hv in Hne. }
  rewrite Hswap by apply listener_effect_idem. apply call_effect_idem.
Qed.

Lemma task_settled m w : commit (task m w) = task m w.
Proof. apply commit_idem. Qed.

Lemma step_settled i w : commit w = w → commit (step i w) = step i w.
Proof.
  intros Hw. destruct i; cbn; try apply task_settled;
    unfold resume; destruct (awaiting_media (runtime w)); done || apply task_settled.
Qed.

Lemma run_settled inputs w : commit w = w → commit (run inputs w) = run inputs w.
Proof.
  revert w. induction inputs as [|i inputs IH]; intros w Hw; cbn; [done|].
  apply IH. by apply step_settled.
Qed.

Lemma reachable_settled w : reachable w → commit w = w.
Proof. intros (sid & inputs & ->). apply run_settled. unfold mount. apply task_settled. Qed.

Lemma dispatch_unhandled m w :
  ¬ handled m →
  dispatch m w
  = (Ok (), logged (replicate (length (listeners (runtime w))) "Socket event received:") w).
Proof.
  intros Hm. destruct m; cbn in Hm; try done.
  unfold dispatch, any_listener. cbn. unfold mbind, M_bind, get.
  rewrite forEach_log. apply forEach_skip.
Qed.

(** C10. The listener effect registers a listener for each event of the
    relay but [user-media-changed]. When a participant toggles audio the
    relay sends that event and no other, and a client that receives it
    writes its catch-all line to the console: its state, the list of users
    with their [isAudioEnabled] flags in it, its connections and what it has
    sent are as before. *)
Theorem user_media_changed_changes_nothing
    (w : World) (st : Relay.State) (sid : string) (d : Relay.Delivery) :
  reachable w →
  d ∈ (Relay.step (Relay.ToggleAudio sid) st).2 →
  (∀ r m, is_Some (listener r m) ↔ handled m)
  ∧ ¬ handled (Relay.payload d)
  ∧ (∃ lines, step (Receive (Relay.payload d)) w = logged lines w)
  ∧ users (state (current (step (Receive (Relay.payload d)) w))) = users (state (current w)).
Proof.
  intros Hw Hd.
  assert (∃ b, Relay.payload d = user_media_changed sid b) as [b Hp].
  { revert Hd. unfold Relay.step. cbn.
    destruct (Relay.sockets st !! sid); [|by intros ?%elem_of_nil].
    unfold Relay.on_toggle_audio.
    destruct (Relay.users st !! sid) as [ref|]; [|by intros ?%elem_of_nil].
    destruct (Relay.heap st !! ref) as [user|]; [|by intros ?%elem_of_nil].
    cbn. unfold Relay.socket_to. intros (rcpt & -> & _)%list_elem_of_fmap. by eexists. }
  assert (step (Receive (Relay.payload d)) w
          = logged (replicate (length (listeners (runtime w))) "Socket event received:") w)
    as Hstep.
  { rewrite Hp. cbn. unfold task. rewrite dispatch_unhandled by (by intros ?).
    rewrite commit_logged. by rewrite reachable_settled. }
  split_and!.
  - intros r m. destruct m; cbn; split; (done || by intros []|| eauto).
  - rewrite Hp. by intros ?.
  - eexists. exact Hstep.
  - by rewrite Hstep.
Qed.

Lemma user_media_changed_changes_nothing_witness :
  let st := Relay.exec [Relay.Connection "a"; Relay.CreateRoom "a" "Alice" "0.i" 0;
                        Relay.Connection "b"; Relay.JoinRoom "b" "I" "Bob"] in
  let d := Relay.mkDelivery "b" (user_media_changed "a" false) in
  (Relay.step (Relay.ToggleAudio "a") st).2 = [d]
  ∧ (∀ r m, is_Some (listener r m) ↔ handled m)
  ∧ ¬ handled (Relay.payload d)
  ∧ (∃ lines, step (Receive (Relay.payload d)) bob_calls_alice = logged lines bob_calls_alice)
  ∧ users (state (current (step (Receive (Relay.payload d)) bob_calls_alice)))
    = users (state (current bob_calls_alice)).
Proof.
  split; [by vm_compute|].
  apply (user_media_changed_changes_nothing bob_calls_alice
           (Relay.exec [Relay.Connection "a"; Relay.CreateRoom "a" "Alice" "0.i" 0;
                        Relay.Connection "b"; Relay.JoinRoom "b" "I" "Bob"])
           "a" (Relay.mkDelivery "b" (user_media_changed "a" false))).
  - by eexists "b", _.
  - vm_compute. left.
Defined.

End ClientFacts.

(** ** More properties of the relay *)

Module RelayMoreFacts.
Import Relay RelaySpec RelayMoreSpec RelayFacts.

(** *** The insertion-ordered map *)

Lemma map_set_keys {V} (k : string) (v : V) m :
  (map_set k v m).*1 = if decide (k ∈ m.*1) then m.*1 else m.*1 ++ [k].
Proof.
  induction m as [|[k' v'] m IH]; cbn; [done|].
  destruct (decide (k' = k)) as [->|Hne]; cbn.
  - by rewrite decide_True by left.
  - rewrite IH. destruct (decide (k ∈ m.*1)) as [Hin|Hnin].
    + by rewrite decide_True by (by right).
    + rewrite decide_False; [done|]. by intros [?|?]%elem_of_cons.
Qed.

Lemma map_set_elem {V} (k : string) (v : V) m k' v' :
  (k', v') ∈ map_set k v m → (k' = k ∧ v' = v) ∨ (k', v') ∈ m.
Proof.
  induction m as [|[k0 v0] m IH]; cbn.
  - intros [= -> ->]%list_elem_of_singleton. by left.
  - case_decide; subst.
    + intros [[= -> ->]|Hin]%elem_of_cons; [by left|]. right. by right.
    + intros [[= -> ->]|Hin]%elem_of_cons; [right; by left|].
      destruct (IH Hin) as [?|?]; [by left|]. right. by right.
Qed.

Lemma map_set_has {V} (k : string) (v : V) m : (k, v) ∈ map_set k v m.
Proof.
  induction m as [|[k0 v0] m IH]; cbn; [by left|].
  case_decide; [by left|by right].
Qed.

Lemma map_set_NoDup {V} (k : string) (v : V) m : NoDup m.*1 → NoDup (map_set k v m).*1.
Proof.
  intros Hnd. rewrite map_set_keys. case_decide; [done|].
  apply NoDup_app. split_and!; [done| |apply NoDup_singleton].
  by intros x Hx ->%list_elem_of_singleton.
Qed.

Lemma map_delete_keys {V} (k : string) (m : list (string * V)) :
  (map_delete k m).*1 = filter (λ k', k' ≠ k) m.*1.
Proof.
  unfold map_delete. induction m as [|[k' v'] m IH]; [done|].
  rewrite fmap_cons, !filter_cons. cbn. case_decide; cbn; by rewrite IH.
Qed.

Lemma map_delete_elem {V} (k : string) (m : list (string * V)) k' v' :
  (k', v') ∈ map_delete k m ↔ k' ≠ k ∧ (k', v') ∈ m.
Proof. unfold map_delete. by rewrite list_elem_of_filter. Qed.

(** *** The registry stays coherent *)

Lemma record_of_push st st' u k r :
  heap st' = heap st ++ [u] → record_of st k r → record_of st' k r.
Proof.
  intros Hh (u0 & Hr & Hid). exists u0. split; [|done].
  rewrite Hh. by apply lookup_app_l_Some.
Qed.

Lemma record_of_new st' h u :
  heap st' = h ++ [u] → record_of st' (User.id u) (length h).
Proof. intros Hh. exists u. split; [|done]. rewrite Hh. by apply list_lookup_middle. Qed.

Lemma record_of_same st st' k r : heap st' = heap st → record_of st k r → record_of st' k r.
Proof. intros Hh (u0 & Hr & Hid). exists u0. by rewrite Hh. Qed.

Lemma enter_members_ok st sid name rc room :
  members_ok st → rooms st !! rc = Some room →
  members_ok (enter sid name rc room st).1.
Proof.
  intros Hm Hroom rc' room'. cbn. rewrite lookup_insert.
  assert (∀ k r, record_of st k r →
            record_of (enter sid name rc room st).1 k r) as Hpush.
  { intros k r. by apply (record_of_push st _ (User.mk sid name rc true)). }
  destruct (Hm rc room Hroom) as [Hnd Hrec].
  case_decide as Hrc.
  - intros [= <-]. cbn. unfold member_ids. cbn. split; [by apply map_set_NoDup|].
    intros k r [[-> ->]|Hin]%map_set_elem.
    + by apply (record_of_new _ (heap st) (User.mk sid name rc true)).
    + by apply Hpush, Hrec.
  - intros Hr. destruct (Hm rc' room' Hr) as [Hnd' Hrec']. split; [done|].
    intros k r Hin. by apply Hpush, Hrec'.
Qed.

Lemma enter_users_ok st sid name rc room rs :
  users_ok st → sockets st !! sid = Some rs → rc ∈ rs →
  users_ok (enter sid name rc room st).1.
Proof.
  intros Hu Hs Hrc sid' r. cbn. rewrite lookup_insert. case_decide as Heq.
  - intros [= <-]. subst sid'. exists (User.mk sid name rc true), rs.
    split_and!; [by apply list_lookup_middle|done..].
  - intros Hr. destruct (Hu sid' r Hr) as (u & rs' & Hh & Hid & Hs' & Hin).
    exists u, rs'. split_and!; [by apply lookup_app_l_Some|done..].
Qed.

Lemma socket_join_coherent st sid rc rs :
  coherent st → sockets st !! sid = Some rs →
  coherent (socket_join sid rc st)
  ∧ sockets (socket_join sid rc st) !! sid = Some (rs ∪ {[rc]}).
Proof.
  intros [Hm Hu] Hs. split; [split|].
  - intros rc' room Hr. destruct (Hm rc' room Hr) as [Hnd Hrec]. split; [done|].
    intros k r Hin. by apply Hrec.
  - intros sid' r Hr. destruct (Hu sid' r Hr) as (u & rs' & Hh & Hid & Hs' & Hin).
    cbn. rewrite lookup_alter. case_decide as Heq.
    + rewrite <- Heq in *. rewrite Hs in Hs'. injection Hs' as <-. rewrite Hs. cbn.
      exists u, (rs ∪ {[rc]}). split_and!; [done..|]. by apply elem_of_union_l.
    + by exists u, rs'.
  - cbn. rewrite lookup_alter, decide_True by done. by rewrite Hs.
Qed.

Lemma step_coherent ev st : coherent st → coherent (step ev st).1.
Proof.
  intros Hc. pose proof Hc as [Hm Hu]. unfold step.
  destruct ev, (sockets st !! _) as [rs|] eqn:Hs; cbn [origin] in *; try done.
  - (* connection *)
    cbn. split; [done|]. intros sid' r Hr.
    destruct (Hu sid' r Hr) as (u & rs' & Hh & Hid & Hs' & Hin).
    exists u, rs'. split_and!; [done..| |done]. cbn.
    rewrite lookup_insert_ne; [done|]. intros <-. by rewrite Hs in Hs'.
  - (* join-room *)
    unfold on_join_room. destruct (rooms st !! roomCode) as [room|] eqn:Hr; [|done].
    destruct (socket_join_coherent st sid roomCode rs Hc Hs) as [[Hm1 Hu1] Hs1].
    cbn [fst]. change (coherent (enter sid username roomCode room
                                   (socket_join sid roomCode st)).1).
    split.
    + by apply enter_members_ok.
    + eapply enter_users_ok; [done..|]. apply elem_of_union_r. by apply elem_of_singleton.
  - (* create-room *)
    unfold on_create_room. cbn [fst].
    set (rc := generateRoomCode random36).
    set (st1 := {| rooms := <[rc := Room.mk rc now [] []]> (rooms st);
                  users := users st; heap := heap st; sockets := sockets st |}).
    assert (coherent st1) as Hc1.
    { split.
      - intros rc' room'. cbn. rewrite lookup_insert. case_decide.
        + intros [= <-]. split; [constructor|]. by intros k r ?%elem_of_nil.
        + apply Hm.
      - done. }
    destruct (socket_join_coherent st1 sid rc rs Hc1 Hs) as [[Hm2 Hu2] Hs2].
    change (coherent (enter sid username rc (Room.mk rc now [] [])
                        (socket_join sid rc st1)).1).
    split.
    + apply enter_members_ok; [done|]. cbn. by rewrite lookup_insert_eq.
    + eapply enter_users_ok; [done..|]. apply elem_of_union_r. by apply elem_of_singleton.
  - (* send-message *)
    unfold on_send_message.
    destruct (users st !! sid ≫= _) as [user|]; [|done].
    destruct (rooms st !! User.roomCode user) as [room|] eqn:Hr; [|done].
    split; [|done]. intros rc' room'. cbn. rewrite lookup_insert. case_decide.
    + intros [= <-]. destruct (Hm _ _ Hr) as [Hnd Hrec]. split; [done|].
      intros k r Hin. by apply Hrec.
    + intros Hr'. destruct (Hm _ _ Hr') as [Hnd Hrec]. split; [done|].
      intros k r Hin. by apply Hrec.
  - (* toggle-audio *)
    unfold on_toggle_audio.
    destruct (users st !! sid) as [r|] eqn:Hr; [|done].
    destruct (heap st !! r) as [user|] eqn:Hh; [|done]. cbn [fst].
    assert (∀ k r0, record_of st k r0 →
              ∃ u, <[r := User.mk (User.id user) (User.username user) (User.roomCode user)
                            (negb (User.isAudioEnabled user))]> (heap st) !! r0 = Some u
                   ∧ User.id u = k
                   ∧ ∀ u0, heap st !! r0 = Some u0 → User.roomCode u = User.roomCode u0)
      as Hrec.
    { intros k r0 (u0 & Hh0 & Hid). destruct (decide (r0 = r)) as [->|Hne].
      - simplify_eq. eexists. split_and!.
        + apply list_lookup_insert_eq. by eapply lookup_lt_Some.
        + done.
        + intros u1 Hu1. by simplify_eq.
      - exists u0. rewrite list_lookup_insert_ne by done. split_and!; [done..|].
        intros u1 Hu1. by simplify_eq. }
    split.
    + intros rc' room' Hr'. destruct (Hm _ _ Hr') as [Hnd Hrec']. split; [done|].
      intros k r0 Hin. destruct (Hrec k r0 (Hrec' k r0 Hin)) as (u & ? & ? & _).
      by exists u.
    + intros sid' r0 Hr0. destruct (Hu sid' r0 Hr0) as (u0 & rs' & Hh0 & Hid & Hs' & Hin).
      destruct (Hrec sid' r0) as (u & Hu' & Hid' & Hrc); [by exists u0|].
      exists u, rs'. split_and!; [done..|]. by rewrite (Hrc u0 Hh0).
  - (* disconnect *)
    assert (coherent (leave_all sid st) ∨ is_Some (users st !! sid)) as Hleft.
    { destruct (users st !! sid) as [r|] eqn:Hr; [right; by eexists|]. left.
      split; [done|]. intros sid' r Hr'.
      destruct (Hu sid' r Hr') as (u & rs' & Hh & Hid & Hs' & Hin).
      exists u, rs'. split_and!; [done..| |done]. cbn.
      rewrite lookup_delete_ne; [done|]. intros ?. cbn in Hr'. congruence. }
    unfold on_disconnect. cbn [users heap rooms sockets leave_all].
    destruct (users st !! sid) as [r|] eqn:Hr; cbn [mbind option_bind];
      [|by destruct Hleft as [?|[? [=]]]].
    destruct (Hu sid r Hr) as (u & rs' & Hh & Hid & _). rewrite Hh.
    assert (users_ok {| rooms := rooms st; users := delete sid (users st);
                        heap := heap st; sockets := delete sid (sockets st) |}) as Hu'.
    { intros sid' r'. cbn. rewrite lookup_delete. case_decide; [done|].
      intros Hr'. destruct (Hu sid' r' Hr') as (u' & rs'' & ? & ? & ? & ?).
      exists u', rs''. split_and!; [done..| |done]. cbn. by rewrite lookup_delete_ne. }
    destruct (rooms st !! User.roomCode u) as [room|] eqn:Hroom; cbn [fst].
    + split.
      * intros rc' room'. cbn. case_decide.
        -- rewrite lookup_delete. case_decide; [done|]. intros Hr'.
           destruct (Hm _ _ Hr') as [Hnd Hrec]. split; [done|].
           intros k r0 Hin. by apply Hrec.
        -- rewrite lookup_insert. case_decide.
           ++ intros [= <-]. destruct (Hm _ _ Hroom) as [Hnd Hrec]. split.
              ** unfold member_ids. cbn. rewrite map_delete_keys. by apply NoDup_filter.
              ** intros k r0 [_ Hin]%map_delete_elem. by apply Hrec.
           ++ intros Hr'. destruct (Hm _ _ Hr') as [Hnd Hrec]. split; [done|].
              intros k r0 Hin. by apply Hrec.
      * intros sid' r'. apply Hu'.
    + split; [|exact Hu']. intros rc' room' Hr'.
      destruct (Hm _ _ Hr') as [Hnd Hrec]. split; [done|].
      intros k r0 Hin. by apply Hrec.
Qed.

Lemma run_coherent evs st : coherent st → coherent (run evs st).1.
Proof.
  revert st. induction evs as [|ev evs IH]; intros st Hc; cbn; [done|].
  pose proof (step_coherent ev st Hc) as H1.
  destruct (step ev st) as [st1 out1]. specialize (IH st1 H1).
  by destruct (run evs st1).
Qed.

Lemma exec_coherent evs : coherent (exec evs).
Proof. apply run_coherent. split; [by intros ?? ?|by intros ?? ?]. Qed.

(** *** What the member lists say *)

Lemma snapshot_ids_of (h : list User.t) (l : list (string * nat)) :
  (∀ k r, (k, r) ∈ l → ∃ u, h !! r = Some u ∧ User.id u = k) →
  User.id <$> omap (λ kv : string * nat, h !! kv.2) l = l.*1.
Proof.
  induction l as [|[k r] l IH]; intros Hrec; [done|].
  destruct (Hrec k r) as (u & Hu & Hid); [by left|]. cbn. rewrite Hu. cbn.
  rewrite Hid, IH; [done|]. intros k' r' Hin. apply Hrec. by right.
Qed.

Lemma snapshot_has (h : list User.t) (l : list (string * nat)) k r u :
  (k, r) ∈ l → h !! r = Some u → u ∈ omap (λ kv : string * nat, h !! kv.2) l.
Proof. intros Hin Hu. apply list_elem_of_omap. by exists (k, r). Qed.

(** The list that goes out with an event has no id twice; only the list of
    a [user-left] can be empty. *)
Lemma sent_list_ok (ev : Event) (st : State) (d : Delivery) (us : list User.t) :
  coherent st →
  d ∈ (step ev st).2 →
  member_list (payload d) = Some us →
  NoDup (User.id <$> us)
  ∧ (us = [] → ∃ sid, ev = Disconnect sid ∧ payload d = user_left sid []).
Proof.
  intros Hc Hd Hus. pose proof (step_coherent ev st Hc) as [Hm' _].
  pose proof Hc as [Hm Hu]. revert Hd Hm'. unfold step.
  destruct ev, (sockets st !! _) as [rs|] eqn:Hs; cbn [origin snd fst];
    try (by intros ?%elem_of_nil).
  - (* join-room *)
    unfold on_join_room. destruct (rooms st !! roomCode) as [room|] eqn:Hr.
    2:{ intros ->%list_elem_of_singleton. done. }
    destruct (enter sid username roomCode room (socket_join sid roomCode st))
      as [st' room'] eqn:He.
    cbn [fst snd]. intros Hd Hm'.
    unfold enter in He. injection He as Hst' Hroom'.
    assert (us = snapshot (heap st') room') as ->.
    { apply elem_of_app in Hd as [(x & -> & _)%list_elem_of_fmap| ->%list_elem_of_singleton];
        cbn in Hus; congruence. }
    destruct (Hm' roomCode room') as [Hnd Hrec].
    { rewrite <- Hst', <- Hroom'. apply lookup_insert_eq. }
    assert (User.id <$> snapshot (heap st') room' = member_ids room') as Hids
      by (by apply snapshot_ids_of).
    rewrite Hids. split; [done|]. intros Hnil. rewrite Hnil in Hids.
    assert (sid ∈ member_ids room') as Hin.
    { apply list_elem_of_fmap. exists (sid, length (heap st)). split; [done|].
      rewrite <- Hroom'. apply map_set_has. }
    rewrite <- Hids in Hin. by apply elem_of_nil in Hin.
  - (* create-room *)
    unfold on_create_room. cbn [fst snd].
    intros ->%list_elem_of_singleton _. cbn in Hus. injection Hus as <-.
    unfold snapshot. cbn. rewrite list_lookup_middle by done. cbn.
    split; [apply NoDup_singleton|done].
  - intros (x & -> & _)%list_elem_of_fmap. done.
  - intros (x & -> & _)%list_elem_of_fmap. done.
  - intros (x & -> & _)%list_elem_of_fmap. done.
  - (* send-message *)
    unfold on_send_message.
    destruct (users st !! sid ≫= _) as [user|]; [|by intros ?%elem_of_nil].
    destruct (rooms st !! User.roomCode user); [|by intros ?%elem_of_nil].
    intros (x & -> & _)%list_elem_of_fmap. done.
  - (* toggle-audio *)
    unfold on_toggle_audio.
    destruct (users st !! sid) as [r|]; [|by intros ?%elem_of_nil].
    destruct (heap st !! r); [|by intros ?%elem_of_nil].
    intros (x & -> & _)%list_elem_of_fmap. done.
  - (* disconnect *)
    unfold on_disconnect. cbn [users heap rooms leave_all].
    destruct (users st !! sid ≫= _) as [user|]; [|by intros ?%elem_of_nil].
    destruct (rooms st !! User.roomCode user) as [room|] eqn:Hr;
      [|by intros ?%elem_of_nil].
    cbn [snd]. intros (x & -> & _)%list_elem_of_fmap _. cbn in Hus. injection Hus as <-.
    destruct (Hm _ _ Hr) as [Hnd Hrec]. split.
    + unfold snapshot. rewrite snapshot_ids_of.
      * cbn. rewrite map_delete_keys. by apply NoDup_filter.
      * intros k r [_ Hin]%map_delete_elem. by apply Hrec.
    + intros Hnil. exists sid. cbn. by rewrite Hnil.
Qed.

(** X1. Member lists, in every state the relay reaches. A room that is
    stored lists every entry of [room.users] once, in the order of entry:
    one record per entry, the record's id being the entry's socket id, no
    id twice, and at least one. A list that goes out with [room-created],
    [room-joined], [user-joined] or [user-left] has no id twice either, and
    only the list of a [user-left] can be empty: the handler sends it
    before it deletes the room that became empty. *)
Theorem member_list_names_each_member_once (evs : list Event) :
  let st := exec evs in
  (∀ rc room, rooms st !! rc = Some room →
     User.id <$> snapshot (heap st) room = member_ids room
     ∧ NoDup (member_ids room)
     ∧ member_ids room ≠ [])
  ∧ (∀ ev d us, d ∈ (step ev st).2 → member_list (payload d) = Some us →
       NoDup (User.id <$> us)
       ∧ (us = [] → ∃ sid, ev = Disconnect sid ∧ payload d = user_left sid [])).
Proof.
  cbn zeta. split.
  - intros rc room Hr. destruct (exec_coherent evs) as [Hm _].
    destruct (Hm rc room Hr) as [Hnd Hrec]. split_and!; [|done|].
    + by apply snapshot_ids_of.
    + assert (no_empty_room (exec evs)) as Hne by (apply run_no_empty_room; by intros ??).
      unfold member_ids. intros Hnil%fmap_nil_inv. by eapply Hne.
  - intros ev d us. apply sent_list_ok, exec_coherent.
Qed.

(** Two rooms made from one draw: the second replaces the first, whose
    creator stays in the Socket.IO room, and is told of an empty room when
    the second creator goes. *)
Example user_left_list_can_be_empty :
  let st := exec [Connection "a"; CreateRoom "a" "Alice" "0.i" 0;
                  Connection "b"; CreateRoom "b" "Bob" "0.i" 1] in
  (step (Disconnect "b") st).2 = [mkDelivery "a" (user_left "b" [])].
Proof. by vm_compute. Qed.

(** X2. In every state the relay reaches, the record that [users] holds
    under a socket id carries that id, its socket is connected, and the
    socket is in the Socket.IO room the record names: a participant is
    always among the addressees of the room its record names. This is about
    the entries of [users]; the list of a room is another matter, it can
    keep the record of a socket that has gone. *)
Theorem users_entry_belongs_to_live_socket (evs : list Event) (sid : string) (u : User.t) :
  user_of (exec evs) sid = Some u →
  User.id u = sid
  ∧ sid ∈ members (User.roomCode u) (exec evs)
  ∧ is_Some (sockets (exec evs) !! sid).
Proof.
  unfold user_of. intros Hu. destruct (exec_coherent evs) as [_ Hok].
  destruct (users (exec evs) !! sid) as [r|] eqn:Hr; [|done]. cbn in Hu.
  destruct (Hok sid r Hr) as (u' & rs & Hh & Hid & Hs & Hin).
  rewrite Hh in Hu. injection Hu as <-. split_and!; [done| |by eexists].
  apply members_spec. by exists rs.
Qed.

Lemma users_entry_belongs_to_live_socket_witness :
  let evs := [Connection "a"; CreateRoom "a" "Alice" "0.i" 0] in
  let u := User.mk "a" "Alice" "I" true in
  User.id u = "a" ∧ "a" ∈ members (User.roomCode u) (exec evs)
  ∧ is_Some (sockets (exec evs) !! "a").
Proof.
  apply (users_entry_belongs_to_live_socket
           [Connection "a"; CreateRoom "a" "Alice" "0.i" 0] "a"
           (User.mk "a" "Alice" "I" true)).
  by vm_compute.
Defined.

(** A socket that made two rooms and went: [disconnect] takes it out of the
    room its record names, and the first room keeps its entry. *)
Example room_can_list_a_gone_socket :
  let st := exec [Connection "a"; CreateRoom "a" "Alice" "0.i" 0;
                  CreateRoom "a" "Alice" "0.j" 1; Disconnect "a"] in
  sockets st !! "a" = None
  ∧ users st !! "a" = None
  ∧ rooms st !! "J" = None
  ∧ snapshot (heap st) <$> rooms st !! "I" = Some [User.mk "a" "Alice" "I" true].
Proof. by vm_compute. Qed.

(** *** Joining a live room *)

Lemma participant_is_addressed st sid u rc :
  users_ok st → user_of st sid = Some u → User.roomCode u = rc → sid ∈ members rc st.
Proof.
  unfold user_of. intros Hok Hu <-.
  destruct (users st !! sid) as [r|] eqn:Hr; [|done]. cbn in Hu.
  destruct (Hok sid r Hr) as (u' & rs & Hh & Hid & Hs & Hin).
  rewrite Hh in Hu. injection Hu as <-. apply members_spec. by exists rs.
Qed.

Lemma members_same_sockets st st' rc : sockets st' = sockets st → members rc st' = members rc st.
Proof. unfold members. by intros ->. Qed.

Lemma members_join st sid rc rc' x :
  x ∈ members rc' st → x ∈ members rc' (socket_join sid rc st).
Proof.
  rewrite !members_spec. intros (rs & Hs & Hin). cbn. rewrite lookup_alter.
  case_decide as Heq.
  - subst x. rewrite Hs. cbn. eexists. split; [done|]. by apply elem_of_union_l.
  - by exists rs.
Qed.

(** X3. A [join-room] for a live room, in any state the relay reaches:
    the joiner is answered with [room-joined], the others with
    [user-joined], and both carry the same member list, taken after the
    joiner was added. That list names the earlier members in their order,
    then the joiner (in place, if it was listed already); the joiner's record
    is in it; and every other participant whose record names the room is
    among those told. *)
Theorem join_announces_one_member_list
    (evs : list Event) (sid rc name : string) (room : Room.t) :
  let st := exec evs in
  let u := User.mk sid name rc true in
  is_Some (sockets st !! sid) →
  rooms st !! rc = Some room →
  ∃ st' room',
    let S := snapshot (heap st') room' in
    step (JoinRoom sid rc name) st
    = (st', ((λ x, mkDelivery x (user_joined u S)) <$> filter (λ x, x ≠ sid) (members rc st'))
            ++ [mkDelivery sid (room_joined rc S (Room.messages room))])
    ∧ rooms st' !! rc = Some room'
    ∧ member_ids room'
      = (if decide (sid ∈ member_ids room) then member_ids room else member_ids room ++ [sid])
    ∧ User.id <$> S = member_ids room'
    ∧ u ∈ S
    ∧ user_of st' sid = Some u
    ∧ (∀ sid' u', sid' ≠ sid → user_of st sid' = Some u' → User.roomCode u' = rc →
         mkDelivery sid' (user_joined u S) ∈ (step (JoinRoom sid rc name) st).2).
Proof.
  intros st u [rs Hs] Hr.
  assert (coherent (step (JoinRoom sid rc name) st).1) as [Hm' _]
    by apply step_coherent, exec_coherent.
  destruct (exec_coherent evs) as [_ Hok]. fold st in Hok.
  revert Hm'. unfold step. cbn [origin]. rewrite Hs. unfold on_join_room. rewrite Hr.
  cbn [fst]. intros Hm'.
  set (st' := (enter sid name rc room (socket_join sid rc st)).1) in *.
  set (room' := (enter sid name rc room (socket_join sid rc st)).2) in *.
  assert (rooms st' !! rc = Some room') as Hr' by apply lookup_insert_eq.
  exists st', room'. cbn zeta. split_and!.
  - done.
  - done.
  - unfold member_ids. cbn. apply map_set_keys.
  - apply snapshot_ids_of. by apply (Hm' rc room').
  - eapply snapshot_has; [apply map_set_has|]. cbn. by apply list_lookup_middle.
  - unfold user_of. cbn. rewrite lookup_insert_eq. cbn. by apply list_lookup_middle.
  - intros sid' u' Hne Hu' Hrc. cbn [snd]. apply elem_of_app. left.
    apply list_elem_of_fmap. exists sid'. split; [done|].
    apply list_elem_of_filter. split; [done|].
    rewrite (members_same_sockets (socket_join sid rc st) st') by done.
    apply members_join. by eapply participant_is_addressed.
Qed.

Lemma join_announces_one_member_list_witness :
  let st := exec [Connection "a"; CreateRoom "a" "Alice" "0.i" 0; Connection "b"] in
  let u := User.mk "b" "Bob" "I" true in
  ∃ st' room',
    let S := snapshot (heap st') room' in
    step (JoinRoom "b" "I" "Bob") st
    = (st', ((λ x, mkDelivery x (user_joined u S)) <$> filter (λ x, x ≠ "b") (members "I" st'))
            ++ [mkDelivery "b" (room_joined "I" S [])])
    ∧ rooms st' !! "I" = Some room'
    ∧ member_ids room' = ["a"; "b"]
    ∧ User.id <$> S = member_ids room'
    ∧ u ∈ S
    ∧ user_of st' "b" = Some u
    ∧ (∀ sid' u', sid' ≠ "b" → user_of st sid' = Some u' → User.roomCode u' = "I" →
         mkDelivery sid' (user_joined u S) ∈ (step (JoinRoom "b" "I" "Bob") st).2).
Proof.
  apply (join_announces_one_member_list
           [Connection "a"; CreateRoom "a" "Alice" "0.i" 0; Connection "b"]
           "b" "I" "Bob" (Room.mk "I" 0 [("a", 0)] [])).
  - vm_compute. eauto.
  - by vm_compute.
Defined.

(** *** Chat *)

Lemma user_of_inv st sid u :
  user_of st sid = Some u → ∃ r, users st !! sid = Some r ∧ heap st !! r = Some u.
Proof.
  unfold user_of. destruct (users st !! sid) as [r|]; [|done]. cbn. by exists r.
Qed.

(** X4. A chat message from a participant whose room is live, in any
    state the relay reaches: it goes to every socket in the room's
    Socket.IO room, the sender included and every participant whose record
    names the room; it is appended to the room's history and nothing else of
    the registry changes; and whoever joins the room next is sent the history
    with this message at its end. *)
Theorem message_reaches_room_and_history
    (evs : list Event) (sid text uuid : string) (now : nat) (u : User.t) (room : Room.t) :
  let st := exec evs in
  let rc := User.roomCode u in
  let msg := Message.mk uuid text (User.username u) sid now "text" in
  is_Some (sockets st !! sid) →
  user_of st sid = Some u →
  rooms st !! rc = Some room →
  ∃ st',
    step (SendMessage sid text uuid now) st
    = (st', (λ x, mkDelivery x (new_message msg)) <$> members rc st)
    ∧ sid ∈ members rc st
    ∧ (∀ sid' u', user_of st sid' = Some u' → User.roomCode u' = rc → sid' ∈ members rc st)
    ∧ rooms st'
      = <[rc := Room.mk (Room.code room) (Room.created room) (Room.users room)
                 (Room.messages room ++ [msg])]> (rooms st)
    ∧ users st' = users st ∧ heap st' = heap st ∧ sockets st' = sockets st
    ∧ (∀ joiner name, is_Some (sockets st' !! joiner) →
         ∃ S, mkDelivery joiner (room_joined rc S (Room.messages room ++ [msg]))
              ∈ (step (JoinRoom joiner rc name) st').2).
Proof.
  intros st rc msg [rs Hs] Hu Hr.
  destruct (exec_coherent evs) as [_ Hok]. fold st in Hok.
  eexists. split_and!.
  - unfold step. cbn [origin]. rewrite Hs. unfold on_send_message.
    unfold user_of in Hu. rewrite Hu. fold rc. rewrite Hr. reflexivity.
  - by eapply participant_is_addressed.
  - intros sid' u' Hu' Hrc. by eapply participant_is_addressed.
  - done.
  - done.
  - done.
  - done.
  - intros joiner name [rs' Hj]. cbn in Hj. eexists.
    unfold step. cbn [origin sockets]. rewrite Hj. unfold on_join_room.
    cbn [rooms]. rewrite lookup_insert_eq. cbn [snd]. apply elem_of_app. right.
    apply list_elem_of_singleton. reflexivity.
Qed.

Lemma message_reaches_room_and_history_witness :
  let st := exec [Connection "a"; CreateRoom "a" "Alice" "0.i" 0;
                  Connection "b"; JoinRoom "b" "I" "Bob"; Connection "c"] in
  let msg := Message.mk "id-1" "hi" "Alice" "a" 7 "text" in
  ∃ st',
    step (SendMessage "a" "hi" "id-1" 7) st
    = (st', (λ x, mkDelivery x (new_message msg)) <$> members "I" st)
    ∧ "a" ∈ members "I" st
    ∧ (∃ S, mkDelivery "c" (room_joined "I" S [msg])
            ∈ (step (JoinRoom "c" "I" "Carol") st').2).
Proof.
  destruct (message_reaches_room_and_history
              [Connection "a"; CreateRoom "a" "Alice" "0.i" 0;
               Connection "b"; JoinRoom "b" "I" "Bob"; Connection "c"]
              "a" "hi" "id-1" 7 (User.mk "a" "Alice" "I" true)
              (Room.mk "I" 0 [("a", 0); ("b", 1)] []))
    as (st' & Hstep & Hself & _ & _ & _ & _ & Hsock & Hjoin).
  - vm_compute. eauto.
  - by vm_compute.
  - by vm_compute.
  - exists st'. split_and!; [exact Hstep|exact Hself|].
    apply (Hjoin "c" "Carol"). rewrite Hsock. vm_compute. eauto.
Defined.

(** *** Audio flags *)

(** X5. [toggle-audio] from a participant, in any state the relay
    reaches: the one record that [users] and the rooms share is flipped, so
    every member list with that entry shows the new flag; the change is told
    to the other sockets of the room the record names and never to the
    sender; nothing else changes; and a second toggle brings the relay back
    to the state before the first. *)
Theorem toggle_audio_flips_the_shared_record
    (evs : list Event) (sid : string) (r : nat) (u : User.t) :
  let st := exec evs in
  let u' := User.mk (User.id u) (User.username u) (User.roomCode u)
              (negb (User.isAudioEnabled u)) in
  is_Some (sockets st !! sid) →
  users st !! sid = Some r →
  heap st !! r = Some u →
  ∃ st',
    step (ToggleAudio sid) st
    = (st', (λ x, mkDelivery x (user_media_changed sid (negb (User.isAudioEnabled u))))
              <$> filter (λ x, x ≠ sid) (members (User.roomCode u) st))
    ∧ (∀ d, d ∈ (step (ToggleAudio sid) st).2 → recipient d ≠ sid)
    ∧ user_of st' sid = Some u'
    ∧ rooms st' = rooms st ∧ users st' = users st ∧ sockets st' = sockets st
    ∧ (∀ rc room, rooms st' !! rc = Some room → (sid, r) ∈ Room.users room →
         u' ∈ snapshot (heap st') room)
    ∧ (step (ToggleAudio sid) st').1 = st.
Proof.
  intros st u' [rs Hs] Hr Hh.
  assert (step (ToggleAudio sid) st
          = ({| rooms := rooms st; users := users st; heap := <[r := u']> (heap st);
                sockets := sockets st |},
             (λ x, mkDelivery x (user_media_changed sid (negb (User.isAudioEnabled u))))
               <$> filter (λ x, x ≠ sid) (members (User.roomCode u) st))) as Hstep.
  { unfold step. cbn [origin]. rewrite Hs. unfold on_toggle_audio. by rewrite Hr, Hh. }
  assert (<[r := u']> (heap st) !! r = Some u') as Hh'.
  { apply list_lookup_insert_eq. by eapply lookup_lt_Some. }
  eexists. split_and!; [exact Hstep|..]; try done.
  - rewrite Hstep. cbn. intros d (x & -> & Hx)%list_elem_of_fmap.
    by apply list_elem_of_filter in Hx as [? _].
  - unfold user_of. cbn. by rewrite Hr.
  - intros rc room _ Hin. by eapply snapshot_has.
  - unfold step. cbn [origin sockets]. rewrite Hs. unfold on_toggle_audio.
    cbn [users heap]. rewrite Hr, Hh'. cbn [fst].
    rewrite list_insert_insert_eq. subst u'. cbn. rewrite negb_involutive.
    destruct u as [i n c a]. cbn. rewrite list_insert_id by done. by destruct st.
Qed.

Lemma toggle_audio_flips_the_shared_record_witness :
  let st := exec [Connection "a"; CreateRoom "a" "Alice" "0.i" 0;
                  Connection "b"; JoinRoom "b" "I" "Bob"] in
  ∃ st',
    step (ToggleAudio "a") st = (st', [mkDelivery "b" (user_media_changed "a" false)])
    ∧ user_of st' "a" = Some (User.mk "a" "Alice" "I" false)
    ∧ (step (ToggleAudio "a") st').1 = st.
Proof.
  destruct (toggle_audio_flips_the_shared_record
              [Connection "a"; CreateRoom "a" "Alice" "0.i" 0;
               Connection "b"; JoinRoom "b" "I" "Bob"]
              "a" 0 (User.mk "a" "Alice" "I" true))
    as (st' & Hstep & _ & Hu & _ & _ & _ & _ & Hback).
  - vm_compute. eauto.
  - by vm_compute.
  - by vm_compute.
  - exists st'. split_and!; [|exact Hu|exact Hback].
    rewrite Hstep. f_equal.
Defined.

(** *** Departures *)




(** *** Creating a room *)

(** X7. [create-room] from a connected socket, in any state the relay
    reaches: the creator alone is answered, with [room-created] and a member
    list that holds its record and nothing else; the room stored under the
    code has the creator as its only member and an empty history; the
    creator's record names the code and its socket is in the Socket.IO room
    of that name; and rooms under other codes and records of other sockets
    are as before. *)
Theorem create_room_starts_with_its_creator
    (evs : list Event) (sid name random36 : string) (now : nat) :
  let st := exec evs in
  let code := generateRoomCode random36 in
  let u := User.mk sid name code true in
  is_Some (sockets st !! sid) →
  ∃ st',
    step (CreateRoom sid name random36 now) st
    = (st', [mkDelivery sid (room_created code [u])])
    ∧ rooms st' !! code = Some (Room.mk code now [(sid, length (heap st))] [])
    ∧ user_of st' sid = Some u
    ∧ sid ∈ members code st'
    ∧ (∀ rc, rc ≠ code → rooms st' !! rc = rooms st !! rc)
    ∧ (∀ sid', sid' ≠ sid → user_of st' sid' = user_of st sid').
Proof.
  intros st code u [rs Hs].
  destruct (exec_coherent evs) as [_ Hok]. fold st in Hok.
  assert ((heap st ++ [u]) !! length (heap st) = Some u) as Hnew
    by by apply list_lookup_middle.
  eexists. split_and!.
  - unfold step. cbn [origin]. rewrite Hs. unfold on_create_room. fold code.
    cbn. rewrite list_lookup_middle by done. reflexivity.
  - cbn. by rewrite lookup_insert_eq.
  - unfold user_of. cbn. rewrite lookup_insert_eq. cbn. exact Hnew.
  - apply members_spec. cbn. rewrite lookup_alter, decide_True, Hs by done. cbn.
    eexists. split; [done|]. apply elem_of_union_r. by apply elem_of_singleton.
  - intros rc Hne. cbn. by rewrite !lookup_insert_ne.
  - intros sid' Hne. unfold user_of. cbn. rewrite lookup_insert_ne by done.
    destruct (users st !! sid') as [r|] eqn:Hr; [|done]. cbn.
    destruct (Hok sid' r Hr) as (u0 & _ & Hh & _). rewrite Hh.
    by apply lookup_app_l_Some.
Qed.

Lemma create_room_starts_with_its_creator_witness :
  let st := exec [Connection "a"] in
  let u := User.mk "a" "Alice" "4FZYO8" true in
  ∃ st',
    step (CreateRoom "a" "Alice" "0.4fzyo82mvyr" 3) st
    = (st', [mkDelivery "a" (room_created "4FZYO8" [u])])
    ∧ rooms st' !! "4FZYO8" = Some (Room.mk "4FZYO8" 3 [("a", 0)] [])
    ∧ user_of st' "a" = Some u
    ∧ "a" ∈ members "4FZYO8" st'
    ∧ (∀ rc, rc ≠ "4FZYO8" → rooms st' !! rc = rooms st !! rc)
    ∧ (∀ sid', sid' ≠ "a" → user_of st' sid' = user_of st sid').
Proof.
  apply (create_room_starts_with_its_creator [Connection "a"] "a" "Alice" "0.4fzyo82mvyr" 3).
  vm_compute. eauto.
Defined.

(** *** Room codes *)

Lemma length_substring_le n m s : (String.length (substring n m s) ≤ m)%nat.
Proof.
  revert n m. induction s as [|c s IH]; intros [|n] [|m]; cbn; try lia.
  - specialize (IH 0 m). lia.
  - apply (IH n 0).
  - apply (IH n (S m)).
Qed.

Lemma length_substring_full n m s :
  (n + m ≤ String.length s)%nat → String.length (substring n m s) = m.
Proof.
  revert n m. induction s as [|c s IH]; intros [|n] [|m]; cbn; try lia.
  - intros Hl. rewrite (IH 0 m); lia.
  - intros Hl. apply (IH n 0). lia.
  - intros Hl. apply (IH n (S m)). lia.
Qed.

Lemma length_toUpperCase s : String.length (toUpperCase s) = String.length s.
Proof. induction s as [|c s IH]; cbn; congruence. Qed.

Lemma upper_ascii_idem c : upper_ascii (upper_ascii c) = upper_ascii c.
Proof. destruct c as [[] [] [] [] [] [] [] []]; by vm_compute. Qed.

Lemma upper_ascii_base36 c : base36 c = true → upper36 (upper_ascii c) = true.
Proof. destruct c as [[] [] [] [] [] [] [] []]; by vm_compute. Qed.

Lemma toUpperCase_idem s : toUpperCase (toUpperCase s) = toUpperCase s.
Proof. induction s as [|c s IH]; cbn; [done|]. by rewrite upper_ascii_idem, IH. Qed.

Lemma toUpperCase_base36 s :
  all_chars base36 s = true → all_chars upper36 (toUpperCase s) = true.
Proof.
  induction s as [|c s IH]; cbn; [done|]. intros [Hc Hs]%andb_true_iff.
  by rewrite upper_ascii_base36, IH.
Qed.

(** X8. A room code is at most six characters long, six when
    [Math.random().toString(36)] gave at least eight, and upper-casing it
    again changes nothing; when the six places after ["0."] hold digits and
    lower-case letters, the code is made of digits and upper-case letters.
    A short draw gives a short code. *)
Theorem room_code_shape (random36 : string) :
  let code := generateRoomCode random36 in
  (String.length code ≤ 6)%nat
  ∧ ((8 ≤ String.length random36)%nat → String.length code = 6)
  ∧ ((String.length random36 ≤ 2)%nat → code = "")
  ∧ toUpperCase code = code
  ∧ (all_chars base36 (substring 2 6 random36) = true → all_chars upper36 code = true).
Proof.
  cbn. unfold generateRoomCode. split_and!.
  - rewrite length_toUpperCase. apply length_substring_le.
  - intros Hl. rewrite length_toUpperCase. apply length_substring_full. lia.
  - intros Hl. destruct random36 as [|c1 [|c2 [|c3 s]]]; cbn in *; done || lia.
  - apply toUpperCase_idem.
  - apply toUpperCase_base36.
Qed.

End RelayMoreFacts.

(** ** More properties of the client *)

Module ClientMoreFacts.
Import Client ClientSpec ClientMore ClientMoreSpec ClientFacts.

(** *** Starting the call *)

(** One connection made and offered, as [startCall] and the join listener
    do it. *)
Lemma connect_run (r : Render) (uid : string) (stream : MediaStream) (on_error : M unit)
    (w : World) :
  ∃ w',
    (h ← createPeerConnection uid;
     forEach stream (λ track, rtc h (Rtc.addTrack track));;
     setPeerConnections (<[uid := h]>);;
     send_offer r h uid on_error) w = (Ok (), w')
    ∧ conns w' = conns w ++ [offering uid stream]
    ∧ emitted (output w') = emitted (output w) ++ sent r [emit_offer uid the_offer]
    ∧ entries (peerConnections (state (current w')))
      = <[uid := length (conns w)]> (entries (peerConnections (state (current w))))
    ∧ with_peerConnections (peerConnections (state (current w))) (state (current w'))
      = state (current w)
    ∧ connectionAttempts (current w') = connectionAttempts (current w)
    ∧ alerts (output w') = alerts (output w)
    ∧ uncaught (output w') = uncaught (output w)
    ∧ runtime w' = runtime w.
Proof.
  unfold createPeerConnection, log, get, modify, mbind, M_bind, mret, M_ret. cbn.
  erewrite addTracks_run; cbn; [|by apply list_lookup_middle|done].
  unfold send_offer, try_catch, mbind, M_bind, rtc_create, detached, rtc, Rtc.createOffer.
  cbn.
  repeat (first [ rewrite list_lookup_middle by done
                | rewrite insert_app_r_alt by done
                | rewrite Nat.sub_diag
                | rewrite decide_False by done ]; cbn).
  unfold emit, sent. destruct (socket (state r)); cbn;
    (eexists; split_and!; [reflexivity|try done..]);
    try (by rewrite app_nil_r); by destruct (state (current w)).
Qed.

Lemma bind_run {A B} (m : M A) (k : A → M B) (w w1 : World) (a : A) (res : Result B * World) :
  m w = (Ok a, w1) → k a w1 = res → (m ≫= k) w = res.
Proof. intros Hm Hk. unfold mbind, M_bind. by rewrite Hm. Qed.

Lemma snd_bind_run {A B} (m : M A) (k : A → M B) (w w1 : World) (a : A) :
  m w = (Ok a, w1) → ((m ≫= k) w).2 = (k a w1).2.
Proof. intros Hm. unfold mbind, M_bind. by rewrite Hm. Qed.

Lemma new_entry_run (uid : string) (w : World) :
  ∃ w',
    (h ← createPeerConnection uid; setPeerConnections (<[uid := h]>);; mret h) w
    = (Ok (length (conns w)), w')
    ∧ conns w' = conns w ++ [mkConn uid Rtc.new].
Proof. by eexists. Qed.

Lemma sent_app (r : Render) (l k : list ClientMsg) : sent r (l ++ k) = sent r l ++ sent r k.
Proof. unfold sent. by destruct (socket (state r)). Qed.

Lemma startCall_loop (r : Render) (stream : MediaStream) (us : list User.t) (w : World) :
  let targets :=
    User.id <$>
      filter (λ u, is_other r (User.id u) && bool_decide (lookup_pc r (User.id u) = None)) us in
  ∃ w',
    forEach us (λ user,
       if is_other r (User.id user) then
         match lookup_pc r (User.id user) with
         | None =>
             log "Creating peer connection for user:";;
             h ← createPeerConnection (User.id user);
             forEach stream (λ track, rtc h (Rtc.addTrack track));;
             setPeerConnections (<[User.id user := h]>);;
             send_offer r h (User.id user) (log "Error creating offer:")
         | Some _ => log "Peer connection already exists for user:"
         end
       else mret ()) w = (Ok (), w')
    ∧ conns w' = conns w ++ ((λ uid, offering uid stream) <$> targets)
    ∧ emitted (output w')
      = emitted (output w) ++ sent r ((λ uid, emit_offer uid the_offer) <$> targets)
    ∧ (∀ uid, uid ∈ targets →
         ∃ h, lookup_pc (current w') uid = Some h
              ∧ conns w' !! h = Some (offering uid stream))
    ∧ (∀ uid, uid ∉ targets → lookup_pc (current w') uid = lookup_pc (current w) uid)
    ∧ with_peerConnections (peerConnections (state (current w))) (state (current w'))
      = state (current w)
    ∧ connectionAttempts (current w') = connectionAttempts (current w)
    ∧ alerts (output w') = alerts (output w)
    ∧ uncaught (output w') = uncaught (output w)
    ∧ runtime w' = runtime w.
Proof.
  revert w. induction us as [|u us IH]; intros w; cbn zeta.
  { cbn. eexists. split_and!; try done.
    - by rewrite app_nil_r.
    - unfold sent. destruct (socket (state r)); by rewrite app_nil_r.
    - set_solver.
    - by destruct (state (current w)) as [? ? ? ? ? ? ? ? []]. }
  rewrite filter_cons. cbn [forEach].
  destruct (is_other r (User.id u)) eqn:Hother; cbn [andb].
  2:{ rewrite decide_False by (by intros []).
      destruct (IH w) as (w' & Hrun & H). exists w'. split; [|done].
      exact Hrun. }
  destruct (lookup_pc r (User.id u)) as [h0|] eqn:Hpc.
  { rewrite decide_False by (rewrite bool_decide_eq_false_2; [by intros []|done]).
    destruct (IH (logged ["Peer connection already exists for user:"] w))
      as (w' & Hrun & H).
    exists w'. split; [|done].
    unfold mbind, M_bind at 1. unfold log at 1, modify. exact Hrun. }
  rewrite decide_True by (by rewrite bool_decide_eq_true_2).
  rewrite fmap_cons.
  destruct (connect_run r (User.id u) stream (log "Error creating offer:")
              (logged ["Creating peer connection for user:"] w))
    as (w1 & Hrun1 & Hc1 & He1 & Hm1 & Hs1 & Ha1 & Hal1 & Hu1 & Hrt1).
  destruct (IH w1) as (w' & Hrun & Hc & He & Hin & Hout & Hs & Ha & Hal & Hu & Hrt).
  cbn zeta in *. cbn in Hc1, He1, Hm1, Hs1, Ha1, Hal1, Hu1, Hrt1.
  set (targets := User.id <$> filter _ us) in *.
  exists w'. split_and!.
  - eapply bind_run; [|exact Hrun].
    eapply bind_run; [reflexivity|exact Hrun1].
  - rewrite Hc, Hc1. by rewrite <- app_assoc.
  - rewrite He, He1, <- app_assoc. f_equal.
    by rewrite <- sent_app.
  - intros uid Huid. destruct (decide (uid ∈ targets)) as [Hin'|Hnin]; [by apply Hin|].
    apply elem_of_cons in Huid as [->|?]; [|done].
    exists (length (conns w)). split.
    + rewrite Hout by done. unfold lookup_pc. rewrite Hm1. by rewrite lookup_insert_eq.
    + rewrite Hc, Hc1. rewrite <- app_assoc. cbn [app]. by rewrite list_lookup_middle.
  - intros uid Huid. apply not_elem_of_cons in Huid as [Hne Hnin].
    rewrite Hout by done. unfold lookup_pc. rewrite Hm1. by rewrite lookup_insert_ne.
  - rewrite <- Hs1. rewrite <- Hs.
    by destruct (state (current w')), (state (current w1)).
  - congruence.
  - congruence.
  - congruence.
  - congruence.
Qed.

(** X9. [startCall], once the microphone is granted, makes one connection
    for every member that the render it closes over shows and has no
    connection for, the local user apart; each gets the tracks of the
    stream and the local offer, is stored under the member's id, and its
    offer is sent in the order of the member list. The stream is stored,
    nothing else is sent, nothing is thrown, and no connection attempt is
    recorded. *)
Theorem startCall_offers_to_each_missing_member (r : Render) (stream : MediaStream)
    (w : World) :
  ∃ w',
    startCall_granted r stream w = (Ok (), w')
    ∧ conns w' = conns w ++ ((λ uid, offering uid stream) <$> call_targets r)
    ∧ emitted (output w')
      = emitted (output w) ++ sent r ((λ uid, emit_offer uid the_offer) <$> call_targets r)
    ∧ localStream (state (current w')) = Some stream
    ∧ (∀ uid, uid ∈ call_targets r →
         ∃ h, lookup_pc (current w') uid = Some h
              ∧ conns w' !! h = Some (offering uid stream))
    ∧ (∀ uid, uid ∉ call_targets r → lookup_pc (current w') uid = lookup_pc (current w) uid)
    ∧ (∀ me, currentUser (state r) = Some me → User.id me ∉ call_targets r)
    ∧ connectionAttempts (current w') = connectionAttempts (current w)
    ∧ alerts (output w') = alerts (output w)
    ∧ uncaught (output w') = uncaught (output w).
Proof.
  unfold startCall_granted, try_catch, call_targets.
  unfold mbind at 1 2, M_bind at 1 2. unfold log at 1, setState at 1, modify.
  match goal with
  | |- context [forEach ?us ?f ?w0] =>
      destruct (startCall_loop r stream us w0)
        as (w' & Hrun & Hc & He & Hin & Hout & Hs & Ha & Hal & Hu & Hrt)
  end.
  cbn zeta in *. exists w'. rewrite Hrun. split_and!; try done.
  - cbn in Hs. apply (f_equal localStream) in Hs. cbn in Hs. done.
  - intros me Hme Hin'. apply list_elem_of_fmap in Hin' as (u & Hid & Hu').
    apply list_elem_of_filter in Hu' as [Hu' _].
    unfold is_other in Hu'. rewrite Hme in Hu'.
    apply andb_prop_elim in Hu' as [Hu' _]. apply bool_decide_unpack in Hu'. congruence.
Qed.

(** *** Chat messages *)

Lemma new_message_listeners_run (gens : list Render) (msg : Message.t) (w : World) :
  ∃ w',
    forEach gens (λ r, default (mret ()) (listener r (new_message msg))) w = (Ok (), w')
    ∧ messages (state (current w'))
      = messages (state (current w)) ++ replicate (length gens) msg
    ∧ users (state (current w')) = users (state (current w))
    ∧ peerConnections (state (current w')) = peerConnections (state (current w))
    ∧ conns w' = conns w
    ∧ output w' = output w.
Proof.
  revert w. induction gens as [|r gens IH]; intros w.
  { exists w. cbn. by rewrite app_nil_r. }
  destruct (IH (set_current
                  (mkRender
                     (mkApp (socket (state (current w))) (currentUser (state (current w)))
                        (roomCode (state (current w))) (users (state (current w)))
                        (messages (state (current w)) ++ [msg])
                        (isInCall (state (current w))) (isAudioEnabled (state (current w)))
                        (localStream (state (current w)))
                        (peerConnections (state (current w))))
                     (connectionAttempts (current w))) w))
    as (w' & Hrun & Hm & Hu & Hp & Hc & Ho).
  exists w'. split; [exact Hrun|]. cbn in Hm, Hu, Hp, Hc, Ho.
  split_and!; try done.
  rewrite Hm. cbn. by rewrite <- app_assoc.
Qed.

(** X10. A chat message from the relay is appended to the messages once
    for every listener that is registered, so as many times as the
    listener effect has run with a socket; connections, the member list
    and what was sent stay as they were. *)
Theorem message_is_kept_once_per_listener (msg : Message.t) (w : World) :
  let w' := step (Receive (new_message msg)) w in
  messages (state (current w'))
  = messages (state (current w)) ++ replicate (length (listeners (runtime w))) msg
  ∧ users (state (current w')) = users (state (current w))
  ∧ conns w' = conns w
  ∧ emitted (output w') = emitted (output w)
  ∧ uncaught (output w') = uncaught (output w).
Proof.
  cbn zeta. unfold step, task.
  destruct (new_message_listeners_run (listeners (runtime w)) msg
              (logged (replicate (length (listeners (runtime w))) "Socket event received:") w))
    as (w' & Hrun & Hm & Hu & Hp & Hc & Ho).
  assert (dispatch (new_message msg) w = (Ok (), w')) as ->.
  { unfold dispatch. eapply bind_run; [reflexivity|].
    eapply bind_run; [apply forEach_log|]. exact Hrun. }
  destruct (commit_frame w') as (-> & -> & -> & _).
  rewrite Hm, Hu, Hc, Ho. done.
Qed.

(** *** The effects *)

Lemma sound_runtime {A} (m : M A) (w : World) : sound [] m → runtime (m w).2 = runtime w.
Proof. intros Hm. by destruct (Hm w) as (_ & ? & _). Qed.

Lemma sound_startCall_denied : sound [] startCall_denied.
Proof. apply sound_bind; [apply sound_log|intros; apply sound_alert]. Qed.

Lemma handled_runtime (m : M unit) (w : World) :
  sound [] m →
  runtime (match m w with
           | (Ok _, w') => w'
           | (Thrown e, w') => report e w'
           end) = runtime w.
Proof.
  intros Hm. pose proof (sound_runtime m w Hm) as Hrt.
  by destruct (m w) as [[] ?].
Qed.

Lemma commit_listeners (w : World) :
  ∃ l, listeners (runtime (commit w)) = listeners (runtime w) ++ l
       ∧ (l = [] ∨ (l = [current w] ∧ is_Some (socket (state (current w))))).
Proof.
  unfold commit.
  change (listeners (runtime (call_effect (listener_effect w))))
    with (listeners (runtime (listener_effect w))).
  unfold listener_effect.
  destruct (decide (listener_deps (runtime w) = _)).
  - exists []. by rewrite app_nil_r; auto.
  - destruct (socket (state (current w))) eqn:Hs; cbn.
    + exists [current w]. split; [done|]. right. split; [done|by eexists].
    + exists []. by rewrite app_nil_r; auto.
Qed.

Lemma commit_awaiting (w : World) :
  awaiting_media (runtime (commit w)) = awaiting_media (runtime w)
  ∨ ∃ r, awaiting_media (runtime (commit w)) = awaiting_media (runtime w) ++ [r]
         ∧ isInCall (state (current w)) = true
         ∧ (1 < length (users (state (current w))))%nat
         ∧ localStream (state (current w)) = None.
Proof.
  unfold commit, call_effect. cbn.
  assert (awaiting_media (runtime (listener_effect w)) = awaiting_media (runtime w)
          ∧ current (listener_effect w) = current w) as [-> ->].
  { unfold listener_effect. by destruct (decide _). }
  destruct (decide (call_deps _ = _)); [by left|].
  destruct (isInCall (state (current w))) eqn:Hcall; cbn; [|by left].
  destruct (length (users (state (current w)))) as [|[|k]] eqn:Hlen; cbn;
    [by left|by left|].
  destruct (bool_decide (localStream (state (current w)) = None)) eqn:Hstream; cbn;
    [|by left].
  right. eexists. split; [done|]. split_and!; [done|lia|].
  by apply bool_decide_eq_true in Hstream.
Qed.

Lemma step_as_task (i : Input) (w : World) :
  step i w = w ∧ pending_before i w = awaiting_media (runtime w)
  ∨ ∃ m w0, step i w = task m w0 ∧ sound [] m
            ∧ listeners (runtime w0) = listeners (runtime w)
            ∧ awaiting_media (runtime w0) = pending_before i w.
Proof.
  destruct i; cbn;
    try (right; eexists _, w; split_and!; [reflexivity| |done|done]).
  - apply sound_dispatch.
  - unfold resume. destruct (awaiting_media (runtime w)) as [|r rest] eqn:Hq;
      [by left|].
    right. eexists _, _. split_and!; [reflexivity| |done|done].
    apply sound_startCall_granted.
  - unfold resume. destruct (awaiting_media (runtime w)) as [|r rest] eqn:Hq;
      [by left|].
    right. eexists _, _. split_and!; [reflexivity| |done|done].
    apply sound_startCall_denied.
  - apply sound_createRoom.
  - apply sound_joinRoom.
  - apply sound_toggleAudio.
  - apply sound_leaveCall.
Qed.

Lemma step_listeners (i : Input) (w : World) :
  ∃ l, listeners (runtime (step i w)) = listeners (runtime w) ++ l
       ∧ (l = [] ∨ (l = [current (step i w)]
                    ∧ is_Some (socket (state (current (step i w)))))).
Proof.
  destruct (step_as_task i w) as [[-> _]|(m & w0 & -> & Hm & Hl & _)].
  { exists []. by rewrite app_nil_r; auto. }
  unfold task.
  destruct (commit_listeners (match m w0 with
                              | (Ok _, w') => w'
                              | (Thrown e, w') => report e w'
                              end)) as (l & Hl' & Hcase).
  exists l. rewrite Hl', handled_runtime, Hl by done. split; [done|].
  by destruct (commit_frame (match m w0 with
                             | (Ok _, w') => w'
                             | (Thrown e, w') => report e w'
                             end)) as (-> & _).
Qed.

Lemma mount_listeners (sid : string) : listeners (runtime (mount sid)) = [first_render sid].
Proof. reflexivity. Qed.

Lemma run_first_listener (inputs : list Input) (w : World) (r0 : Render) :
  listeners (runtime w) !! 0%nat = Some r0 →
  listeners (runtime (run inputs w)) !! 0%nat = Some r0.
Proof.
  revert w. induction inputs as [|i inputs IH]; intros w Hw; [done|].
  cbn. apply IH. destruct (step_listeners i w) as (l & -> & _).
  by apply lookup_app_l_Some.
Qed.

Lemma reachable_first_listener (w : World) :
  reachable w →
  ∃ sid rest, listeners (runtime w) = first_render sid :: rest.
Proof.
  intros (sid & inputs & ->).
  pose proof (run_first_listener inputs (mount sid) (first_render sid) eq_refl) as H0.
  destruct (listeners (runtime (run inputs (mount sid)))) as [|r rest]; [done|].
  injection H0 as ->. by eexists _, _.
Qed.

(** X11. The listener effect has no cleanup: whatever the client receives
    or the user does, the listeners registered before stay registered in
    their order, and at most one is added, which closes over the render
    that follows the input. *)
Theorem listeners_are_never_removed (i : Input) (w : World) :
  ∃ l, listeners (runtime (step i w)) = listeners (runtime w) ++ l
       ∧ (l = [] ∨ (l = [current (step i w)]
                    ∧ is_Some (socket (state (current (step i w)))))).
Proof. apply step_listeners. Qed.

(** X12. The microphone is asked for only by a client that is in a call
    with more than one member and has no stream: after any input the
    suspended [startCall]s are those the input found, or one more, and
    one more only in such a state. *)
Theorem microphone_is_requested_only_in_a_call (i : Input) (w : World) :
  let w' := step i w in
  awaiting_media (runtime w') = pending_before i w
  ∨ ∃ r, awaiting_media (runtime w') = pending_before i w ++ [r]
         ∧ isInCall (state (current w')) = true
         ∧ (1 < length (users (state (current w'))))%nat
         ∧ localStream (state (current w')) = None.
Proof.
  cbn zeta.
  destruct (step_as_task i w) as [[-> ->]|(m & w0 & -> & Hm & _ & Hq)]; [by left|].
  unfold task.
  set (w1 := match m w0 with
             | (Ok _, w') => w'
             | (Thrown e, w') => report e w'
             end).
  assert (runtime w1 = runtime w0) as Hrt by (by apply handled_runtime).
  destruct (commit_frame w1) as (-> & _).
  rewrite <- Hq, <- Hrt. apply commit_awaiting.
Qed.

(** *** Offers *)

Lemma holds_forEach_in {A} (I : World → Prop) (l : list A) (f : A → M unit) :
  (∀ x, x ∈ l → holds I (f x)) → holds I (forEach l f).
Proof.
  induction l as [|x l IH]; intros Hf; cbn; [apply holds_ret|].
  apply holds_bind; [apply Hf; left|]. intros _. apply IH.
  intros y Hy. apply Hf. by right.
Qed.

Lemma holds_signalingState h c h' : holds (same_conn h c) (signalingState h').
Proof. intros w HI. unfold signalingState. by destruct (conns w !! h'). Qed.

(** A connection made while [h] exists is another one. *)
Lemma holds_create_then {B} h c uid (f : nat → M B) :
  (∀ h', h' ≠ h → holds (same_conn h c) (f h')) →
  holds (same_conn h c) (createPeerConnection uid ≫= f).
Proof.
  intros Hf w HI. unfold same_conn in HI.
  assert (h < length (conns w))%nat as Hlt by (by eapply lookup_lt_Some).
  unfold createPeerConnection, log, get, modify, mbind, M_bind, mret, M_ret. cbn.
  apply Hf; [lia|]. unfold same_conn. cbn. by apply lookup_app_l_Some.
Qed.

(** The first part of [handleOffer] gives the connection of the map or none. *)
Lemma find_open_result (r : Render) (senderId : string) (w w' : World) (h : nat) :
  match lookup_pc r senderId with
  | Some h0 =>
      s ← signalingState h0;
      if decide (s = Rtc.closed)
      then log "Removing closed connection for";;
           cleanupPeerConnection r senderId;;
           mret None
      else mret (Some h0)
  | None => mret None
  end w = (Ok (Some h), w') →
  lookup_pc r senderId = Some h.
Proof.
  destruct (lookup_pc r senderId) as [h0|]; [|done].
  unfold mbind at 1, M_bind at 1, signalingState.
  destruct (conns w !! h0) as [c0|]; [|done].
  case_decide; [|by intros [= -> _]].
  unfold mbind, M_bind, mret, M_ret.
  destruct (log _ w) as [[] ?]; [|done].
  by destruct (cleanupPeerConnection _ _ _) as [[] ?].
Qed.

Lemma holds_find_elsewhere h c r senderId :
  (∀ h0, lookup_pc r senderId = Some h0 → h0 ≠ h) →
  holds (same_conn h c)
    match lookup_pc r senderId with
    | Some h0 =>
        s ← signalingState h0;
        if decide (s = Rtc.closed)
        then log "Removing closed connection for";;
             cleanupPeerConnection r senderId;;
             mret None
        else mret (Some h0)
    | None => mret None
    end.
Proof.
  intros Hne. destruct (lookup_pc r senderId) as [h0|] eqn:Hr; [|apply holds_ret].
  apply holds_bind; [apply holds_signalingState|]. intros s.
  case_decide; [|apply holds_ret].
  apply holds_bind; [apply holds_log|]. intros _.
  apply holds_bind; [|intros _; apply holds_ret].
  apply holds_cleanup. intros h1. rewrite Hr. intros [= <-]. by apply Hne.
Qed.

Lemma holds_offer_elsewhere h c r o senderId :
  (∀ h0, lookup_pc r senderId = Some h0 → h0 ≠ h) →
  holds (same_conn h c) (handleOffer r o senderId).
Proof.
  intros Hne. unfold handleOffer.
  assert (∀ h', h' ≠ h →
            holds (same_conn h c)
              (try_catch
                 (s ← signalingState h';
                  if decide (s = Rtc.have_local_offer ∨ s = Rtc.have_remote_offer)
                  then log "Already processing offer/answer for"
                  else
                    rtc h' (Rtc.setRemoteDescription o);;
                    a ← rtc_create h' Rtc.createAnswer;
                    rtc h' (Rtc.setLocalDescription a);;
                    emit r (emit_answer senderId a))
                 (λ _, log "Error handling offer:"))) as Hblock.
  { intros h' Hh'. apply holds_try_catch; [|intros _; apply holds_log].
    apply holds_bind; [apply holds_signalingState|].
    intros s. case_decide; [apply holds_log|].
    apply holds_bind; [by apply holds_rtc_other|]. intros _.
    apply holds_bind; [apply holds_rtc_create|]. intros a.
    apply holds_bind; [by apply holds_rtc_other|]. intros _. apply holds_emit. }
  apply holds_bind; [apply holds_log|]. intros _ w HI.
  pose proof (holds_find_elsewhere h c r senderId Hne w HI) as HI1.
  unfold mbind at 1, M_bind at 1.
  match goal with
  | |- context [match ?find w with _ => _ end] =>
      destruct (find w) as [[found|e] w1] eqn:Hfind
  end; [|done].
  cbn [snd] in HI1. destruct found as [h'|].
  - apply find_open_result in Hfind. apply Hne in Hfind.
    exact (Hblock h' Hfind w1 HI1).
  - destruct (new_entry_run senderId w1) as (w2 & Hnew & Hc2).
    rewrite (snd_bind_run _ _ _ _ _ Hnew).
    assert (h < length (conns w1))%nat as Hlt by (by eapply lookup_lt_Some).
    apply Hblock; [lia|]. unfold same_conn. rewrite Hc2. by apply lookup_app_l_Some.
Qed.

Lemma reachable_wf (w : World) : reachable w → wf w.
Proof. intros (sid & inputs & ->). apply wf_run, wf_mount. Qed.

(** X13. Every offer that reaches a mounted client makes a new connection
    for the sender, whatever the map holds: the listener of the first
    render is still registered and sees an empty map. The new connection
    is not closed, and no connection that existed is taken away. *)
Theorem every_offer_makes_a_connection (w : World) (o : SessionDescription)
    (senderId : string) :
  reachable w →
  let w' := step (Receive (offer o senderId)) w in
  open_for senderId (length (conns w)) w'
  ∧ (length (conns w) < length (conns w'))%nat.
Proof.
  intros Hw. cbn zeta.
  assert (open_for senderId (length (conns w)) (step (Receive (offer o senderId)) w)) as Hopen.
  2:{ split; [done|]. destruct Hopen as (c & Hc & _). by eapply lookup_lt_Some. }
  destruct (reachable_first_listener w Hw) as (sid & rest & Hl).
  pose proof (reachable_wf w Hw) as (_ & Hvalid & _). rewrite Hl in Hvalid.
  apply Forall_cons in Hvalid as [_ Hvalid].
  set (w0 := logged (replicate (length (first_render sid :: rest)) "Socket event received:") w).
  destruct (handleOffer_without_entry (first_render sid) o senderId w0 eq_refl)
    as (w1 & c & Hrun & Hc & Hid & Hstate & _).
  assert (same_conn (length (conns w)) c (step (Receive (offer o senderId)) w)) as Hsame.
  2:{ by exists c. }
  unfold step, task.
  assert (same_conn (length (conns w)) c (dispatch (offer o senderId) w).2) as Hd.
  { unfold dispatch.
    rewrite (snd_bind_run (get (λ w, listeners (runtime w))) _ w w _ eq_refl).
    rewrite Hl.
    rewrite (snd_bind_run _ _ w w0 () (forEach_log _ _ _)).
    cbn [forEach].
    assert (default (mret ()) (listener (first_render sid) (offer o senderId)) w0
            = (Ok (), w1)) as Hfirst.
    { cbn. unfold detached. by rewrite Hrun. }
    rewrite (snd_bind_run _ _ _ _ _ Hfirst).
    apply holds_forEach_in.
    - intros r Hr. cbn. apply holds_detached; [done|].
      apply holds_offer_elsewhere. intros h0 Hh0.
      rewrite Forall_forall in Hvalid. apply (Hvalid r Hr) in Hh0. lia.
    - unfold same_conn. rewrite Hc. by apply list_lookup_middle. }
  destruct (dispatch (offer o senderId) w) as [[[]|e] w2]; cbn [snd] in Hd;
    by apply same_conn_commit.
Qed.

(** *** Negotiation through the relay *)

Lemma relay_forwards (st : Relay.State) (p q : string) (sig : RelaySpec.Signal) :
  p ≠ q → Relay.members p st = [p] → Relay.members q st = [q] →
  Relay.step (RelaySpec.signal_event p q sig) st
  = (st, [Relay.mkDelivery q (RelaySpec.forwarded sig p)]).
Proof.
  intros Hne Hp Hq.
  assert (is_Some (Relay.sockets st !! p)) as Hcon.
  { assert (p ∈ Relay.members p st) as Hin by (rewrite Hp; left).
    apply RelayFacts.members_spec in Hin as (rs & Hrs & _). by eexists. }
  rewrite RelayFacts.signal_step by done. rewrite Hq.
  rewrite filter_cons, decide_True by done. by rewrite filter_nil.
Qed.

Lemma handleOffer_answers (r : Render) (o : SessionDescription) (senderId : string)
    (w : World) :
  lookup_pc r senderId = None → sd_type o = sdp_offer →
  ∃ w', handleOffer r o senderId w = (Ok (), w')
    ∧ conns w' = conns w ++ [answering senderId o]
    ∧ lookup_pc (current w') senderId = Some (length (conns w))
    ∧ emitted (output w') = emitted (output w) ++ sent r [emit_answer senderId the_answer]
    ∧ uncaught (output w') = uncaught (output w).
Proof.
  intros Hnone Hty. unfold handleOffer. rewrite Hnone.
  unfold createPeerConnection, try_catch, signalingState, rtc, rtc_create, log, get, modify,
    setPeerConnections, mbind, M_bind, mret, M_ret, lookup_pc.
  cbn. rewrite list_lookup_middle by done. cbn.
  rewrite decide_False by (by intros [|]). cbn.
  rewrite list_lookup_middle by done. cbn.
  unfold Rtc.setRemoteDescription, Rtc.createAnswer, Rtc.setLocalDescription, Rtc.installed,
    emit, sent.
  destruct o as [ty text]. cbn in Hty. subst ty. cbn.
  repeat (first [ rewrite list_lookup_middle by done
                | rewrite insert_app_r_alt by done
                | rewrite Nat.sub_diag ]; cbn).
  destruct (socket (state r)); cbn;
    (eexists; split_and!; [reflexivity|reflexivity|by apply lookup_insert_eq|..]);
    try done; by rewrite app_nil_r.
Qed.

(** X14. An offer from a sender whose connection in the listener's map is
    closed: the closed connection is left as it is, a new one is made for
    the sender, answers the offer and takes the sender's place in the
    current map, and the answer is sent. Nothing is thrown. *)
Theorem offer_replaces_a_closed_connection
    (r : Render) (o : SessionDescription) (senderId : string) (w : World)
    (h : nat) (c : Conn) :
  lookup_pc r senderId = Some h →
  conns w !! h = Some c →
  Rtc.signalingState (pc c) = Rtc.closed →
  sd_type o = sdp_offer →
  ∃ w', handleOffer r o senderId w = (Ok (), w')
    ∧ conns w' = conns w ++ [answering senderId o]
    ∧ lookup_pc (current w') senderId = Some (length (conns w))
    ∧ emitted (output w') = emitted (output w) ++ sent r [emit_answer senderId the_answer]
    ∧ uncaught (output w') = uncaught (output w).
Proof.
  intros Hr Hc Hclosed Hty.
  assert (<[h := mkConn (userId c) (Rtc.close (pc c))]> (conns w) = conns w) as Hsame.
  { apply list_insert_id. rewrite Hc. f_equal. destruct c as [uid []]. cbn in *.
    by subst. }
  unfold handleOffer. rewrite Hr.
  unfold cleanupPeerConnection. rewrite Hr.
  unfold createPeerConnection, try_catch, signalingState, rtc, rtc_create, log, get, modify,
    setPeerConnections, mbind, M_bind, mret, M_ret, lookup_pc.
  cbn. rewrite Hc. cbn. rewrite decide_True by done. cbn. rewrite Hc. cbn.
  rewrite Hsame.
  rewrite list_lookup_middle by done. cbn.
  rewrite decide_False by (by intros [|]). cbn.
  rewrite list_lookup_middle by done. cbn.
  unfold Rtc.setRemoteDescription, Rtc.createAnswer, Rtc.setLocalDescription, Rtc.installed,
    emit, sent.
  destruct o as [ty text]. cbn in Hty. subst ty. cbn.
  repeat (first [ rewrite list_lookup_middle by done
                | rewrite insert_app_r_alt by done
                | rewrite Nat.sub_diag ]; cbn).
  destruct (socket (state r)); cbn;
    (eexists; split_and!; [reflexivity|reflexivity|by apply lookup_insert_eq|..]);
    try done; by rewrite app_nil_r.
Qed.

Lemma offer_replaces_a_closed_connection_witness :
  let w := step (Receive (user_left "a" [bob])) bob_calls_alice in
  let r := current bob_calls_alice in
  let c := mkConn "a" (Rtc.mk Rtc.closed (Some the_offer) None ["audio"] []) in
  ∃ w', handleOffer r the_offer "a" w = (Ok (), w')
    ∧ conns w' = conns w ++ [answering "a" the_offer]
    ∧ lookup_pc (current w') "a" = Some (length (conns w))
    ∧ emitted (output w') = emitted (output w) ++ sent r [emit_answer "a" the_answer]
    ∧ uncaught (output w') = uncaught (output w).
Proof.
  intros w r c.
  exact (offer_replaces_a_closed_connection r the_offer "a" w 0 c
           eq_refl eq_refl eq_refl eq_refl).
Defined.

(** X15. The handshake over the relay, end to end. [p] has a connection for
    [q] with its own offer as local description; [q] has none for [p]. The
    relay hands the offer to [q] alone, [q] answers on a new connection
    that it stores under [p], the relay hands the answer to [p] alone, and
    [p] applies it: both connections are stable with the two descriptions.
    The connection of the answering side has no track to send. *)
Theorem offer_and_answer_complete_the_handshake
    (st : Relay.State) (p q : string) (rp rq : Render) (wp wq : World)
    (h : nat) (stream : MediaStream) (random36 : string) (now : nat) :
  p ≠ q →
  Relay.members p st = [p] →
  Relay.members q st = [q] →
  socket (state rq) = Some q →
  lookup_pc rp q = Some h →
  conns wp !! h = Some (offering q stream) →
  lookup_pc rq p = None →
  ∃ wq' wp',
    Relay.step (to_relay p random36 now (emit_offer q the_offer)) st
    = (st, [Relay.mkDelivery q (offer the_offer p)])
    ∧ handleOffer rq the_offer p wq = (Ok (), wq')
    ∧ conns wq' = conns wq ++ [answering p the_offer]
    ∧ lookup_pc (current wq') p = Some (length (conns wq))
    ∧ emitted (output wq') = emitted (output wq) ++ [emit_answer p the_answer]
    ∧ Relay.step (to_relay q random36 now (emit_answer p the_answer)) st
      = (st, [Relay.mkDelivery p (answer the_answer q)])
    ∧ handleAnswer rp the_answer q wp = (Ok (), wp')
    ∧ conns wp'
      = <[h := mkConn q (Rtc.mk Rtc.stable (Some the_offer) (Some the_answer) stream [])]>
          (conns wp)
    ∧ Rtc.senders (pc (answering p the_offer)) = []
    ∧ uncaught (output wq') = uncaught (output wq)
    ∧ uncaught (output wp') = uncaught (output wp).
Proof.
  intros Hne Hp Hq Hsock Hrp Hc Hrq.
  destruct (handleOffer_answers rq the_offer p wq Hrq eq_refl)
    as (wq' & Hoffer & Hcq & Hmq & Heq & Huq).
  destruct (handleAnswer_run rp the_answer q wp) as (lines & Hanswer).
  rewrite Hrp, Hc in Hanswer. cbn in Hanswer.
  eexists wq', _. split_and!.
  - exact (relay_forwards st p q (RelaySpec.SigOffer the_offer) Hne Hp Hq).
  - exact Hoffer.
  - exact Hcq.
  - exact Hmq.
  - rewrite Heq. unfold sent. by rewrite Hsock.
  - apply (relay_forwards st q p (RelaySpec.SigAnswer the_answer)); [congruence|done|done].
  - exact Hanswer.
  - done.
  - done.
  - exact Huq.
  - done.
Qed.

Lemma offer_and_answer_complete_the_handshake_witness :
  let st := Relay.exec [Relay.Connection "a"; Relay.CreateRoom "a" "Alice" "0.i" 0;
                        Relay.Connection "b"; Relay.JoinRoom "b" "I" "Bob"] in
  ∃ wq' wp',
    Relay.step (to_relay "b" "" 0 (emit_offer "a" the_offer)) st
    = (st, [Relay.mkDelivery "a" (offer the_offer "b")])
    ∧ handleOffer (current (mount "a")) the_offer "b" (mount "a") = (Ok (), wq')
    ∧ conns wq' = conns (mount "a") ++ [answering "b" the_offer]
    ∧ lookup_pc (current wq') "b" = Some (length (conns (mount "a")))
    ∧ emitted (output wq') = emitted (output (mount "a")) ++ [emit_answer "b" the_answer]
    ∧ Relay.step (to_relay "a" "" 0 (emit_answer "b" the_answer)) st
      = (st, [Relay.mkDelivery "b" (answer the_answer "a")])
    ∧ handleAnswer (current bob_calls_alice) the_answer "a" bob_calls_alice = (Ok (), wp')
    ∧ conns wp'
      = <[0%nat := mkConn "a" (Rtc.mk Rtc.stable (Some the_offer) (Some the_answer)
                                 ["audio"] [])]>
          (conns bob_calls_alice)
    ∧ Rtc.senders (pc (answering "b" the_offer)) = []
    ∧ uncaught (output wq') = uncaught (output (mount "a"))
    ∧ uncaught (output wp') = uncaught (output bob_calls_alice).
Proof.
  apply (offer_and_answer_complete_the_handshake _ "b" "a" (current bob_calls_alice)
           (current (mount "a")) bob_calls_alice (mount "a") 0 ["audio"] "" 0);
    by vm_compute.
Defined.

(** X16. A candidate that the browser gathers on the connection [p] made
    for [q] is sent to [q] through the relay, which hands it to [q] alone
    with [p] as sender; [q] adds it to the connection it keeps for [p] when
    that one has a remote description. The end of gathering, a null
    candidate, is not sent. *)
Theorem gathered_candidate_reaches_the_peer
    (st : Relay.State) (p q : string) (rp rq : Render) (wp wq : World)
    (h : nat) (cn : Conn) (d : SessionDescription) (cand : IceCandidate)
    (random36 : string) (now : nat) :
  p ≠ q →
  Relay.members p st = [p] →
  Relay.members q st = [q] →
  socket (state rp) = Some p →
  lookup_pc rq p = Some h →
  conns wq !! h = Some cn →
  Rtc.signalingState (pc cn) ≠ Rtc.closed →
  Rtc.remoteDescription (pc cn) = Some d →
  ∃ wp' wq',
    onicecandidate rp q (Some cand) wp = (Ok (), wp')
    ∧ emitted (output wp') = emitted (output wp) ++ [emit_ice_candidate q cand]
    ∧ Relay.step (to_relay p random36 now (emit_ice_candidate q cand)) st
      = (st, [Relay.mkDelivery q (ice_candidate cand p)])
    ∧ handleIceCandidate rq cand p wq = (Ok (), wq')
    ∧ conns wq'
      = <[h := mkConn (userId cn)
                 (Rtc.mk (Rtc.signalingState (pc cn)) (Rtc.localDescription (pc cn))
                    (Rtc.remoteDescription (pc cn)) (Rtc.senders (pc cn))
                    (Rtc.candidates (pc cn) ++ [cand]))]> (conns wq)
    ∧ onicecandidate rp q None wp = (Ok (), wp).
Proof.
  intros Hne Hp Hq Hsock Hrq Hc Hopen Hremote.
  eexists _, _. split_and!.
  - unfold onicecandidate, emit. rewrite Hsock. reflexivity.
  - done.
  - exact (relay_forwards st p q (RelaySpec.SigIce cand) Hne Hp Hq).
  - rewrite handleIceCandidate_run by (intros h'; rewrite Hrq; intros [= <-]; by eexists).
    rewrite Hrq, Hc. rewrite decide_False by done.
    unfold Rtc.addIceCandidate. rewrite decide_False by done. rewrite Hremote.
    reflexivity.
  - cbn. by rewrite Hremote.
  - done.
Qed.

Lemma gathered_candidate_reaches_the_peer_witness :
  let st := Relay.exec [Relay.Connection "a"; Relay.CreateRoom "a" "Alice" "0.i" 0;
                        Relay.Connection "b"; Relay.JoinRoom "b" "I" "Bob"] in
  let wq := step (Receive (answer the_answer "a")) bob_calls_alice in
  ∃ wp' wq',
    onicecandidate (current (mount "a")) "b" (Some "candidate:1") (mount "a") = (Ok (), wp')
    ∧ emitted (output wp')
      = emitted (output (mount "a")) ++ [emit_ice_candidate "b" "candidate:1"]
    ∧ Relay.step (to_relay "a" "" 0 (emit_ice_candidate "b" "candidate:1")) st
      = (st, [Relay.mkDelivery "b" (ice_candidate "candidate:1" "a")])
    ∧ handleIceCandidate (current wq) "candidate:1" "a" wq = (Ok (), wq')
    ∧ conns wq'
      = <[0%nat := mkConn "a" (Rtc.mk Rtc.stable (Some the_offer) (Some the_answer) ["audio"]
                                 ["candidate:1"])]> (conns wq)
    ∧ onicecandidate (current (mount "a")) "b" None (mount "a") = (Ok (), mount "a").
Proof.
  intros st wq.
  apply (gathered_candidate_reaches_the_peer st "a" "b" (current (mount "a")) (current wq)
           (mount "a") wq 0
           (mkConn "a" (Rtc.mk Rtc.stable (Some the_offer) (Some the_answer) ["audio"] []))
           the_answer "candidate:1" "" 0);
    by vm_compute.
Defined.

Lemma every_offer_makes_a_connection_witness :
  reachable bob_calls_alice
  ∧ open_for "a" 1 (step (Receive (offer the_offer "a")) bob_calls_alice)
  ∧ (1 < length (conns (step (Receive (offer the_offer "a")) bob_calls_alice)))%nat.
Proof.
  assert (reachable bob_calls_alice) as Hw by (by eexists _, _).
  split; [exact Hw|].
  exact (every_offer_makes_a_connection bob_calls_alice the_offer "a" Hw).
Defined.

(** *** Closing connections *)

Lemma close_at_length (h : nat) (cs : list Conn) : length (close_at h cs) = length cs.
Proof. unfold close_at. destruct (cs !! h); [apply length_insert|done]. Qed.

Lemma close_at_lookup (h0 h : nat) (cs : list Conn) :
  close_at h0 cs !! h = if decide (h = h0) then close_conn <$> cs !! h else cs !! h.
Proof.
  unfold close_at. case_decide as Heq.
  - subst h0. destruct (cs !! h) as [c|] eqn:Hc; cbn; [|by rewrite Hc].
    apply list_lookup_insert_eq. by eapply lookup_lt_Some.
  - destruct (cs !! h0); [|done]. by apply list_lookup_insert_ne.
Qed.

Lemma close_all_length (hs : list nat) (cs : list Conn) :
  length (close_all hs cs) = length cs.
Proof.
  revert cs. induction hs as [|h hs IH]; intros cs; [done|].
  cbn. unfold close_all in IH. by rewrite IH, close_at_length.
Qed.

Lemma close_all_lookup (hs : list nat) (cs : list Conn) (h : nat) :
  close_all hs cs !! h = if decide (h ∈ hs) then close_conn <$> cs !! h else cs !! h.
Proof.
  revert cs. induction hs as [|h0 hs IH]; intros cs.
  { cbn. by rewrite decide_False by set_solver. }
  change (close_all (h0 :: hs) cs) with (close_all hs (close_at h0 cs)).
  rewrite IH, close_at_lookup.
  destruct (decide (h = h0)) as [->|Hne].
  - rewrite (decide_True (P := h0 ∈ h0 :: hs)) by left.
    case_decide; [|done]. by destruct (cs !! h0) as [[? []]|].
  - case_decide as Hin.
    + by rewrite decide_True by (by right).
    + rewrite decide_False; [done|]. by intros [?|?]%elem_of_cons.
Qed.

Lemma close_run (h : nat) (w : World) :
  (h < length (conns w))%nat →
  rtc h (λ pc, Some (Rtc.close pc)) w = (Ok (), set_conns (close_at h (conns w)) w).
Proof.
  intros Hlt. apply lookup_lt_is_Some in Hlt as [c Hc].
  unfold rtc, close_at. by rewrite Hc.
Qed.

Lemma close_each_run {A} (l : list A) (f : A → nat) (w : World) :
  Forall (λ x, f x < length (conns w))%nat l →
  forEach l (λ x, rtc (f x) (λ pc, Some (Rtc.close pc))) w
  = (Ok (), set_conns (close_all (f <$> l) (conns w)) w).
Proof.
  revert w. induction l as [|x l IH]; intros w Hl.
  { cbn. by destruct w. }
  apply Forall_cons in Hl as [Hx Hl]. cbn [forEach].
  eapply bind_run; [by apply close_run|].
  rewrite IH; [done|]. cbn. by rewrite close_at_length.
Qed.

(** X17. [leaveCall] in a world the component can be in: every connection
    of the current map is closed and no other is touched, the client is out
    of the room with an empty map and no stream, it keeps its socket, its
    user and its audio flag, and it sends nothing: the relay is not told. *)
Theorem leaveCall_closes_the_map_and_tells_nobody (w : World) :
  reachable w →
  let w' := step ClickLeaveCall w in
  left_call (state (current w)) (state (current w'))
  ∧ (∀ uid h, lookup_pc (current w) uid = Some h → is_closed w' h)
  ∧ (∀ h, (∀ uid, lookup_pc (current w) uid ≠ Some h) → conns w' !! h = conns w !! h)
  ∧ length (conns w') = length (conns w)
  ∧ emitted (output w') = emitted (output w)
  ∧ uncaught (output w') = uncaught (output w).
Proof.
  intros Hw. cbn zeta. pose proof (reachable_wf w Hw) as (Hvalid & _).
  set (l := map_to_list (entries (peerConnections (state (current w))))).
  assert (Forall (λ p : string * nat, p.2 < length (conns w))%nat l) as Hl.
  { apply Forall_forall. intros [uid h] Hin. apply elem_of_map_to_list in Hin.
    by apply (Hvalid uid h). }
  assert (∀ h, h ∈ l.*2 ↔ ∃ uid, lookup_pc (current w) uid = Some h) as Hin.
  { intros h. rewrite list_elem_of_fmap. split.
    - intros ([uid h'] & -> & Hp). exists uid. by apply elem_of_map_to_list in Hp.
    - intros [uid Hu]. exists (uid, h). split; [done|]. by apply elem_of_map_to_list. }
  unfold step, task.
  assert (∃ w1, leaveCall w = (Ok (), w1)
                ∧ conns w1 = close_all (l.*2) (conns w)
                ∧ left_call (state (current w)) (state (current w1))
                ∧ output w1 = output w) as (w1 & -> & Hc & Hs & Ho).
  { unfold leaveCall. eexists. split.
    - eapply bind_run; [reflexivity|]. eapply bind_run; [by apply close_each_run|].
      reflexivity.
    - done. }
  destruct (commit_frame w1) as (-> & -> & -> & _). rewrite Hc, Ho.
  split_and!; try done.
  - intros uid h Hu. unfold is_closed.
    destruct (commit_frame w1) as (_ & -> & _). rewrite Hc, close_all_lookup.
    rewrite decide_True by (apply Hin; by exists uid).
    destruct (lookup_lt_is_Some_2 (conns w) h) as [c Hconn]; [by eapply Hvalid|].
    rewrite Hconn. by eexists.
  - intros h Hh. rewrite close_all_lookup. rewrite decide_False; [done|].
    rewrite Hin. intros [uid Hu]. by eapply Hh.
  - apply close_all_length.
Qed.

Lemma leaveCall_closes_the_map_and_tells_nobody_witness :
  let w := bob_calls_alice in
  let w' := step ClickLeaveCall w in
  reachable w
  ∧ left_call (state (current w)) (state (current w'))
  ∧ (∀ uid h, lookup_pc (current w) uid = Some h → is_closed w' h)
  ∧ (∀ h, (∀ uid, lookup_pc (current w) uid ≠ Some h) → conns w' !! h = conns w !! h)
  ∧ length (conns w') = length (conns w)
  ∧ emitted (output w') = emitted (output w)
  ∧ uncaught (output w') = uncaught (output w).
Proof.
  intros w w'.
  assert (reachable w) as Hw by (by eexists _, _).
  split; [exact Hw|].
  exact (leaveCall_closes_the_map_and_tells_nobody w Hw).
Defined.

(** *** A member leaves *)

Lemma user_left_listeners_run (gens : list Render) (uid : string) (us : list User.t)
    (w : World) :
  Forall (valid (length (conns w))) gens →
  let hs := omap (λ r, lookup_pc r uid) gens in
  ∃ w',
    forEach gens (λ r, default (mret ()) (listener r (user_left uid us))) w = (Ok (), w')
    ∧ conns w' = close_all hs (conns w)
    ∧ entries (peerConnections (state (current w')))
      = (if decide (hs = []) then entries (peerConnections (state (current w)))
         else delete uid (entries (peerConnections (state (current w)))))
    ∧ (gens ≠ [] → users (state (current w')) = us)
    ∧ emitted (output w') = emitted (output w)
    ∧ uncaught (output w') = uncaught (output w).
Proof.
  revert w. induction gens as [|r gens IH]; intros w Hvalid; cbn zeta.
  { by exists w. }
  apply Forall_cons in Hvalid as [Hr Hvalid]. cbn [omap forEach].
  assert (∃ w1,
            default (mret ()) (listener r (user_left uid us)) w = (Ok (), w1)
            ∧ conns w1 = match lookup_pc r uid with
                         | Some h => close_at h (conns w)
                         | None => conns w
                         end
            ∧ entries (peerConnections (state (current w1)))
              = match lookup_pc r uid with
                | Some _ => delete uid (entries (peerConnections (state (current w))))
                | None => entries (peerConnections (state (current w)))
                end
            ∧ users (state (current w1)) = us
            ∧ emitted (output w1) = emitted (output w)
            ∧ uncaught (output w1) = uncaught (output w))
    as (w1 & Hrun & Hc1 & Hm1 & Hu1 & He1 & Hun1).
  { cbn. unfold on_user_left, cleanupPeerConnection.
    destruct (lookup_pc r uid) as [h|] eqn:Hlook.
    - eexists. split.
      + eapply bind_run; [reflexivity|]. eapply bind_run; [|reflexivity].
        eapply bind_run; [|reflexivity]. apply close_run. cbn. by eapply Hr.
      + done.
    - eexists. by split. }
  destruct (IH w1) as (w' & Hrun' & Hc & Hm & _ & He & Hun).
  { replace (length (conns w1)) with (length (conns w)); [done|].
    rewrite Hc1. destruct (lookup_pc r uid); [by rewrite close_at_length|done]. }
  cbn zeta in *.
  assert (users (state (current w')) = us) as Hu.
  { destruct gens as [|r' gens].
    - cbn in Hrun'. by injection Hrun' as <-.
    - destruct (IH w1) as (w'' & Hrun'' & _ & _ & Hu'' & _).
      { replace (length (conns w1)) with (length (conns w)); [done|].
        rewrite Hc1. destruct (lookup_pc r uid); [by rewrite close_at_length|done]. }
      rewrite Hrun' in Hrun''. injection Hrun'' as <-. by apply Hu''. }
  exists w'. split_and!.
  - eapply bind_run; [exact Hrun|exact Hrun'].
  - cbn [omap list_omap]. rewrite Hc, Hc1. by destruct (lookup_pc r uid).
  - cbn [omap list_omap]. rewrite Hm, Hm1. destruct (lookup_pc r uid) as [h|]; [|done].
    rewrite (decide_False (P := h :: _ = [])) by done. case_decide; [done|].
    apply delete_delete_eq.
  - done.
  - congruence.
  - congruence.
Qed.

(** X18. When the relay reports that [uid] left, every registered listener
    closes the connection its own render holds for [uid] and no other, and
    the member list becomes the one of the message. If some listener held
    one, the current map has no entry for [uid] afterwards, and the entries
    of other members stay. Nothing is sent and nothing is thrown. *)
Theorem user_left_closes_what_listeners_hold (w : World) (uid : string) (us : list User.t) :
  reachable w →
  let w' := step (Receive (user_left uid us)) w in
  users (state (current w')) = us
  ∧ (∀ r h, r ∈ listeners (runtime w) → lookup_pc r uid = Some h → is_closed w' h)
  ∧ (∀ h, (∀ r, r ∈ listeners (runtime w) → lookup_pc r uid ≠ Some h) →
       conns w' !! h = conns w !! h)
  ∧ (∀ k, k ≠ uid → lookup_pc (current w') k = lookup_pc (current w) k)
  ∧ ((∃ r, r ∈ listeners (runtime w) ∧ is_Some (lookup_pc r uid)) →
     lookup_pc (current w') uid = None)
  ∧ emitted (output w') = emitted (output w)
  ∧ uncaught (output w') = uncaught (output w).
Proof.
  intros Hw. cbn zeta. pose proof (reachable_wf w Hw) as (_ & Hvalid & _).
  destruct (reachable_first_listener w Hw) as (sid & rest & Hl).
  set (gens := listeners (runtime w)) in *.
  set (w0 := logged (replicate (length gens) "Socket event received:") w).
  destruct (user_left_listeners_run gens uid us w0 Hvalid)
    as (w1 & Hrun & Hc & Hm & Hu & He & Hun).
  cbn zeta in *.
  assert (dispatch (user_left uid us) w = (Ok (), w1)) as Hd.
  { unfold dispatch. eapply bind_run; [reflexivity|].
    eapply bind_run; [apply forEach_log|]. exact Hrun. }
  unfold step, task. rewrite Hd.
  destruct (commit_frame w1) as (-> & -> & -> & _).
  assert (∀ h, h ∈ omap (λ r, lookup_pc r uid) gens
               ↔ ∃ r, r ∈ gens ∧ lookup_pc r uid = Some h) as Hin.
  { intros h. by rewrite list_elem_of_omap. }
  split_and!.
  - apply Hu. by rewrite Hl.
  - intros r h Hr Hh. unfold is_closed.
    destruct (commit_frame w1) as (_ & -> & _). rewrite Hc, close_all_lookup.
    rewrite decide_True by (apply Hin; by exists r).
    rewrite Forall_forall in Hvalid.
    destruct (lookup_lt_is_Some_2 (conns w) h) as [c Hconn]; [by eapply (Hvalid r)|].
    cbn. rewrite Hconn. by eexists.
  - intros h Hh. rewrite Hc, close_all_lookup. rewrite decide_False; [done|].
    rewrite Hin. intros (r & Hr & Hu'). by eapply Hh.
  - intros k Hk. unfold lookup_pc. rewrite Hm. case_decide; [done|].
    cbn. by rewrite lookup_delete_ne.
  - intros (r & Hr & [h Hh]). unfold lookup_pc. rewrite Hm.
    rewrite decide_False.
    + by rewrite lookup_delete_eq.
    + intros Hnil. assert (h ∈ omap (λ r, lookup_pc r uid) gens) as Hh'.
      { apply Hin. by exists r. }
      rewrite Hnil in Hh'. by apply elem_of_nil in Hh'.
  - done.
  - done.
Qed.

Lemma user_left_closes_what_listeners_hold_witness :
  let w := bob_calls_alice in
  let w' := step (Receive (user_left "a" [bob])) w in
  reachable w
  ∧ users (state (current w')) = [bob]
  ∧ (∀ r h, r ∈ listeners (runtime w) → lookup_pc r "a" = Some h → is_closed w' h)
  ∧ (∀ h, (∀ r, r ∈ listeners (runtime w) → lookup_pc r "a" ≠ Some h) →
       conns w' !! h = conns w !! h)
  ∧ (∀ k, k ≠ "a" → lookup_pc (current w') k = lookup_pc (current w) k)
  ∧ ((∃ r, r ∈ listeners (runtime w) ∧ is_Some (lookup_pc r "a")) →
     lookup_pc (current w') "a" = None)
  ∧ emitted (output w') = emitted (output w)
  ∧ uncaught (output w') = uncaught (output w).
Proof.
  intros w w'.
  assert (reachable w) as Hw by (by eexists _, _).
  split; [exact Hw|].
  exact (user_left_closes_what_listeners_hold w "a" [bob] Hw).
Defined.

(** *** Entering a room *)

Lemma trim_start_solid (t : string) : solid t → trim_start t = t.
Proof.
  unfold solid. destruct t as [|c t]; [done|]. cbn [RelayMoreSpec.all_chars trim_start].
  intros [Hc _]%andb_true_iff. apply negb_true_iff in Hc. by rewrite Hc.
Qed.

Lemma trim_end_solid (t : string) : solid t → trim_end t = t.
Proof.
  unfold solid. induction t as [|c t IH]; [done|]. cbn [RelayMoreSpec.all_chars trim_end].
  intros [Hc Ht]%andb_true_iff. apply negb_true_iff in Hc. by rewrite Hc, IH.
Qed.

Lemma trim_solid (t : string) : solid t → trim t = t.
Proof. intros Ht. unfold trim. by rewrite trim_start_solid, trim_end_solid. Qed.

Lemma upper36_not_space (c : ascii) : RelayMoreSpec.upper36 c = true → is_space c = false.
Proof. destruct c as [[] [] [] [] [] [] [] []]; by vm_compute. Qed.

Lemma upper36_solid (s : string) : RelayMoreSpec.all_chars RelayMoreSpec.upper36 s = true → solid s.
Proof.
  unfold solid. induction s as [|c s IH]; [done|]. cbn [RelayMoreSpec.all_chars].
  intros [Hc Hs]%andb_true_iff. by rewrite (upper36_not_space c Hc), IH.
Qed.

(** The code made from a draw of base-36 digits with at least one place
    after ["0."]: not empty, no white space, upper case already. *)
Lemma code_of_base36_draw (random36 : string) :
  substring 2 6 random36 ≠ "" →
  RelayMoreSpec.all_chars RelayMoreSpec.base36 (substring 2 6 random36) = true →
  let code := Relay.generateRoomCode random36 in
  code ≠ "" ∧ trim code = code ∧ toUpperCase code = code.
Proof.
  intros Hne Hdraw. cbn zeta. unfold Relay.generateRoomCode. split_and!.
  - by destruct (substring 2 6 random36).
  - by apply trim_solid, upper36_solid, RelayMoreFacts.toUpperCase_base36.
  - apply RelayMoreFacts.toUpperCase_idem.
Qed.

Lemma reachable_step (i : Input) (w : World) : reachable w → reachable (step i w).
Proof.
  intros (sid & inputs & ->). exists sid, (inputs ++ [i]).
  unfold run. by rewrite foldl_app.
Qed.

Lemma setState_users_loop {A} (l : list A) (line : string) (f : AppState → AppState)
    (w : World) :
  ∃ w',
    forEach l (λ _, log line;; setState_users f) w = (Ok (), w')
    ∧ state (current w') = Nat.iter (length l) f (state (current w))
    ∧ connectionAttempts (current w') = connectionAttempts (current w)
    ∧ conns w' = conns w
    ∧ emitted (output w') = emitted (output w)
    ∧ uncaught (output w') = uncaught (output w)
    ∧ runtime w' = runtime w.
Proof.
  revert w. induction l as [|x l IH]; intros w; [by exists w|].
  cbn [forEach].
  destruct (IH (mkWorld (mkRender (f (state (current w))) (connectionAttempts (current w)))
                  (conns w) (next_map w) (S (users_sets w))
                  (output (logged [line] w)) (runtime w)))
    as (w' & Hrun & Hs & Ha & Hc & He & Hu & Hrt).
  exists w'. split; [exact Hrun|]. cbn in Hs, Ha, Hc, He, Hu, Hrt.
  split_and!; try done. rewrite Hs. cbn [length]. by rewrite Nat.iter_succ_r.
Qed.

(** X19. A room code typed back joins the room. The relay has made a room
    from a draw of base-36 digits. In the join form a user whose name is
    ASCII and not blank types the code in either letter case, ASCII and at
    most six characters as the field allows, which the field upper-cases;
    Join is enabled. The client sends [join-room] with exactly the code of
    the room and the trimmed name, the relay answers [room-joined] with a
    member list that holds the user's record, and on that message the
    client is in the call, in that room, with that list. *)
Theorem typed_code_joins_the_room
    (w : World) (st0 : Relay.State) (sid creator cname random36 : string) (now : nat)
    (username typed : string) :
  let code := Relay.generateRoomCode random36 in
  let st := (Relay.step (Relay.CreateRoom creator cname random36 now) st0).1 in
  let me := User.mk sid (trim username) code true in
  let field := toUpperCase typed in
  let w1 := step (ClickJoinRoom username field) w in
  reachable w →
  isInCall (state (current w)) = false →
  socket (state (current w)) = Some sid →
  is_Some (Relay.sockets st0 !! creator) →
  is_Some (Relay.sockets st0 !! sid) →
  substring 2 6 random36 ≠ "" →
  RelayMoreSpec.all_chars RelayMoreSpec.base36 (substring 2 6 random36) = true →
  ascii_text username →
  trim username ≠ "" →
  ascii_text typed →
  (String.length typed ≤ 6)%nat →
  field = code →
  ∃ st' ds S msgs,
    emitted (output w1) = emitted (output w) ++ [emit_join_room code (trim username)]
    ∧ Relay.step (to_relay sid random36 now (emit_join_room code (trim username))) st
      = (st', ds ++ [Relay.mkDelivery sid (room_joined code S msgs)])
    ∧ me ∈ S
    ∧ let w2 := step (Receive (room_joined code S msgs)) w1 in
      roomCode (state (current w2)) = code
      ∧ isInCall (state (current w2)) = true
      ∧ users (state (current w2)) = S
      ∧ currentUser (state (current w2)) = Some me.
Proof.
  intros code st me field w1 Hw _ Hsock [rc0 Hcreator] [rs Hsid] Hne Hdraw _ Hname _ _ Hfield.
  destruct (code_of_base36_draw random36 Hne Hdraw) as (Hcode & Htrim & Hup).
  fold code in Hcode, Htrim, Hup.
  assert (toUpperCase (trim field) = code) as Hsend by (by rewrite Hfield, Htrim).
  assert (bool_decide (trim username ≠ "") && bool_decide (trim field ≠ "") = true) as Hen.
  { rewrite Hfield, Htrim. by rewrite !bool_decide_eq_true_2 by done. }
  clearbody field.
  (* the click *)
  assert (∃ wj, joinRoom username field w = (Ok (), wj)
                ∧ emitted (output wj)
                  = emitted (output w) ++ [emit_join_room code (trim username)]
                ∧ currentUser (state (current wj)) = Some me) as (wj & Hj & Hej & Hcj).
  { unfold joinRoom. eexists. split.
    - eapply bind_run; [reflexivity|]. rewrite Hsock, Hen.
      unfold emit. rewrite Hsock. reflexivity.
    - unfold me. by rewrite <- Hsend. }
  assert (emitted (output w1) = emitted (output w) ++ [emit_join_room code (trim username)]
          ∧ currentUser (state (current w1)) = Some me) as [He1 Hc1].
  { unfold w1, step, task. rewrite Hj.
    by destruct (commit_frame wj) as (-> & _ & -> & _). }
  (* the relay *)
  assert (∃ room, Relay.rooms st !! code = Some room) as [room Hroom].
  { unfold st, Relay.step. cbn [Relay.origin]. rewrite Hcreator.
    unfold Relay.on_create_room. cbn. eexists. apply lookup_insert_eq. }
  assert (is_Some (Relay.sockets st !! sid)) as [rs' Hsid'].
  { unfold st, Relay.step. cbn [Relay.origin]. rewrite Hcreator.
    unfold Relay.on_create_room. cbn. rewrite lookup_alter.
    destruct (decide (creator = sid)); rewrite ?Hsid, ?Hcreator; by eexists. }
  eexists _, _, _, _. split; [exact He1|]. split.
  { cbn [to_relay]. unfold Relay.step. cbn [Relay.origin]. rewrite Hsid'.
    unfold Relay.on_join_room. rewrite Hroom. reflexivity. }
  split.
  { eapply RelayMoreFacts.snapshot_has; [apply RelayMoreFacts.map_set_has|].
    cbn. by apply list_lookup_middle. }
  (* the answer *)
  cbn zeta.
  destruct (reachable_first_listener w1 (reachable_step _ w Hw)) as (sid0 & rest & Hl).
  match goal with
  | |- context [step (Receive (room_joined code ?S ?msgs)) w1] =>
      set (S0 := S); set (msgs0 := msgs)
  end.
  set (f := λ prev, mkApp (socket prev) (currentUser prev) code S0 msgs0 true
                      (isAudioEnabled prev) (localStream prev) (peerConnections prev)).
  destruct (setState_users_loop (listeners (runtime w1)) "Successfully joined room:" f
              (logged (replicate (length (listeners (runtime w1))) "Socket event received:")
                 w1))
    as (w2 & Hrun & Hs & _).
  assert (dispatch (room_joined code S0 msgs0) w1 = (Ok (), w2)) as Hd.
  { unfold dispatch. eapply bind_run; [reflexivity|].
    eapply bind_run; [apply forEach_log|]. exact Hrun. }
  unfold step at 1 2 3 4, task. rewrite Hd.
  destruct (commit_frame w2) as (-> & _). rewrite Hs, Hl. cbn [length].
  rewrite Nat.iter_succ. cbn. split_and!; try done.
  clear Hs Hrun Hd. induction (length rest) as [|n IH]; [done|].
  by rewrite Nat.iter_succ.
Qed.

Lemma typed_code_joins_the_room_witness :
  let w := mount "b" in
  let st0 := Relay.exec [Relay.Connection "a"; Relay.Connection "b"] in
  let code := Relay.generateRoomCode "0.i4x9zq" in
  let st := (Relay.step (Relay.CreateRoom "a" "Alice" "0.i4x9zq" 0) st0).1 in
  let me := User.mk "b" (trim " Bob") code true in
  let field := toUpperCase "i4x9Zq" in
  let w1 := step (ClickJoinRoom " Bob" field) w in
  code = "I4X9ZQ"
  ∧ ∃ st' ds S msgs,
      emitted (output w1) = emitted (output w) ++ [emit_join_room code (trim " Bob")]
      ∧ Relay.step (to_relay "b" "0.i4x9zq" 0 (emit_join_room code (trim " Bob"))) st
        = (st', ds ++ [Relay.mkDelivery "b" (room_joined code S msgs)])
      ∧ me ∈ S
      ∧ let w2 := step (Receive (room_joined code S msgs)) w1 in
        roomCode (state (current w2)) = code
        ∧ isInCall (state (current w2)) = true
        ∧ users (state (current w2)) = S
        ∧ currentUser (state (current w2)) = Some me.
Proof.
  intros w st0 code st me field w1. split; [reflexivity|].
  assert (reachable w) as Hw by (by exists "b", []).
  assert (is_Some (Relay.sockets st0 !! "a")) as Ha by (vm_compute; by eexists).
  assert (is_Some (Relay.sockets st0 !! "b")) as Hb by (vm_compute; by eexists).
  assert (substring 2 6 "0.i4x9zq" ≠ "") as Hdraw by (by vm_compute).
  assert (trim " Bob" ≠ "") as Hname by (by vm_compute).
  assert (String.length "i4x9Zq" ≤ 6)%nat as Hlen by (vm_compute; lia).
  exact (typed_code_joins_the_room w st0 "b" "a" "Alice" "0.i4x9zq" 0 " Bob" "i4x9Zq"
           Hw eq_refl eq_refl Ha Hb Hdraw eq_refl eq_refl Hname eq_refl Hlen eq_refl).
Defined.

(** X20. Creating a room, end to end. In the join form, with a name that is
    ASCII and not blank, Create is enabled and the client sends
    [create-room] with the trimmed name; the relay answers [room-created]
    to the creator alone, with the code it made and a member list that
    holds the creator's record and nothing else; on that message the client
    is in the call in that room. Alone in the room it does not ask for the
    microphone, and the room code of [currentUser] stays empty. *)
Theorem created_room_is_shown_to_its_creator
    (w : World) (st : Relay.State) (sid username random36 : string) (now : nat) :
  let code := Relay.generateRoomCode random36 in
  let me := User.mk sid (trim username) code true in
  let w1 := step (ClickCreateRoom username) w in
  reachable w →
  isInCall (state (current w)) = false →
  socket (state (current w)) = Some sid →
  is_Some (Relay.sockets st !! sid) →
  ascii_text username →
  trim username ≠ "" →
  ∃ st',
    emitted (output w1) = emitted (output w) ++ [emit_create_room (trim username)]
    ∧ Relay.step (to_relay sid random36 now (emit_create_room (trim username))) st
      = (st', [Relay.mkDelivery sid (room_created code [me])])
    ∧ let w2 := step (Receive (room_created code [me])) w1 in
      roomCode (state (current w2)) = code
      ∧ isInCall (state (current w2)) = true
      ∧ users (state (current w2)) = [me]
      ∧ currentUser (state (current w2)) = Some (User.mk sid (trim username) "" true)
      ∧ awaiting_media (runtime w2) = awaiting_media (runtime w1).
Proof.
  intros code me w1 Hw _ Hsock [rs Hsid] _ Hname.
  assert (∃ wc, createRoom username w = (Ok (), wc)
                ∧ emitted (output wc)
                  = emitted (output w) ++ [emit_create_room (trim username)]
                ∧ currentUser (state (current wc))
                  = Some (User.mk sid (trim username) "" true))
    as (wc & Hc & Hec & Hcc).
  { unfold createRoom. eexists. split.
    - eapply bind_run; [reflexivity|]. rewrite Hsock.
      rewrite bool_decide_eq_true_2 by done. unfold emit. rewrite Hsock. reflexivity.
    - done. }
  assert (emitted (output w1) = emitted (output w) ++ [emit_create_room (trim username)]
          ∧ currentUser (state (current w1))
            = Some (User.mk sid (trim username) "" true)) as [He1 Hc1].
  { unfold w1, step, task. rewrite Hc.
    by destruct (commit_frame wc) as (-> & _ & -> & _). }
  eexists. split; [exact He1|]. split.
  { cbn [to_relay]. unfold Relay.step. cbn [Relay.origin]. rewrite Hsid.
    unfold Relay.on_create_room. cbn. unfold Relay.snapshot. cbn.
    by rewrite list_lookup_middle. }
  cbn zeta.
  destruct (reachable_first_listener w1 (reachable_step _ w Hw)) as (sid0 & rest & Hl).
  set (f := λ prev, mkApp (socket prev) (currentUser prev) code [me] (messages prev) true
                      (isAudioEnabled prev) (localStream prev) (peerConnections prev)).
  destruct (setState_users_loop (listeners (runtime w1)) "Room created successfully:" f
              (logged (replicate (length (listeners (runtime w1))) "Socket event received:")
                 w1))
    as (w2 & Hrun & Hs & _ & _ & _ & _ & Hrt).
  assert (dispatch (room_created code [me]) w1 = (Ok (), w2)) as Hd.
  { unfold dispatch. eapply bind_run; [reflexivity|].
    eapply bind_run; [apply forEach_log|]. exact Hrun. }
  assert (users (state (current w2)) = [me] ∧ roomCode (state (current w2)) = code
          ∧ isInCall (state (current w2)) = true
          ∧ currentUser (state (current w2)) = currentUser (state (current w1)))
    as (Hu2 & Hr2 & Hi2 & Hc2).
  { rewrite Hs, Hl. cbn [length]. rewrite Nat.iter_succ. cbn. split_and!; try done.
    clear. induction (length rest) as [|n IH]; [done|]. by rewrite Nat.iter_succ. }
  unfold step at 1 2 3 4 5, task. rewrite Hd.
  destruct (commit_frame w2) as (-> & _). split_and!; try congruence.
  destruct (commit_awaiting w2) as [->|(r & _ & _ & Hlen & _)].
  - by rewrite Hrt.
  - rewrite Hu2 in Hlen. cbn in Hlen. lia.
Qed.

Lemma created_room_is_shown_to_its_creator_witness :
  let w := mount "a" in
  let st := Relay.exec [Relay.Connection "a"] in
  let code := Relay.generateRoomCode "0.i4x9zq" in
  let me := User.mk "a" (trim "Alice ") code true in
  let w1 := step (ClickCreateRoom "Alice ") w in
  ∃ st',
    emitted (output w1) = emitted (output w) ++ [emit_create_room (trim "Alice ")]
    ∧ Relay.step (to_relay "a" "0.i4x9zq" 0 (emit_create_room (trim "Alice "))) st
      = (st', [Relay.mkDelivery "a" (room_created code [me])])
    ∧ let w2 := step (Receive (room_created code [me])) w1 in
      roomCode (state (current w2)) = code
      ∧ isInCall (state (current w2)) = true
      ∧ users (state (current w2)) = [me]
      ∧ currentUser (state (current w2)) = Some (User.mk "a" (trim "Alice ") "" true)
      ∧ awaiting_media (runtime w2) = awaiting_media (runtime w1).
Proof.
  intros w st code me w1.
  assert (reachable w) as Hw by (by exists "a", []).
  assert (is_Some (Relay.sockets st !! "a")) as Ha by (vm_compute; by eexists).
  assert (trim "Alice " ≠ "") as Hname by (by vm_compute).
  exact (created_room_is_shown_to_its_creator w st "a" "Alice " "0.i4x9zq" 0
           Hw eq_refl eq_refl Ha eq_refl Hname).
Defined.

(** *** Mute without a stream *)

(** X21. In the call view without a local stream, as a member alone in its
    room is, the Mute button does nothing: the audio flag and the rest of
    the state stay, no [toggle-audio] is sent, no alert is shown. *)
Theorem mute_without_stream_changes_nothing (w : World) :
  let w' := step ClickToggleAudio w in
  isInCall (state (current w)) = true →
  localStream (state (current w)) = None →
  current w' = current w
  ∧ conns w' = conns w
  ∧ emitted (output w') = emitted (output w)
  ∧ alerts (output w') = alerts (output w).
Proof.
  intros w' _ Hs. unfold w', step, task.
  assert (toggleAudio w = (Ok (), logged ["No local stream found!"] w)) as ->.
  { unfold toggleAudio. eapply bind_run; [reflexivity|]. by rewrite Hs. }
  by destruct (commit_frame (logged ["No local stream found!"] w)) as (-> & -> & -> & _).
Qed.

Lemma mute_without_stream_changes_nothing_witness :
  let me := User.mk "a" "Alice" "I" true in
  let w := run [ClickCreateRoom "Alice"; Receive (room_created "I" [me])] (mount "a") in
  let w' := step ClickToggleAudio w in
  reachable w
  ∧ current w' = current w
  ∧ conns w' = conns w
  ∧ emitted (output w') = emitted (output w)
  ∧ alerts (output w') = alerts (output w).
Proof.
  intros me w w'. split; [by eexists _, _|].
  exact (mute_without_stream_changes_nothing w eq_refl eq_refl).
Defined.

(** *** The audio flag on both sides *)

(** X22. The audio flag of the client and the flag of its record at the
    relay move together. With a stream that has an audio track, the button
    flips the client's flag and sends one [toggle-audio]; the relay flips
    the record on it and tells only other sockets, with the value the
    client now holds. If the two flags agreed before, they agree after. *)
Theorem audio_flag_stays_in_step_with_the_relay
    (w : World) (st : Relay.State) (sid : string) (stream : MediaStream) (u : User.t)
    (random36 : string) (now : nat) :
  let w' := step ClickToggleAudio w in
  socket (state (current w)) = Some sid →
  localStream (state (current w)) = Some stream →
  "audio" ∈ stream →
  is_Some (Relay.sockets st !! sid) →
  RelayMoreSpec.user_of st sid = Some u →
  User.isAudioEnabled u = isAudioEnabled (state (current w)) →
  ∃ st' ds u',
    isAudioEnabled (state (current w')) = negb (isAudioEnabled (state (current w)))
    ∧ emitted (output w') = emitted (output w) ++ [emit_toggle_audio]
    ∧ Relay.step (to_relay sid random36 now emit_toggle_audio) st = (st', ds)
    ∧ RelayMoreSpec.user_of st' sid = Some u'
    ∧ User.isAudioEnabled u' = isAudioEnabled (state (current w'))
    ∧ (∀ d, d ∈ ds →
         Relay.recipient d ≠ sid
         ∧ Relay.payload d = user_media_changed sid (isAudioEnabled (state (current w')))).
Proof.
  intros w' Hsock Hstream Haudio [rs Hsid] Hu Hflag.
  assert (isAudioEnabled (state (current w')) = negb (isAudioEnabled (state (current w)))
          ∧ emitted (output w') = emitted (output w) ++ [emit_toggle_audio]) as [Hf He].
  { unfold w', step, task.
    assert (∃ w1, toggleAudio w = (Ok (), w1)
                  ∧ isAudioEnabled (state (current w1))
                    = negb (isAudioEnabled (state (current w)))
                  ∧ emitted (output w1) = emitted (output w) ++ [emit_toggle_audio])
      as (w1 & -> & Hf1 & He1).
    { unfold toggleAudio. eexists. split.
      - eapply bind_run; [reflexivity|]. rewrite Hstream.
        rewrite bool_decide_eq_true_2 by done. unfold emit. rewrite Hsock. reflexivity.
      - done. }
    by destruct (commit_frame w1) as (-> & _ & -> & _). }
  clearbody w'. unfold RelayMoreSpec.user_of in Hu.
  destruct (Relay.users st !! sid) as [r|] eqn:Hr; [|done]. cbn in Hu.
  eexists _, _, _. split; [exact Hf|]. split; [exact He|]. split.
  { cbn [to_relay]. unfold Relay.step. cbn [Relay.origin]. rewrite Hsid.
    unfold Relay.on_toggle_audio. rewrite Hr, Hu. reflexivity. }
  split_and!.
  - unfold RelayMoreSpec.user_of. cbn. rewrite Hr. cbn.
    apply list_lookup_insert_eq. by eapply lookup_lt_Some.
  - cbn. by rewrite Hf, Hflag.
  - intros d (x & -> & Hx)%list_elem_of_fmap.
    apply list_elem_of_filter in Hx as [Hx _]. cbn. by rewrite Hf, Hflag.
Qed.

Lemma audio_flag_stays_in_step_with_the_relay_witness :
  let w := bob_calls_alice in
  let st := Relay.exec [Relay.Connection "a"; Relay.CreateRoom "a" "Alice" "0.i" 0;
                        Relay.Connection "b"; Relay.JoinRoom "b" "I" "Bob"] in
  let w' := step ClickToggleAudio w in
  ∃ st' ds u',
    isAudioEnabled (state (current w')) = negb (isAudioEnabled (state (current w)))
    ∧ emitted (output w') = emitted (output w) ++ [emit_toggle_audio]
    ∧ Relay.step (to_relay "b" "" 0 emit_toggle_audio) st = (st', ds)
    ∧ RelayMoreSpec.user_of st' "b" = Some u'
    ∧ User.isAudioEnabled u' = isAudioEnabled (state (current w'))
    ∧ (∀ d, d ∈ ds →
         Relay.recipient d ≠ "b"
         ∧ Relay.payload d
           = user_media_changed "b" (isAudioEnabled (state (current w')))).
Proof.
  intros w st w'.
  assert ("audio" ∈ ["audio"]) as Haudio by left.
  assert (is_Some (Relay.sockets st !! "b")) as Hb by (vm_compute; by eexists).
  exact (audio_flag_stays_in_step_with_the_relay w st "b" ["audio"]
           (User.mk "b" "Bob" "I" true) "" 0 eq_refl eq_refl Haudio Hb eq_refl eq_refl).
Defined.

End ClientMoreFacts.
